(** * Storage-engine core: extendible hash table, LRU-K replacer,
      buffer pool manager and B+ tree pages

    A shallow embedding of the C++ sources

      - [src/container/hash/extendible_hash_table.cpp]
      - [src/buffer/lru_k_replacer.cpp]
      - [src/buffer/buffer_pool_manager.cpp]
      - [src/storage/page/b_plus_tree_leaf_page.cpp]
      - [src/storage/page/b_plus_tree_internal_page.cpp]
      - [src/storage/index/b_plus_tree.cpp]

    Conventions.  C++ [int] values ([page_id_t], [frame_id_t], depths,
    pin counts, node sizes) are [Z]; signed overflow is undefined in C++ and
    these values stay far from the bounds of [int], so their arithmetic is
    that of [Z].  [size_t] counters are [Z] with their wrap-around at [2^64]
    written out.  Undefined behaviour (an out-of-range index, a
    dangling bucket reference, a shift by 31 bits or more, erasing through
    an iterator of another list) makes an operation return [None]; a
    result [Some _] is a run of the code that is defined.  The mutexes
    serialise whole operations, so each operation is a function on the
    component's state. *)

From Stdlib Require Import ZArith Lia.
From stdpp Require Import base option list gmap.

#[local] Open Scope Z_scope.

(** [size_t] arithmetic. *)
Definition wrap64 (z : Z) : Z := z mod 2 ^ 64.

(** [1 << d] on [int]: defined for [0 <= d < 31]. *)
Definition shl1 (d : Z) : option Z :=
  if decide (0 ≤ d < 31) then Some (Z.shiftl 1 d) else None.

(** [v[i]] on a [std::vector] or array with an [int] or [size_t] index. *)
Definition at_index {A} (l : list A) (i : Z) : option A :=
  if decide (0 ≤ i) then l !! Z.to_nat i else None.

(** [v[i] = x]. *)
Definition set_index {A} (l : list A) (i : Z) (x : A) : option (list A) :=
  if decide (0 ≤ i < Z.of_nat (length l)) then Some (<[Z.to_nat i := x]> l) else None.

(** [std::hash<int>] of libstdc++: the value converted to [size_t]. *)
Definition hash_int (k : Z) : Z := wrap64 k.

(* ===================================================================== *)
(** * Extendible hash table *)
(* ===================================================================== *)

Module ExtendibleHashTable.
Section table.
Context {K V : Type} `{EqDecision K}.
(** [std::hash<K>()(key)] *)
Variable hash : K → Z.

(** ** Bucket *)

Record Bucket := mkBucket {
  size_ : nat;               (* capacity, [size_t size_] *)
  depth_ : Z;                (* [int depth_] *)
  list_ : list (K * V)       (* [std::list<std::pair<K, V>> list_] *)
}.

(** [IsFull] is declared in the header: [list_.size() == size_]. *)
Definition IsFull (b : Bucket) : bool := bool_decide (length (list_ b) = size_ b).

(** [Bucket::Find]: first pair whose key equals [key]. *)
Fixpoint find_items (l : list (K * V)) (key : K) : option V :=
  match l with
  | [] => None
  | (k, v) :: l' => if decide (key = k) then Some v else find_items l' key
  end.

Definition Bucket_Find (b : Bucket) (key : K) : option V := find_items (list_ b) key.

(** [Bucket::Remove]: erase the first pair whose key equals [key]. *)
Fixpoint remove_items (l : list (K * V)) (key : K) : option (list (K * V)) :=
  match l with
  | [] => None
  | (k, v) :: l' =>
      if decide (k = key) then Some l'
      else (λ r, (k, v) :: r) <$> remove_items l' key
  end.

Definition Bucket_Remove (b : Bucket) (key : K) : Bucket * bool :=
  match remove_items (list_ b) key with
  | Some l' => (mkBucket (size_ b) (depth_ b) l', true)
  | None => (b, false)
  end.

(** [Bucket::Insert]: overwrite the value of an existing key, else append
    when the bucket is not full, else report failure. *)
Fixpoint update_items (l : list (K * V)) (key : K) (value : V) : option (list (K * V)) :=
  match l with
  | [] => None
  | (k, v) :: l' =>
      if decide (key = k) then Some ((k, value) :: l')
      else (λ r, (k, v) :: r) <$> update_items l' key value
  end.

Definition Bucket_Insert (b : Bucket) (key : K) (value : V) : Bucket * bool :=
  match update_items (list_ b) key value with
  | Some l' => (mkBucket (size_ b) (depth_ b) l', true)
  | None =>
      if IsFull b then (b, false)
      else (mkBucket (size_ b) (depth_ b) (list_ b ++ [(key, value)]), true)
  end.

(** ** Table

    [dir_] is a vector of [shared_ptr<Bucket>]: several slots share one
    bucket.  The buckets live in a store [buckets_]; a directory slot
    holds the index of its bucket there, and [make_shared] appends a new
    bucket to the store. *)

Record Table := mkTable {
  global_depth_ : Z;
  bucket_size_ : nat;
  num_buckets_ : Z;
  dir_ : list nat;
  buckets_ : list Bucket
}.

(** The constructor: one empty bucket.  [global_depth_] and [num_buckets_]
    get their initial values from the header: depth 0 and one bucket. *)
Definition new_table (bucket_size : nat) : Table :=
  mkTable 0 bucket_size 1 [0%nat] [mkBucket bucket_size 0 []].

(** [dir_[i]->...]: the bucket a slot refers to. *)
Definition bucket_at (t : Table) (i : Z) : option (nat * Bucket) :=
  h ← at_index (dir_ t) i;
  b ← buckets_ t !! h;
  Some (h, b).

Definition IndexOf (t : Table) (key : K) : option Z :=
  m ← shl1 (global_depth_ t);
  Some (Z.land (hash key) (m - 1)).

Definition Find (t : Table) (key : K) : option (option V) :=
  index ← IndexOf t key;
  '(_, b) ← bucket_at t index;
  Some (Bucket_Find b key).

Definition Remove (t : Table) (key : K) : option (Table * bool) :=
  index ← IndexOf t key;
  '(h, b) ← bucket_at t index;
  let '(b', r) := Bucket_Remove b key in
  Some (mkTable (global_depth_ t) (bucket_size_ t) (num_buckets_ t) (dir_ t)
          (<[h := b']> (buckets_ t)), r).

(** The redistribution loop of [Insert]: every item of the old bucket goes
    to [bucket1] when its hash has the bit [local_mask], else to [bucket0]. *)
Fixpoint redistribute (items : list (K * V)) (local_mask : Z) (b0 b1 : Bucket)
  : Bucket * Bucket :=
  match items with
  | [] => (b0, b1)
  | (k, v) :: items' =>
      if decide (Z.land (hash k) local_mask ≠ 0)
      then redistribute items' local_mask b0 (Bucket_Insert b1 k v).1
      else redistribute items' local_mask (Bucket_Insert b0 k v).1 b1
  end.

(** The rewiring loop
    [for (i = start; i < dir_.size(); i += local_mask) dir_[i] = ...].
    [fuel] bounds the number of iterations; [None] when it runs out. *)
Fixpoint rewire (fuel : nat) (i local_mask : Z) (h0 h1 : nat) (dir : list nat)
  : option (list nat) :=
  if decide (i < Z.of_nat (length dir)) then
    match fuel with
    | O => None
    | S fuel' =>
        dir' ← set_index dir i (if decide (Z.land i local_mask ≠ 0) then h1 else h0);
        rewire fuel' (i + local_mask) local_mask h0 h1 dir'
    end
  else Some dir.

Definition store_bucket (t : Table) (h : nat) (b : Bucket) : Table :=
  mkTable (global_depth_ t) (bucket_size_ t) (num_buckets_ t) (dir_ t)
    (<[h := b]> (buckets_ t)).

(** The split step of [Insert] (the body of [if (dir_[index]->IsFull())]). *)
Definition split (t : Table) (key : K) (b : Bucket) : option Table :=
  let local_depth := depth_ b in
  let '(gd, dir) :=
    if decide (local_depth = global_depth_ t)
    then (global_depth_ t + 1, dir_ t ++ dir_ t)
    else (global_depth_ t, dir_ t) in
  let h0 := length (buckets_ t) in
  let h1 := S (length (buckets_ t)) in
  local_mask ← shl1 local_depth;
  let '(b0, b1) :=
    redistribute (list_ b) local_mask
      (mkBucket (bucket_size_ t) (local_depth + 1) [])
      (mkBucket (bucket_size_ t) (local_depth + 1) []) in
  dir' ← rewire (length dir) (Z.land (hash key) (local_mask - 1)) local_mask h0 h1 dir;
  Some (mkTable gd (bucket_size_ t) (num_buckets_ t + 1) dir' (buckets_ t ++ [b0; b1])).

Definition Insert (t : Table) (key : K) (value : V) : option Table :=
  index ← IndexOf t key;
  '(h, b) ← bucket_at t index;
  match Bucket_Find b key with
  | Some _ => Some t
  | None =>
      if IsFull b then
        t1 ← split t key b;
        index' ← IndexOf t1 key;
        '(h', b') ← bucket_at t1 index';
        Some (store_bucket t1 h' (Bucket_Insert b' key value).1)
      else Some (store_bucket t h (Bucket_Insert b key value).1)
  end.

(** ** Well-formed tables: what the code relies on to stay defined. *)

Record wf (t : Table) : Prop := {
  wf_depth : 0 ≤ global_depth_ t ≤ 30;
  wf_dir_len : Z.of_nat (length (dir_ t)) = 2 ^ global_depth_ t;
  wf_handles : Forall (λ h, ∃ b, buckets_ t !! h = Some b ∧ 0 ≤ depth_ b ≤ global_depth_ t) (dir_ t)
}.

(** ** The directory invariant

    For every slot [i] and the bucket [b] it refers to: the bucket has the
    table's capacity and holds at most that many pairs, with distinct keys;
    every key of the bucket agrees with [i] on the low [depth_ b] bits of
    its hash; and the slots that refer to the same bucket are exactly those
    that agree with [i] on these bits. *)
Definition slot_ok (t : Table) (i : Z) (h : nat) (b : Bucket) : Prop :=
  size_ b = bucket_size_ t
  ∧ (length (list_ b) ≤ size_ b)%nat
  ∧ NoDup (list_ b).*1
  ∧ Forall (λ kv, hash kv.1 mod 2 ^ depth_ b = i mod 2 ^ depth_ b) (list_ b)
  ∧ ∀ j, 0 ≤ j < 2 ^ global_depth_ t →
      (at_index (dir_ t) j = Some h ↔ j mod 2 ^ depth_ b = i mod 2 ^ depth_ b).

(** The two buckets a split makes of [b]: the pairs whose hash has the bit
    [depth_ b] clear, and those whose hash has it set, each in the order of
    [b]. *)
Definition split_half (t : Table) (b : Bucket) (high : bool) : Bucket :=
  mkBucket (bucket_size_ t) (depth_ b + 1)
    (filter (λ kv, Z.testbit (hash kv.1) (depth_ b) = high) (list_ b)).

Record inv (t : Table) : Prop := {
  inv_wf : wf t;
  inv_slots : ∀ i h b, bucket_at t i = Some (h, b) → slot_ok t i h b
}.

(** The buckets the directory refers to. *)
Definition referenced (t : Table) : gset nat := list_to_set (dir_ t).

(** ** Sequences of calls

    The calls of a client that change the table, run one after the other;
    [None] when one of them has undefined behaviour. *)
Inductive Call :=
  | CallInsert (key : K) (value : V)
  | CallRemove (key : K).

Definition call (t : Table) (c : Call) : option Table :=
  match c with
  | CallInsert key value => Insert t key value
  | CallRemove key => fst <$> Remove t key
  end.

Fixpoint run (t : Table) (cs : list Call) : option Table :=
  match cs with
  | [] => Some t
  | c :: cs' => t' ← call t c; run t' cs'
  end.

End table.
End ExtendibleHashTable.


(** ** Concrete tables over [int] keys and values *)

Module TableExamples.
Import ExtendibleHashTable.

Definition IntTable := Table (K:=Z) (V:=Z).

Definition insert (key value : Z) (t : IntTable) : option IntTable :=
  Insert hash_int t key value.

(** Scenario S4: [bucket_size = 2], the keys [0] and [4] stored; the one
    bucket is full and [global_depth = 0]. *)
Definition s4_full : IntTable :=
  default (new_table 2) (insert 0 100 (new_table 2) ≫= insert 4 104).

(** The third insertion of the scenario, key [8]. *)
Definition s4_third : IntTable := default s4_full (insert 8 108 s4_full).

(** A table holding the key [1] with value [10]. *)
Definition one_key : IntTable := default (new_table 2) (insert 1 10 (new_table 2)).

(** A mixed sequence of calls on a table with [bucket_size = 2], and the
    table it leads to. *)
Definition table_calls : list (Call (K:=Z) (V:=Z)) :=
  [CallInsert 0 100; CallInsert 4 104; CallInsert 1 101; CallInsert 3 103;
   CallInsert 5 105; CallRemove 4; CallInsert 2 102; CallInsert 0 200].

Definition mixed_table : IntTable :=
  default (new_table 2) (run hash_int (new_table 2) table_calls).

(** [s4_full] after inserting the key [1], which splits the one bucket. *)
Definition s4_with_1 : IntTable := default s4_full (insert 1 101 s4_full).

(** [s4_full] after removing the key [4]. *)
Definition s4_without_4 : IntTable :=
  default s4_full (fst <$> Remove hash_int s4_full 4).

End TableExamples.

(* ===================================================================== *)
(** * LRU-K replacer *)
(* ===================================================================== *)

Module LRUKReplacer.

(** [pos_] is an iterator into one of the two lists; a frame id occurs at
    most once in a list, so the iterator is the list it points into and the
    frame id itself.  A default-constructed iterator points nowhere. *)
Inductive Pos := PosNone | PosList | PosKList.

#[global] Instance Pos_eq_dec : EqDecision Pos.
Proof. solve_decision. Defined.

Record Entry := mkEntry {
  count_ : Z;            (* [size_t count_] *)
  evictable_ : bool;
  pos_ : Pos
}.

Record Replacer := mkReplacer {
  entries_ : gmap Z Entry;     (* [std::unordered_map<frame_id_t, Entry>] *)
  list_ : list Z;              (* history list, head first *)
  klist_ : list Z;             (* cache list, head first *)
  curr_size_ : Z;              (* [size_t curr_size_] *)
  replacer_size_ : Z;
  k_ : Z                       (* [size_t k_] *)
}.

Section replacer.
(** The struct [Entry] is declared in the header, which is not part of the
    sources at hand; the initial value of its [evictable_] member is a
    parameter of the model. *)
Variable evictable_init : bool.

Definition default_entry : Entry := mkEntry 0 evictable_init PosNone.

Definition new_replacer (num_frames k : Z) : Replacer :=
  mkReplacer ∅ [] [] 0 num_frames k.

(** [entries_[f]]: inserts a default entry when [f] has none. *)
Definition index_entry (es : gmap Z Entry) (f : Z) : gmap Z Entry * Entry :=
  match es !! f with
  | Some e => (es, e)
  | None => (<[f := default_entry]> es, default_entry)
  end.

(** [l.erase(it)] for the node of frame [f]: undefined when [l] has none. *)
Fixpoint erase (l : list Z) (f : Z) : option (list Z) :=
  match l with
  | [] => None
  | x :: l' => if decide (x = f) then Some l' else (λ r, x :: r) <$> erase l' f
  end.

(** [l.erase(e.pos_)] where [l] is the list named [which]: undefined when
    the iterator points into the other list or nowhere. *)
Definition erase_at (which : Pos) (e : Entry) (l : list Z) (f : Z) : option (list Z) :=
  if decide (pos_ e = which) then erase l f else None.

(** One scan loop of [Evict]. *)
Fixpoint scan (es : gmap Z Entry) (l : list Z) : gmap Z Entry * option Z :=
  match l with
  | [] => (es, None)
  | f :: l' =>
      let '(es', e) := index_entry es f in
      if evictable_ e then (es', Some f) else scan es' l'
  end.

Definition Evict (r : Replacer) : option (Replacer * option Z) :=
  let '(es1, v1) := scan (entries_ r) (list_ r) in
  match v1 with
  | Some f =>
      l' ← erase (list_ r) f;
      Some (mkReplacer (delete f es1) l' (klist_ r) (wrap64 (curr_size_ r - 1))
              (replacer_size_ r) (k_ r), Some f)
  | None =>
      let '(es2, v2) := scan es1 (klist_ r) in
      match v2 with
      | Some f =>
          kl' ← erase (klist_ r) f;
          Some (mkReplacer (delete f es2) (list_ r) kl' (wrap64 (curr_size_ r - 1))
                  (replacer_size_ r) (k_ r), Some f)
      | None =>
          Some (mkReplacer es2 (list_ r) (klist_ r) (curr_size_ r)
                  (replacer_size_ r) (k_ r), None)
      end
  end.

Definition RecordAccess (r : Replacer) (f : Z) : option Replacer :=
  let '(es, e) := index_entry (entries_ r) f in
  let count := wrap64 (count_ e + 1) in
  if decide (count = 1) then
    Some (mkReplacer (<[f := mkEntry count (evictable_ e) PosList]> es)
            (list_ r ++ [f]) (klist_ r) (wrap64 (curr_size_ r + 1))
            (replacer_size_ r) (k_ r))
  else if decide (count = k_ r) then
    l' ← erase_at PosList e (list_ r) f;
    Some (mkReplacer (<[f := mkEntry count (evictable_ e) PosKList]> es)
            l' (klist_ r ++ [f]) (curr_size_ r) (replacer_size_ r) (k_ r))
  else if decide (count > k_ r) then
    kl' ← erase_at PosKList e (klist_ r) f;
    Some (mkReplacer (<[f := mkEntry count (evictable_ e) PosKList]> es)
            (list_ r) (kl' ++ [f]) (curr_size_ r) (replacer_size_ r) (k_ r))
  else
    Some (mkReplacer (<[f := mkEntry count (evictable_ e) (pos_ e)]> es)
            (list_ r) (klist_ r) (curr_size_ r) (replacer_size_ r) (k_ r)).

Definition SetEvictable (r : Replacer) (f : Z) (set_evictable : bool) : Replacer :=
  match entries_ r !! f with
  | None => r
  | Some e =>
      let size' :=
        if evictable_ e && negb set_evictable then wrap64 (curr_size_ r - 1)
        else if negb (evictable_ e) && set_evictable then wrap64 (curr_size_ r + 1)
        else curr_size_ r in
      mkReplacer (<[f := mkEntry (count_ e) set_evictable (pos_ e)]> (entries_ r))
        (list_ r) (klist_ r) size' (replacer_size_ r) (k_ r)
  end.

(** [Remove] either returns or throws [std::logic_error]. *)
Inductive RemoveResult := Removed (r : Replacer) | LogicError.

Definition Remove (r : Replacer) (f : Z) : option RemoveResult :=
  match entries_ r !! f with
  | None => Some (Removed r)
  | Some e =>
      if negb (evictable_ e) then Some LogicError
      else
        lists ← (if decide (count_ e < k_ r)
                 then l' ← erase_at PosList e (list_ r) f; Some (l', klist_ r)
                 else kl' ← erase_at PosKList e (klist_ r) f; Some (list_ r, kl'));
        Some (Removed (mkReplacer (delete f (entries_ r)) lists.1 lists.2
                         (wrap64 (curr_size_ r - 1)) (replacer_size_ r) (k_ r)))
  end.

Definition Size (r : Replacer) : Z := curr_size_ r.

(** ** Sequences of calls

    A [Remove] that throws leaves the replacer as it was (the exception is
    raised before anything is changed); an [Evict] that finds no victim
    returns false. *)
Inductive Call :=
  | CallRecordAccess (frame_id : Z)
  | CallSetEvictable (frame_id : Z) (set_evictable : bool)
  | CallEvict
  | CallRemove (frame_id : Z).

Definition call (r : Replacer) (c : Call) : option Replacer :=
  match c with
  | CallRecordAccess f => RecordAccess r f
  | CallSetEvictable f b => Some (SetEvictable r f b)
  | CallEvict => fst <$> Evict r
  | CallRemove f =>
      res ← Remove r f;
      Some (match res with Removed r' => r' | LogicError => r end)
  end.

Fixpoint run (cs : list Call) (r : Replacer) : option Replacer :=
  match cs with
  | [] => Some r
  | c :: cs' => r' ← call r c; run cs' r'
  end.

End replacer.

(** ** Vocabulary of the specification *)

(** A frame is tracked when it has an entry; it is evictable when the
    entry's flag is set. *)
Definition is_evictable (r : Replacer) (f : Z) : bool :=
  match entries_ r !! f with
  | Some e => evictable_ e
  | None => false
  end.

Definition access_count (r : Replacer) (f : Z) : Z :=
  match entries_ r !! f with
  | Some e => count_ e
  | None => 0
  end.

(** The first evictable frame of a list scanned head to tail. *)
Definition first_evictable (r : Replacer) (l : list Z) : option Z :=
  List.find (is_evictable r) l.

(** The victim the specification describes: history list first, cache list
    only when the history list has no evictable frame. *)
Definition victim (r : Replacer) : option Z :=
  match first_evictable r (list_ r) with
  | Some f => Some f
  | None => first_evictable r (klist_ r)
  end.

(** The number of tracked frames whose evictable flag is set. *)
Definition ev_size (es : gmap Z Entry) : Z :=
  Z.of_nat (size (filter (λ fe : Z * Entry, evictable_ fe.2 = true) es)).

(** The share of one entry in that number. *)
Definition ev_weight (o : option Entry) : Z :=
  match o with
  | Some e => if evictable_ e then 1 else 0
  | None => 0
  end.

Definition evictable_count (r : Replacer) : Z := ev_size (entries_ r).

(** The replacer's invariant: every tracked frame sits in exactly one of
    the two lists, the one its iterator points into; a frame of the cache
    list has at least [k] accesses, a frame of the history list has fewer
    (or exactly one, which is where a first access puts it whatever [k]);
    the counters are in the range of [size_t]. *)
Definition history_ok (k : Z) (es : gmap Z Entry) (f : Z) : Prop :=
  ∃ e, es !! f = Some e ∧ pos_ e = PosList ∧ (count_ e = 1 ∨ 1 ≤ count_ e < k).

Definition cache_ok (k : Z) (es : gmap Z Entry) (f : Z) : Prop :=
  ∃ e, es !! f = Some e ∧ pos_ e = PosKList ∧ 1 ≤ count_ e < 2 ^ 64 ∧ k ≤ count_ e.

Record wf (r : Replacer) : Prop := {
  wf_k : 0 ≤ k_ r < 2 ^ 64;
  wf_nodup : NoDup (list_ r ++ klist_ r);
  wf_list : Forall (history_ok (k_ r) (entries_ r)) (list_ r);
  wf_klist : Forall (cache_ok (k_ r) (entries_ r)) (klist_ r);
  wf_tracked : ∀ f, is_Some (entries_ r !! f) → f ∈ list_ r ++ klist_ r
}.

(** The state without the frame [f]: its entry erased, its list node
    unlinked, [curr_size_] decremented. *)
Definition forget (r : Replacer) (f : Z) : Replacer :=
  mkReplacer (delete f (entries_ r))
    (filter (λ g, g ≠ f) (list_ r)) (filter (λ g, g ≠ f) (klist_ r))
    (wrap64 (curr_size_ r - 1)) (replacer_size_ r) (k_ r).

(** No frame has been accessed more than [n] times. *)
Definition bounded (n : Z) (r : Replacer) : Prop := ∀ f, access_count r f ≤ n.

(** [Size()] is the number of evictable tracked frames, which is at most [n]. *)
Definition counted (n : Z) (r : Replacer) : Prop :=
  Size r = evictable_count r ∧ evictable_count r ≤ n.

(** ** Concrete replacers, [k = 2] *)

(** Frames 1 and 3 accessed once, frame 2 twice; 2 and 3 evictable. *)
Definition mixed_calls : list Call :=
  [CallRecordAccess 1; CallRecordAccess 2; CallRecordAccess 2; CallRecordAccess 3;
   CallSetEvictable 1 false; CallSetEvictable 2 true; CallSetEvictable 3 true].

Definition mixed_replacer (evictable_init : bool) : Replacer :=
  default (new_replacer 7 2) (run evictable_init mixed_calls (new_replacer 7 2)).

(** One first-time access on a new replacer. *)
Definition first_access (evictable_init : bool) : Replacer :=
  default (new_replacer 7 2) (RecordAccess evictable_init (new_replacer 7 2) 1).

(** One first-time access on a new replacer with [k = 1]. *)
Definition first_access_k1 (evictable_init : bool) : Replacer :=
  default (new_replacer 7 1) (RecordAccess evictable_init (new_replacer 7 1) 1).

End LRUKReplacer.

(* ===================================================================== *)
(** * Buffer pool manager *)
(* ===================================================================== *)

Module BufferPoolManager.

Definition INVALID_PAGE_ID : Z := -1.

Section bpm.
(** The bytes of a frame, and the frame filled with zeros. *)
Context {Data : Type}.
Variable zero_data : Data.
(** [std::hash<page_id_t>] of the page table. *)
Variable hash : Z → Z.
(** Initial [evictable_] flag of a replacer entry, see [LRUKReplacer]. *)
Variable evictable_init : bool.

Record Page := mkPage {
  page_id_ : Z;
  data_ : Data;
  pin_count_ : Z;
  is_dirty_ : bool
}.

(** The calls a buffer-pool operation makes, in the order it makes them:
    calls to the disk manager, [Page::ResetMemory] on a frame, and updates
    of the page table.  The log is an observer of the code; the code has no
    such member. *)
Inductive Event :=
  | EvWritePage (page_id : Z) (d : Data)
  | EvReadPage (page_id : Z)
  | EvResetMemory (frame_id : Z)
  | EvTableRemove (page_id : Z)
  | EvTableInsert (page_id frame_id : Z)
  | EvDeallocatePage (page_id : Z).

Record BPM := mkBPM {
  pool_size_ : Z;
  pages_ : list Page;
  page_table_ : ExtendibleHashTable.Table (K:=Z) (V:=Z);
  replacer_ : LRUKReplacer.Replacer;
  free_list_ : list Z;
  next_page_id_ : Z;
  disk_ : gmap Z Data;
  log_ : list Event
}.

(** Modelled from the spec: the disk manager is an external collaborator
    with block-granular [ReadPage] and [WritePage]; a page never written
    reads as zeros. *)
Definition disk_write (d : gmap Z Data) (page_id : Z) (bytes : Data) : gmap Z Data :=
  <[page_id := bytes]> d.

Definition disk_read (d : gmap Z Data) (page_id : Z) : Data :=
  default zero_data (d !! page_id).

(** The constructor: every frame is empty and on the free list.
    [bucket_size] is the constant [bucket_size_] of the header. *)
Definition new_bpm (pool_size : nat) (replacer_k : Z) (bucket_size : nat) : BPM :=
  mkBPM (Z.of_nat pool_size)
    (replicate pool_size (mkPage INVALID_PAGE_ID zero_data 0 false))
    (ExtendibleHashTable.new_table bucket_size)
    (LRUKReplacer.new_replacer (Z.of_nat pool_size) replacer_k)
    (Z.of_nat <$> seq 0 pool_size) 0 ∅ [].

Definition set_pages (s : BPM) (ps : list Page) : BPM :=
  mkBPM (pool_size_ s) ps (page_table_ s) (replacer_ s) (free_list_ s)
    (next_page_id_ s) (disk_ s) (log_ s).

Definition set_page_table (s : BPM) (t : ExtendibleHashTable.Table) : BPM :=
  mkBPM (pool_size_ s) (pages_ s) t (replacer_ s) (free_list_ s)
    (next_page_id_ s) (disk_ s) (log_ s).

Definition set_replacer (s : BPM) (r : LRUKReplacer.Replacer) : BPM :=
  mkBPM (pool_size_ s) (pages_ s) (page_table_ s) r (free_list_ s)
    (next_page_id_ s) (disk_ s) (log_ s).

Definition set_free_list (s : BPM) (l : list Z) : BPM :=
  mkBPM (pool_size_ s) (pages_ s) (page_table_ s) (replacer_ s) l
    (next_page_id_ s) (disk_ s) (log_ s).

Definition set_next_page_id (s : BPM) (n : Z) : BPM :=
  mkBPM (pool_size_ s) (pages_ s) (page_table_ s) (replacer_ s) (free_list_ s)
    n (disk_ s) (log_ s).

Definition emit (s : BPM) (e : Event) : BPM :=
  mkBPM (pool_size_ s) (pages_ s) (page_table_ s) (replacer_ s) (free_list_ s)
    (next_page_id_ s) (disk_ s) (log_ s ++ [e]).

(** [disk_manager_->WritePage(page_id, data)] *)
Definition WritePage (s : BPM) (page_id : Z) (bytes : Data) : BPM :=
  mkBPM (pool_size_ s) (pages_ s) (page_table_ s) (replacer_ s) (free_list_ s)
    (next_page_id_ s) (disk_write (disk_ s) page_id bytes)
    (log_ s ++ [EvWritePage page_id bytes]).

(** [pages_[frame_id] = p] *)
Definition store_page (s : BPM) (frame_id : Z) (p : Page) : option BPM :=
  ps ← set_index (pages_ s) frame_id p;
  Some (set_pages s ps).

Definition table_remove (s : BPM) (page_id : Z) : option BPM :=
  '(t, _) ← ExtendibleHashTable.Remove hash (page_table_ s) page_id;
  Some (emit (set_page_table s t) (EvTableRemove page_id)).

Definition table_insert (s : BPM) (page_id frame_id : Z) : option BPM :=
  t ← ExtendibleHashTable.Insert hash (page_table_ s) page_id frame_id;
  Some (emit (set_page_table s t) (EvTableInsert page_id frame_id)).

(** The eviction branch shared by [NewPage] and [FetchPage]: write the
    victim back when it is dirty, clear its memory, drop its directory
    entry. *)
Definition recycle (s : BPM) (frame_id : Z) : option BPM :=
  page ← at_index (pages_ s) frame_id;
  let '(s1, page1) :=
    if is_dirty_ page
    then (WritePage s (page_id_ page) (data_ page),
          mkPage (page_id_ page) (data_ page) (pin_count_ page) false)
    else (s, page) in
  let page2 := mkPage (page_id_ page1) zero_data (pin_count_ page1) (is_dirty_ page1) in
  s2 ← store_page (emit s1 (EvResetMemory frame_id)) frame_id page2;
  table_remove s2 (page_id_ page2).

(** Step 1 of [NewPage] and step 2 of [FetchPage]: a frame from the free
    list, else a victim of the replacer, else none ([return nullptr]). *)
Definition acquire_frame (s : BPM) : option (BPM * option Z) :=
  match free_list_ s with
  | frame_id :: rest => Some (set_free_list s rest, Some frame_id)
  | [] =>
      '(r, v) ← LRUKReplacer.Evict evictable_init (replacer_ s);
      match v with
      | Some frame_id =>
          s' ← recycle (set_replacer s r) frame_id;
          Some (s', Some frame_id)
      | None => Some (set_replacer s r, None)
      end
  end.

(** [replacer_->RecordAccess(f); replacer_->SetEvictable(f, false)] *)
Definition touch (s : BPM) (frame_id : Z) : option BPM :=
  r ← LRUKReplacer.RecordAccess evictable_init (replacer_ s) frame_id;
  Some (set_replacer s (LRUKReplacer.SetEvictable r frame_id false)).

(** [NewPage] returns the new page id and the frame ([Page *]), or none. *)
Definition NewPage (s : BPM) : option (BPM * option (Z * Z)) :=
  '(s1, fr) ← acquire_frame s;
  match fr with
  | None => Some (s1, None)
  | Some frame_id =>
      let page_id := next_page_id_ s1 in
      let s2 := set_next_page_id s1 (next_page_id_ s1 + 1) in
      page ← at_index (pages_ s2) frame_id;
      s3 ← store_page s2 frame_id
              (mkPage page_id (data_ page) (pin_count_ page + 1) (is_dirty_ page));
      s4 ← touch s3 frame_id;
      s5 ← table_insert s4 page_id frame_id;
      Some (s5, Some (page_id, frame_id))
  end.

Definition FetchPage (s : BPM) (page_id : Z) : option (BPM * option Z) :=
  found ← ExtendibleHashTable.Find hash (page_table_ s) page_id;
  match found with
  | Some frame_id =>
      page ← at_index (pages_ s) frame_id;
      s1 ← store_page s frame_id
              (mkPage (page_id_ page) (data_ page) (pin_count_ page + 1) (is_dirty_ page));
      s2 ← touch s1 frame_id;
      Some (s2, Some frame_id)
  | None =>
      '(s1, fr) ← acquire_frame s;
      match fr with
      | None => Some (s1, None)
      | Some frame_id =>
          page ← at_index (pages_ s1) frame_id;
          s2 ← store_page s1 frame_id
                  (mkPage page_id (data_ page) (pin_count_ page + 1) (is_dirty_ page));
          s3 ← touch s2 frame_id;
          page' ← at_index (pages_ s3) frame_id;
          s4 ← store_page (emit s3 (EvReadPage page_id)) frame_id
                  (mkPage (page_id_ page') (disk_read (disk_ s3) page_id)
                     (pin_count_ page') (is_dirty_ page'));
          s5 ← table_insert s4 page_id frame_id;
          Some (s5, Some frame_id)
      end
  end.

Definition UnpinPage (s : BPM) (page_id : Z) (is_dirty : bool) : option (BPM * bool) :=
  found ← ExtendibleHashTable.Find hash (page_table_ s) page_id;
  match found with
  | Some frame_id =>
      page ← at_index (pages_ s) frame_id;
      if decide (pin_count_ page ≤ 0) then Some (s, false)
      else
        let page1 :=
          mkPage (page_id_ page) (data_ page) (pin_count_ page - 1) (is_dirty_ page) in
        s1 ← store_page s frame_id page1;
        if decide (pin_count_ page1 = 0) then
          let s2 := set_replacer s1 (LRUKReplacer.SetEvictable (replacer_ s1) frame_id true) in
          s3 ← store_page s2 frame_id
                  (mkPage (page_id_ page1) (data_ page1) (pin_count_ page1)
                     (is_dirty_ page1 || is_dirty));
          Some (s3, true)
        else Some (s1, true)
  | None => Some (s, false)
  end.

Definition FlushPage (s : BPM) (page_id : Z) : option (BPM * bool) :=
  found ← ExtendibleHashTable.Find hash (page_table_ s) page_id;
  match found with
  | Some frame_id =>
      page ← at_index (pages_ s) frame_id;
      s1 ← store_page (WritePage s page_id (data_ page)) frame_id
              (mkPage (page_id_ page) (data_ page) (pin_count_ page) false);
      Some (s1, true)
  | None => Some (s, false)
  end.

(** The loop of [FlushAllPages] over the frames [i, i+1, ...]. *)
Fixpoint flush_from (s : BPM) (i : Z) (n : nat) : option BPM :=
  match n with
  | O => Some s
  | S n' =>
      page ← at_index (pages_ s) i;
      s1 ← (if decide (page_id_ page ≠ INVALID_PAGE_ID) then
              store_page (WritePage s (page_id_ page) (data_ page)) i
                (mkPage (page_id_ page) (data_ page) (pin_count_ page) false)
            else Some s);
      flush_from s1 (i + 1) n'
  end.

Definition FlushAllPages (s : BPM) : option BPM :=
  flush_from s 0 (Z.to_nat (pool_size_ s)).

(** [DeletePage].  The early return is taken when the page {e is} found;
    past it [frame_id] still has its initial value [-1]. *)
Definition DeletePage (s : BPM) (page_id : Z) : option (BPM * bool) :=
  found ← ExtendibleHashTable.Find hash (page_table_ s) page_id;
  match found with
  | Some _ => Some (s, true)
  | None =>
      let frame_id := -1 in
      page ← at_index (pages_ s) frame_id;
      if decide (pin_count_ page ≠ 0) then Some (s, false)
      else
        let '(s1, page1) :=
          if is_dirty_ page
          then (WritePage s page_id (data_ page),
                mkPage (page_id_ page) (data_ page) (pin_count_ page) false)
          else (s, page) in
        s2 ← table_remove s1 (page_id_ page1);
        let s3 := set_free_list s2 (free_list_ s2 ++ [frame_id]) in
        s4 ← store_page (emit s3 (EvResetMemory frame_id)) frame_id
                (mkPage INVALID_PAGE_ID zero_data (pin_count_ page1) (is_dirty_ page1));
        Some (emit s4 (EvDeallocatePage page_id), true)
  end.

(** The page a frame holds, as the callers of [FetchPage] see it. *)
Definition frame_of (s : BPM) (page_id : Z) : option Page :=
  found ← ExtendibleHashTable.Find hash (page_table_ s) page_id;
  frame_id ← found;
  at_index (pages_ s) frame_id.

(** What the eviction branch has to do for a victim page: a dirty victim
    is written under its own page id, a clean one is not written. *)
Definition writeback_events (p : Page) : list Event :=
  if is_dirty_ p then [EvWritePage (page_id_ p) (data_ p)] else [].

Definition writeback_disk (p : Page) (d : gmap Z Data) : gmap Z Data :=
  if is_dirty_ p then disk_write d (page_id_ p) (data_ p) else d.

(** A frame after a flush: the dirty flag is cleared when the frame holds
    a page. *)
Definition flushed (p : Page) : Page :=
  if decide (page_id_ p ≠ INVALID_PAGE_ID)
  then mkPage (page_id_ p) (data_ p) (pin_count_ p) false
  else p.

(** The frames that hold a page, in frame order. *)
Definition occupied (ps : list Page) : list Page :=
  filter (λ p, page_id_ p ≠ INVALID_PAGE_ID) ps.

(** ** Sequences of calls

    The calls of a client, run one after the other; [None] when one of
    them has undefined behaviour. *)
Inductive Call :=
  | CallNewPage
  | CallFetchPage (page_id : Z)
  | CallUnpinPage (page_id : Z) (is_dirty : bool)
  | CallFlushPage (page_id : Z)
  | CallFlushAllPages
  | CallDeletePage (page_id : Z).

Definition call (s : BPM) (c : Call) : option BPM :=
  match c with
  | CallNewPage => fst <$> NewPage s
  | CallFetchPage page_id => fst <$> FetchPage s page_id
  | CallUnpinPage page_id is_dirty => fst <$> UnpinPage s page_id is_dirty
  | CallFlushPage page_id => fst <$> FlushPage s page_id
  | CallFlushAllPages => FlushAllPages s
  | CallDeletePage page_id => fst <$> DeletePage s page_id
  end.

Fixpoint run (s : BPM) (cs : list Call) : option BPM :=
  match cs with
  | [] => Some s
  | c :: cs' => s' ← call s c; run s' cs'
  end.

(** The pin counts, by frame. *)
Definition pin_counts (s : BPM) : list Z := pin_count_ <$> pages_ s.

(** Every frame the replacer may evict is unpinned. *)
Definition pins_ok (s : BPM) : Prop :=
  ∀ f c, LRUKReplacer.is_evictable (replacer_ s) f = true →
         at_index (pin_counts s) f = Some c → c = 0.

(** The invariant of the pool: the replacer's own invariant, no frame
    accessed more than [n] times, and no pinned frame evictable. *)
Definition pool_inv (n : Z) (s : BPM) : Prop :=
  LRUKReplacer.wf (replacer_ s) ∧ LRUKReplacer.bounded n (replacer_ s) ∧ pins_ok s.

End bpm.
End BufferPoolManager.

(** ** Concrete pools

    Frames hold one number for their bytes; [std::hash<int>] is the
    identity of libstdc++; replacer entries start non-evictable, as the
    specification has it; [k = 2] and buckets of four. *)

Module PoolExamples.
Import BufferPoolManager.

Definition Pool := BPM (Data:=Z).

Definition new_pool (pool_size : nat) : Pool := new_bpm 0 pool_size 2 4.

Definition new_page (s : Pool) : option Pool := fst <$> NewPage 0 hash_int false s.
Definition fetch_page (page_id : Z) (s : Pool) : option Pool :=
  fst <$> FetchPage 0 hash_int false s page_id.
Definition unpin_page (page_id : Z) (is_dirty : bool) (s : Pool) : option Pool :=
  fst <$> UnpinPage hash_int s page_id is_dirty.

(** Page 0 created and still pinned by its creator. *)
Definition pinned_once : Pool := default (new_pool 2) (new_page (new_pool 2)).

(** Page 0 created, then fetched by a second holder: pin count 2. *)
Definition pinned_twice : Pool := default (new_pool 2) (fetch_page 0 pinned_once).

(** Page 0 created and released with the dirty hint: pin count 0, dirty. *)
Definition released_dirty : Pool := default (new_pool 2) (unpin_page 0 true pinned_once).

(** The holder of a pin writes [bytes] into the frame of [page_id]. *)
Definition write_bytes (page_id : Z) (bytes : Z) (s : Pool) : option Pool :=
  found ← ExtendibleHashTable.Find hash_int (page_table_ s) page_id;
  frame_id ← found;
  page ← at_index (pages_ s) frame_id;
  store_page s frame_id (mkPage (page_id_ page) bytes (pin_count_ page) (is_dirty_ page)).

(** Scenario S2: a pool of one frame; page 0 is created, written to, and
    unpinned with the dirty hint. *)
Definition s2_pool : Pool :=
  default (new_pool 1)
    (s1 ← new_page (new_pool 1); s2 ← write_bytes 0 42 s1; unpin_page 0 true s2).

(** The replacer of that pool once its only frame has been evicted. *)
Definition s2_replacer_evicted : LRUKReplacer.Replacer :=
  default (replacer_ s2_pool) (fst <$> LRUKReplacer.Evict false (replacer_ s2_pool)).

(** A pool of one frame whose page is pinned: nothing can be evicted. *)
Definition full_pool : Pool := default (new_pool 1) (new_page (new_pool 1)).

(** A client's calls on a pool of two frames, and the pool they lead to. *)
Definition pool_calls : list Call :=
  [CallNewPage; CallNewPage; CallUnpinPage 0 true; CallFetchPage 1;
   CallUnpinPage 1 false; CallNewPage; CallFlushAllPages; CallUnpinPage 1 false].

Definition pool_after_calls : Pool :=
  default (new_pool 2) (run 0 hash_int false (new_pool 2) pool_calls).

End PoolExamples.

(* ===================================================================== *)
(** * B+ tree pages and the tree driver *)
(* ===================================================================== *)

Module BPlusTree.

Definition INVALID_PAGE_ID : Z := -1.
Definition HEADER_PAGE_ID : Z := 0.

Inductive IndexPageType := INVALID_INDEX_PAGE | LEAF_PAGE | INTERNAL_PAGE.

#[global] Instance IndexPageType_eq_dec : EqDecision IndexPageType.
Proof. solve_decision. Defined.

(** Modelled from the spec: the common page header (the class
    [BPlusTreePage] is not part of the sources at hand): page type, size,
    max size, parent page id and page id, with their getters and setters;
    [IsRootPage] is "no parent" and the minimum size is
    [ceil(max_size / 2)]. *)
Record Header := mkHeader {
  page_type_ : IndexPageType;
  size_ : Z;
  max_size_ : Z;
  parent_page_id_ : Z;
  page_id_ : Z
}.

Definition GetMinSize (h : Header) : Z := (max_size_ h + 1) `quot` 2.
Definition IsLeafPage (h : Header) : bool := bool_decide (page_type_ h = LEAF_PAGE).
Definition IsRootPage (h : Header) : bool := bool_decide (parent_page_id_ h = INVALID_PAGE_ID).
Definition SetSize (h : Header) (n : Z) : Header :=
  mkHeader (page_type_ h) n (max_size_ h) (parent_page_id_ h) (page_id_ h).
Definition IncreaseSize (h : Header) (n : Z) : Header := SetSize h (size_ h + n).
Definition SetParentPageId (h : Header) (p : Z) : Header :=
  mkHeader (page_type_ h) (size_ h) (max_size_ h) p (page_id_ h).

Section pages.
Context {KeyType ValueType : Type}.
(** [KeyComparator]: negative, zero or positive. *)
Variable comparator : KeyType → KeyType → Z.
(** A slot of a page whose memory is all zeros. *)
Variable zero_key : KeyType.
Variable zero_value : ValueType.
(** [MappingType{}], the value-initialised pair. *)
Variable default_pair : KeyType * ValueType.

(** [array_] is the rest of the page after the header.  Slot [i] of a map
    is the pair written there last; a slot never written holds zeros.  The
    slots at and beyond [size_] keep what was written to them.  The array is
    not bounded here: the maximum sizes are taken to fit the page. *)
Definition slot {V} (zero : KeyType * V) (a : gmap Z (KeyType * V)) (i : Z) : KeyType * V :=
  default zero (a !! i).

(** The loop [for (i = from; i > to; --i) array_[i] = array_[i-1]],
    [n] iterations. *)
Fixpoint shift_right {V} (zero : KeyType * V) (n : nat) (i : Z) (a : gmap Z (KeyType * V))
  : gmap Z (KeyType * V) :=
  match n with
  | O => a
  | S n' => shift_right zero n' (i - 1) (<[i := slot zero a (i - 1)]> a)
  end.

(** [std::copy(items, items + n, array_ + at)] from the slots [from...] of
    another page. *)
Fixpoint copy_slots {V} (zero : KeyType * V) (n : nat) (src : gmap Z (KeyType * V))
  (from : Z) (dst : gmap Z (KeyType * V)) (at_ : Z) : gmap Z (KeyType * V) :=
  match n with
  | O => dst
  | S n' => copy_slots zero n' src (from + 1) (<[at_ := slot zero src from]> dst) (at_ + 1)
  end.

(** ** Leaf page *)

Record LeafPage := mkLeaf {
  leaf_header : Header;
  next_page_id_ : Z;
  leaf_array : gmap Z (KeyType * ValueType)
}.

Definition leaf_zero : KeyType * ValueType := (zero_key, zero_value).

(** [Init] on the memory of a page; the slots keep their content. *)
Definition Leaf_Init (a : gmap Z (KeyType * ValueType)) (page_id parent_id max_size : Z)
  : LeafPage :=
  mkLeaf (mkHeader LEAF_PAGE 0 max_size parent_id page_id) INVALID_PAGE_ID a.

Definition Leaf_KeyAt (p : LeafPage) (index : Z) : KeyType :=
  (slot leaf_zero (leaf_array p) index).1.

Definition Leaf_ValueAt (p : LeafPage) (index : Z) : ValueType :=
  (slot leaf_zero (leaf_array p) index).2.

(** The binary search of [KeyIndex]; [fuel] bounds the iterations. *)
Fixpoint Leaf_KeyIndex_loop (fuel : nat) (p : LeafPage) (key : KeyType) (l r ret : Z)
  : option Z :=
  if decide (l ≤ r) then
    match fuel with
    | O => None
    | S fuel' =>
        let mid := (r - l) `quot` 2 + l in
        if decide (comparator (Leaf_KeyAt p mid) key ≤ 0)
        then Leaf_KeyIndex_loop fuel' p key (mid + 1) r mid
        else Leaf_KeyIndex_loop fuel' p key l (mid - 1) ret
    end
  else Some ret.

Definition Leaf_KeyIndex (p : LeafPage) (key : KeyType) : option Z :=
  Leaf_KeyIndex_loop (Z.to_nat (size_ (leaf_header p))) p key 0 (size_ (leaf_header p) - 1) 0.

(** [Insert]: returns the page and the size it reports.  The slot at the
    insertion index receives [MappingType{}]. *)
Definition Leaf_Insert (p : LeafPage) (key : KeyType) (value : ValueType)
  : option (LeafPage * Z) :=
  insert_index ← Leaf_KeyIndex p key;
  if decide (comparator (Leaf_KeyAt p insert_index) key = 0)
  then Some (p, size_ (leaf_header p))
  else
    let n := size_ (leaf_header p) in
    let a := shift_right leaf_zero (Z.to_nat (n - insert_index)) n (leaf_array p) in
    let a' := <[insert_index := default_pair]> a in
    let p' := mkLeaf (IncreaseSize (leaf_header p) 1) (next_page_id_ p) a' in
    Some (p', size_ (leaf_header p')).

Definition Leaf_Lookup (p : LeafPage) (key : KeyType) : option (option ValueType) :=
  index ← Leaf_KeyIndex p key;
  if decide (index = size_ (leaf_header p)) then Some None
  else if decide (comparator (Leaf_KeyAt p index) key ≠ 0) then Some None
  else Some (Some (Leaf_ValueAt p index)).

Definition Leaf_CopyNFrom (p : LeafPage) (src : gmap Z (KeyType * ValueType)) (from n : Z)
  : LeafPage :=
  mkLeaf (IncreaseSize (leaf_header p) n) (next_page_id_ p)
    (copy_slots leaf_zero (Z.to_nat n) src from (leaf_array p) (size_ (leaf_header p))).

(** [MoveHalfTo]: the sender and the recipient afterwards. *)
Definition Leaf_MoveHalfTo (p recipient : LeafPage) : LeafPage * LeafPage :=
  let move_num := size_ (leaf_header p) - GetMinSize (leaf_header p) in
  let recipient' := Leaf_CopyNFrom recipient (leaf_array p) (GetMinSize (leaf_header p)) move_num in
  (mkLeaf (IncreaseSize (leaf_header p) (- move_num)) (next_page_id_ p) (leaf_array p),
   recipient').

Definition Leaf_SetNextPageId (p : LeafPage) (n : Z) : LeafPage :=
  mkLeaf (leaf_header p) n (leaf_array p).

Definition Leaf_SetParentPageId (p : LeafPage) (n : Z) : LeafPage :=
  mkLeaf (SetParentPageId (leaf_header p) n) (next_page_id_ p) (leaf_array p).

(** ** Internal page: the values are page ids *)

Record InternalPage := mkInternal {
  internal_header : Header;
  internal_array : gmap Z (KeyType * Z)
}.

Definition internal_zero : KeyType * Z := (zero_key, 0).

Definition Internal_Init (a : gmap Z (KeyType * Z)) (page_id parent_id max_size : Z)
  : InternalPage :=
  mkInternal (mkHeader INTERNAL_PAGE 0 max_size parent_id page_id) a.

Definition Internal_KeyAt (p : InternalPage) (index : Z) : KeyType :=
  (slot internal_zero (internal_array p) index).1.

Definition Internal_ValueAt (p : InternalPage) (index : Z) : Z :=
  (slot internal_zero (internal_array p) index).2.

Fixpoint Internal_Lookup_loop (fuel : nat) (p : InternalPage) (key : KeyType) (l r ret : Z)
  : option Z :=
  if decide (l ≤ r) then
    match fuel with
    | O => None
    | S fuel' =>
        let mid := (r - l) `quot` 2 + l in
        if decide (comparator (Internal_KeyAt p mid) key ≤ 0)
        then Internal_Lookup_loop fuel' p key (mid + 1) r mid
        else Internal_Lookup_loop fuel' p key l (mid - 1) ret
    end
  else Some ret.

Definition Internal_Lookup (p : InternalPage) (key : KeyType) : option Z :=
  ret ← Internal_Lookup_loop (Z.to_nat (size_ (internal_header p))) p key
           1 (size_ (internal_header p) - 1) 0;
  Some (Internal_ValueAt p ret).

Definition PopulateNewRoot (p : InternalPage) (old_value : Z) (key : KeyType) (new_value : Z)
  : InternalPage :=
  let a0 := <[0 := ((slot internal_zero (internal_array p) 0).1, old_value)]> (internal_array p) in
  mkInternal (SetSize (internal_header p) 2) (<[1 := (key, new_value)]> a0).

(** The scan of [ValueIndex] over the slots [i, i+1, ...], [n] of them. *)
Fixpoint ValueIndex_from (n : nat) (p : InternalPage) (value : Z) (i : Z) : Z :=
  match n with
  | O => -1
  | S n' =>
      if decide (Internal_ValueAt p i = value) then i
      else ValueIndex_from n' p value (i + 1)
  end.

Definition ValueIndex (p : InternalPage) (value : Z) : Z :=
  ValueIndex_from (Z.to_nat (size_ (internal_header p))) p value 0.

Definition InsertAfterNode (p : InternalPage) (old_value : Z) (key : KeyType) (new_value : Z)
  : InternalPage :=
  let insert_index := ValueIndex p old_value + 1 in
  let n := size_ (internal_header p) in
  let a := shift_right internal_zero (Z.to_nat (n - insert_index)) n (internal_array p) in
  mkInternal (IncreaseSize (internal_header p) 1) (<[insert_index := (key, new_value)]> a).

(** Modelled from the spec: [MoveHalfTo] of an internal page is called by
    [Split] and is not part of the sources at hand; the specification has
    [Split] move the upper [size - min_size] entries to the new node,
    keeping their order. *)
Definition Internal_MoveHalfTo (p recipient : InternalPage) : InternalPage * InternalPage :=
  let move_num := size_ (internal_header p) - GetMinSize (internal_header p) in
  (mkInternal (IncreaseSize (internal_header p) (- move_num)) (internal_array p),
   mkInternal (IncreaseSize (internal_header recipient) move_num)
     (copy_slots internal_zero (Z.to_nat move_num) (internal_array p)
        (GetMinSize (internal_header p)) (internal_array recipient)
        (size_ (internal_header recipient)))).

Definition Internal_SetParentPageId (p : InternalPage) (n : Z) : InternalPage :=
  mkInternal (SetParentPageId (internal_header p) n) (internal_array p).

(** ** The tree driver

    The tree reaches its pages through the buffer pool and reinterprets a
    frame's bytes as a node.  Here the pool is the store of the pages handed
    out so far: [NewPage] returns a zeroed page under the next page id,
    [FetchPage] returns the page stored under an id, and the pool never runs
    out of frames, so the pin counts play no part.  A page is a leaf or an
    internal node from its [Init] on. *)

Inductive Node := LeafNode (p : LeafPage) | InternalNode (p : InternalPage).

Definition node_header (n : Node) : Header :=
  match n with
  | LeafNode p => leaf_header p
  | InternalNode p => internal_header p
  end.

Definition node_set_parent (n : Node) (parent : Z) : Node :=
  match n with
  | LeafNode p => LeafNode (Leaf_SetParentPageId p parent)
  | InternalNode p => InternalNode (Internal_SetParentPageId p parent)
  end.

Record Tree := mkTree {
  root_page_id_ : Z;
  leaf_max_size_ : Z;
  internal_max_size_ : Z;
  store_ : gmap Z Node;
  next_page_id : Z;
  (** Modelled from the spec: the record [(index_name, root_page_id)] of
      this index on the header page. *)
  header_record : option Z
}.

Definition new_tree (leaf_max_size internal_max_size first_page_id : Z) : Tree :=
  mkTree INVALID_PAGE_ID leaf_max_size internal_max_size ∅ first_page_id None.

Definition IsEmpty (t : Tree) : bool := bool_decide (root_page_id_ t = INVALID_PAGE_ID).

Definition set_store (t : Tree) (m : gmap Z Node) : Tree :=
  mkTree (root_page_id_ t) (leaf_max_size_ t) (internal_max_size_ t) m
    (next_page_id t) (header_record t).

Definition put_page (t : Tree) (page_id : Z) (n : Node) : Tree :=
  set_store t (<[page_id := n]> (store_ t)).

(** [NewPage]: the fresh page id and the tree with the counter advanced. *)
Definition alloc_page (t : Tree) : Z * Tree :=
  (next_page_id t,
   mkTree (root_page_id_ t) (leaf_max_size_ t) (internal_max_size_ t) (store_ t)
     (next_page_id t + 1) (header_record t)).

Definition set_root (t : Tree) (root : Z) : Tree :=
  mkTree root (leaf_max_size_ t) (internal_max_size_ t) (store_ t)
    (next_page_id t) (header_record t).

(** [UpdateRootPageId]: [InsertRecord] adds the record when there is none,
    [UpdateRecord] changes an existing one. *)
Definition UpdateRootPageId (t : Tree) (insert_record : Z) : Tree :=
  let root_record :=
    if decide (insert_record ≠ 0)
    then (match header_record t with None => Some (root_page_id_ t) | Some r => Some r end)
    else (match header_record t with None => None | Some _ => Some (root_page_id_ t) end) in
  mkTree (root_page_id_ t) (leaf_max_size_ t) (internal_max_size_ t) (store_ t)
    (next_page_id t) root_record.

(** The loop of [FindLeaf].  [page] is the page fetched last and [node] the
    node under inspection; the next node is read from [page], the page of
    the round before, not from the child just fetched, so every node on the
    path is inspected twice.  [fuel] bounds the rounds: [FindLeaf] gives
    two per stored page (and two to spare), enough for any path that visits
    no page twice. *)
Fixpoint FindLeaf_loop (fuel : nat) (t : Tree) (key : KeyType) (leftMost rightMost : bool)
  (page : Z) (node : Node) : option Z :=
  match node with
  | LeafNode _ => Some page
  | InternalNode i_node =>
      match fuel with
      | O => None
      | S fuel' =>
          child_node_page_id ←
            (if leftMost then Some (Internal_ValueAt i_node 0)
             else if rightMost
                  then Some (Internal_ValueAt i_node (size_ (internal_header i_node) - 1))
                  else Internal_Lookup i_node key);
          _ ← store_ t !! child_node_page_id;
          child_node ← store_ t !! page;
          FindLeaf_loop fuel' t key leftMost rightMost child_node_page_id child_node
      end
  end.

Definition FindLeaf (t : Tree) (key : KeyType) (leftMost rightMost : bool) : option Z :=
  node ← store_ t !! root_page_id_ t;
  FindLeaf_loop (2 * size (store_ t) + 2) t key leftMost rightMost (root_page_id_ t) node.

Definition fetch_leaf (t : Tree) (page_id : Z) : option LeafPage :=
  n ← store_ t !! page_id;
  match n with LeafNode p => Some p | InternalNode _ => None end.

Definition fetch_internal (t : Tree) (page_id : Z) : option InternalPage :=
  n ← store_ t !! page_id;
  match n with InternalNode p => Some p | LeafNode _ => None end.

(** [GetValue]: the returned flag and the result vector afterwards. *)
Definition GetValue (t : Tree) (key : KeyType) (result : list ValueType)
  : option (bool * list ValueType) :=
  leaf_page ← FindLeaf t key false false;
  leaf_node ← fetch_leaf t leaf_page;
  found ← Leaf_Lookup leaf_node key;
  match found with
  | None => Some (false, result)
  | Some value => Some (true, result ++ [value])
  end.

Definition StartNewTree (t : Tree) (key : KeyType) (value : ValueType) : option Tree :=
  let '(root, t1) := alloc_page t in
  let t2 := UpdateRootPageId (set_root t1 root) 1 in
  let root_node := Leaf_Init ∅ root INVALID_PAGE_ID (leaf_max_size_ t2) in
  '(root_node', _) ← Leaf_Insert root_node key value;
  Some (put_page t2 root (LeafNode root_node')).

(** [Split] of a leaf: the new page id. *)
Definition Split_leaf (t : Tree) (old_page : Z) (old_leaf : LeafPage) : Tree * Z :=
  let '(new_page_id, t1) := alloc_page t in
  let new_leaf :=
    Leaf_Init ∅ new_page_id (parent_page_id_ (leaf_header old_leaf)) (leaf_max_size_ t1) in
  let '(old_leaf1, new_leaf1) := Leaf_MoveHalfTo old_leaf new_leaf in
  let new_leaf2 := Leaf_SetNextPageId new_leaf1 (next_page_id_ old_leaf1) in
  let old_leaf2 := Leaf_SetNextPageId old_leaf1 (page_id_ (leaf_header new_leaf2)) in
  (put_page (put_page t1 old_page (LeafNode old_leaf2)) new_page_id (LeafNode new_leaf2),
   new_page_id).

(** [Split] of an internal node: the page it returns is the {e old} node
    ([new_node = reinterpret_cast<N *>(old_internal_node)]). *)
Definition Split_internal (t : Tree) (old_page : Z) (old_node : InternalPage) : Tree * Z :=
  let '(new_page_id, t1) := alloc_page t in
  let new_node :=
    Internal_Init ∅ new_page_id (parent_page_id_ (internal_header old_node))
      (internal_max_size_ t1) in
  let '(old_node1, new_node1) := Internal_MoveHalfTo old_node new_node in
  (put_page (put_page t1 old_page (InternalNode old_node1)) new_page_id (InternalNode new_node1),
   old_page).

(** [node->SetParentPageId(p)] on the node stored under [page]. *)
Definition set_parent_of (t : Tree) (page parent : Z) : option Tree :=
  n ← store_ t !! page;
  Some (put_page t page (node_set_parent n parent)).

(** [InsertIntoParent]; the nodes are given by the pages that hold them.
    [fuel] bounds the recursion up the tree; [InsertIntoLeaf] gives one
    level per stored page. *)
Fixpoint InsertIntoParent (fuel : nat) (t : Tree) (old_page : Z) (key : KeyType) (new_page : Z)
  : option Tree :=
  old_node ← store_ t !! old_page;
  new_node ← store_ t !! new_page;
  if IsRootPage (node_header old_node) then
    let '(new_page_id, t1) := alloc_page t in
    let t2 := set_root t1 new_page_id in
    let new_root_node :=
      PopulateNewRoot
        (Internal_Init ∅ new_page_id INVALID_PAGE_ID (internal_max_size_ t2))
        (page_id_ (node_header old_node)) key (page_id_ (node_header new_node)) in
    let t3 := put_page t2 new_page_id (InternalNode new_root_node) in
    t4 ← set_parent_of t3 old_page new_page_id;
    t5 ← set_parent_of t4 new_page new_page_id;
    Some (UpdateRootPageId t5 0)
  else
    let parent_page := parent_page_id_ (node_header old_node) in
    parent_node ← fetch_internal t parent_page;
    let parent_node' :=
      InsertAfterNode parent_node (page_id_ (node_header old_node)) key
        (page_id_ (node_header new_node)) in
    let t1 := put_page t parent_page (InternalNode parent_node') in
    if decide (size_ (internal_header parent_node') < max_size_ (internal_header parent_node'))
    then Some t1
    else
      match fuel with
      | O => None
      | S fuel' =>
          let '(t2, new_parent_page) := Split_internal t1 parent_page parent_node' in
          new_parent_node ← fetch_internal t2 new_parent_page;
          InsertIntoParent fuel' t2 parent_page
            (Internal_KeyAt new_parent_node 0) new_parent_page
      end.

Definition InsertIntoLeaf (t : Tree) (key : KeyType) (value : ValueType)
  : option (Tree * bool) :=
  leaf_page ← FindLeaf t key false false;
  leaf_node ← fetch_leaf t leaf_page;
  let old_size := size_ (leaf_header leaf_node) in
  '(leaf_node', new_size) ← Leaf_Insert leaf_node key value;
  let t1 := put_page t leaf_page (LeafNode leaf_node') in
  if decide (new_size = old_size) then Some (t1, false)
  else if decide (new_size < leaf_max_size_ t1) then Some (t1, true)
  else
    let '(t2, new_leaf_page) := Split_leaf t1 leaf_page leaf_node' in
    new_leaf_node ← fetch_leaf t2 new_leaf_page;
    t3 ← InsertIntoParent (size (store_ t2)) t2 leaf_page
            (Leaf_KeyAt new_leaf_node 0) new_leaf_page;
    Some (t3, true).

Definition Insert (t : Tree) (key : KeyType) (value : ValueType) : option (Tree * bool) :=
  if IsEmpty t then t' ← StartNewTree t key value; Some (t', true)
  else InsertIntoLeaf t key value.

(** ** Vocabulary for the properties *)




End pages.
End BPlusTree.

(** ** A concrete tree: integer keys, record ids for values

    Keys are integers compared as such; a value is a record id (page id,
    slot number); the value-initialised pair is the zero key with the
    default record id [(INVALID_PAGE_ID, 0)].  Leaves and internal nodes
    hold at most four entries; page 0 is the header page, so the first page
    of the tree is page 1. *)
Module TreeExamples.
Import BPlusTree.

Definition int_comparator (a b : Z) : Z :=
  if decide (a < b) then -1 else if decide (b < a) then 1 else 0.

Definition RID : Type := Z * Z.

Definition IntTree := Tree (KeyType:=Z) (ValueType:=RID).

Definition empty_tree : IntTree := new_tree 4 4 1.

Definition insert (key : Z) (value : RID) (t : IntTree) : option (IntTree * bool) :=
  Insert int_comparator 0 (0, 0) (0, (INVALID_PAGE_ID, 0)) t key value.

Definition get_value (key : Z) (t : IntTree) : option (bool * list RID) :=
  GetValue int_comparator 0 (0, 0) t key [].

(** The tree after [Insert(7, (7, 0))] on the empty tree. *)
Definition tree_7 : IntTree := default empty_tree (fst <$> insert 7 (7, 0) empty_tree).

(** The tree after a second [Insert(7, (7, 0))]. *)
Definition tree_7_7 : IntTree := default tree_7 (fst <$> insert 7 (7, 0) tree_7).

(** The keys and values of the leaf stored under a page id. *)
Definition leaf_entries (t : IntTree) (page_id : Z) : option (list (Z * RID)) :=
  p ← fetch_leaf t page_id;
  Some ((λ i, slot (0, (0, 0)) (leaf_array p) (Z.of_nat i))
          <$> seq 0 (Z.to_nat (size_ (leaf_header p)))).

(** An internal node with the children 1 and 2 separated by the key 20. *)
Definition two_children : InternalPage (KeyType:=Z) :=
  PopulateNewRoot 0 (Internal_Init ∅ 3 INVALID_PAGE_ID 4) 1 20 2.

(** A sorted leaf with the keys 10, 20 and 30, on page 1. *)
Definition sorted_leaf : LeafPage (KeyType:=Z) (ValueType:=RID) :=
  mkLeaf (mkHeader LEAF_PAGE 3 4 INVALID_PAGE_ID 1) INVALID_PAGE_ID
    (list_to_map [(0, (10, (1, 0))); (1, (20, (2, 0))); (2, (30, (3, 0)))]).








End TreeExamples.


(* ===================================================================== *)
(** * Part II: properties *)
(* ===================================================================== *)

Module ExtendibleHashTableProofs.
Import ExtendibleHashTable.
Section proofs.
Context {K V : Type} `{EqDecision K}.
Variable hash : K → Z.
Implicit Types (t : Table (K:=K) (V:=V)) (b : Bucket (K:=K) (V:=V)).

Lemma shl1_Some d m : shl1 d = Some m → 0 ≤ d < 31 ∧ m = 2 ^ d.
Proof.
  unfold shl1. case_decide; [|done]. intros [= <-]. split; [done|].
  rewrite Z.shiftl_1_l. done.
Qed.

Lemma shl1_defined d : 0 ≤ d < 31 → shl1 d = Some (2 ^ d).
Proof. intros Hd. unfold shl1. rewrite decide_True by done. by rewrite Z.shiftl_1_l. Qed.

Lemma land_mask_range x d : 0 ≤ d → 0 ≤ Z.land x (2 ^ d - 1) < 2 ^ d.
Proof.
  intros Hd. replace (2 ^ d - 1) with (Z.ones d) by (rewrite Z.ones_equiv; lia).
  rewrite Z.land_ones by done. apply Z.mod_pos_bound. by apply Z.pow_pos_nonneg.
Qed.

(** The rewiring loop terminates within [length dir] iterations when the
    stride is positive; it keeps the directory's length and writes only the
    two new handles. *)
Lemma rewire_spec (P : nat → Prop) fuel i m h0 h1 dir :
  0 ≤ i → 1 ≤ m → (length dir ≤ fuel + Z.to_nat i)%nat →
  Forall P dir → P h0 → P h1 →
  ∃ dir', rewire fuel i m h0 h1 dir = Some dir'
          ∧ length dir' = length dir ∧ Forall P dir'.
Proof.
  revert i dir. induction fuel as [|fuel IH]; intros i dir Hi Hm Hlen HP H0 H1; simpl.
  - rewrite decide_False by lia. eauto.
  - case_decide as Hlt; [|eauto].
    unfold set_index. rewrite decide_True by lia. simpl.
    destruct (IH (i + m) (<[Z.to_nat i:=if decide (Z.land i m ≠ 0) then h1 else h0]> dir))
      as (dir' & -> & Hl & HF).
    + lia.
    + done.
    + rewrite length_insert. lia.
    + apply Forall_insert; [done|]. by case_decide.
    + done.
    + done.
    + exists dir'. by rewrite Hl, length_insert.
Qed.

Lemma IndexOf_defined t key :
  0 ≤ global_depth_ t ≤ 30 →
  ∃ index, IndexOf hash t key = Some index ∧ 0 ≤ index < 2 ^ global_depth_ t.
Proof.
  intros Hd. unfold IndexOf. rewrite shl1_defined by lia. simpl.
  eexists; split; [done|]. apply land_mask_range. lia.
Qed.

Lemma bucket_at_defined t index :
  wf t → 0 ≤ index < 2 ^ global_depth_ t →
  ∃ h b, bucket_at t index = Some (h, b) ∧ dir_ t !! Z.to_nat index = Some h
         ∧ buckets_ t !! h = Some b ∧ 0 ≤ depth_ b ≤ global_depth_ t.
Proof.
  intros [Hd Hl Hh] Hi. unfold bucket_at, at_index. rewrite decide_True by lia.
  destruct (lookup_lt_is_Some_2 (dir_ t) (Z.to_nat index)) as [h Hh']; [lia|].
  rewrite Hh'. simpl.
  destruct (Forall_lookup_1 _ _ _ _ Hh Hh') as (b & Hb & Hdb).
  rewrite Hb. simpl. eauto 10.
Qed.

Lemma Find_defined t key : wf t → is_Some (Find hash t key).
Proof.
  intros Hwf. unfold Find.
  destruct (IndexOf_defined t key) as (i & -> & Hi); [apply Hwf|]. simpl.
  destruct (bucket_at_defined t i) as (h & b & -> & _); [done..|]. simpl. eauto.
Qed.

Lemma store_bucket_wf t h b b' :
  wf t → buckets_ t !! h = Some b → depth_ b' = depth_ b → wf (store_bucket t h b').
Proof.
  intros [Hd Hl Hh] Hb Hdep. split; simpl; [done..|].
  eapply Forall_impl; [exact Hh|]. intros h' (b0 & Hb0 & Hd0).
  destruct (decide (h = h')) as [<-|Hne].
  - exists b'. rewrite list_lookup_insert_eq by (by eapply lookup_lt_Some).
    split; [done|]. rewrite Hdep. congruence.
  - exists b0. by rewrite list_lookup_insert_ne.
Qed.

Lemma Bucket_Insert_depth b key value : depth_ (Bucket_Insert b key value).1 = depth_ b.
Proof. unfold Bucket_Insert. destruct (update_items _ _ _); [done|]. by destruct (IsFull b). Qed.

Lemma Bucket_Remove_depth b key : depth_ (Bucket_Remove b key).1 = depth_ b.
Proof. unfold Bucket_Remove. by destruct (remove_items _ _). Qed.

Lemma redistribute_depth items m b0 b1 :
  depth_ (redistribute hash items m b0 b1).1 = depth_ b0
  ∧ depth_ (redistribute hash items m b0 b1).2 = depth_ b1.
Proof.
  revert b0 b1. induction items as [|[k v] items IH]; intros b0 b1; simpl; [done|].
  case_decide.
  - destruct (IH b0 (Bucket_Insert b1 k v).1) as [-> ->]. by rewrite Bucket_Insert_depth.
  - destruct (IH (Bucket_Insert b0 k v).1 b1) as [-> ->]. by rewrite Bucket_Insert_depth.
Qed.

(** What one split does to the counters, in every state. *)
Lemma split_counts t key b t1 :
  split hash t key b = Some t1 →
  num_buckets_ t1 = num_buckets_ t + 1
  ∧ (global_depth_ t1 = global_depth_ t ∨ global_depth_ t1 = global_depth_ t + 1)
  ∧ bucket_size_ t1 = bucket_size_ t.
Proof.
  unfold split. intros Hs.
  destruct (decide (depth_ b = global_depth_ t));
    destruct (shl1 (depth_ b)); simpl in Hs; try done;
    destruct (redistribute _ _ _ _ _) as [b0 b1];
    destruct (rewire _ _ _ _ _ _); simpl in Hs; try done;
    injection Hs as <-; simpl; auto.
Qed.

Lemma split_defined t key b :
  wf t → 0 ≤ depth_ b ≤ global_depth_ t →
  ∃ t1, split hash t key b = Some t1 ∧ (global_depth_ t1 ≤ 30 → wf t1).
Proof.
  intros [Hd Hl Hh] Hb. unfold split.
  rewrite shl1_defined by lia. simpl.
  destruct (redistribute hash (list_ b) (2 ^ depth_ b) _ _) as [b0 b1] eqn:Hr.
  pose proof (redistribute_depth (list_ b) (2 ^ depth_ b)
    (mkBucket (bucket_size_ t) (depth_ b + 1) [])
    (mkBucket (bucket_size_ t) (depth_ b + 1) [])) as [Hd0 Hd1].
  rewrite Hr in Hd0, Hd1. simpl in Hd0, Hd1.
  set (gd := if decide (depth_ b = global_depth_ t)
             then global_depth_ t + 1 else global_depth_ t).
  set (dir := if decide (depth_ b = global_depth_ t) then dir_ t ++ dir_ t else dir_ t).
  assert (Hgd : depth_ b + 1 ≤ gd ∧ global_depth_ t ≤ gd)
    by (subst gd; case_decide; lia).
  assert (Hlen : Z.of_nat (length dir) = 2 ^ gd).
  { subst gd dir. case_decide; [|done].
    rewrite length_app, Nat2Z.inj_add, Hl.
    replace (global_depth_ t + 1) with (Z.succ (global_depth_ t)) by lia.
    rewrite Z.pow_succ_r by lia. lia. }
  set (P := λ h : nat, ∃ b', (buckets_ t ++ [b0; b1]) !! h = Some b'
                             ∧ 0 ≤ depth_ b' ≤ gd).
  assert (HP : Forall P dir).
  { assert (Forall P (dir_ t)) as HPd.
    { eapply Forall_impl; [exact Hh|]. intros h (b' & Hb' & Hdb'). exists b'.
      rewrite lookup_app_l by (by eapply lookup_lt_Some). split; [done|lia]. }
    subst dir. case_decide; [|done]. by apply Forall_app. }
  destruct (rewire_spec P (length dir) (Z.land (hash key) (2 ^ depth_ b - 1))
              (2 ^ depth_ b) (length (buckets_ t)) (S (length (buckets_ t))) dir)
    as (dir' & Hrw & Hl' & HP').
  - apply land_mask_range. lia.
  - assert (0 < 2 ^ depth_ b) by (apply Z.pow_pos_nonneg; lia). lia.
  - lia.
  - done.
  - exists b0. rewrite list_lookup_middle by done. split; [done|lia].
  - exists b1. rewrite (lookup_app_r _ _ (S _)) by lia.
    replace (S (length (buckets_ t)) - length (buckets_ t))%nat with 1%nat by lia.
    split; [done|lia].
  - exists (mkTable gd (bucket_size_ t) (num_buckets_ t + 1) dir' (buckets_ t ++ [b0; b1])).
    split.
    + subst gd dir. destruct (decide (depth_ b = global_depth_ t)); by rewrite Hrw.
    + intros Hgd30. simpl in Hgd30. split; simpl; [lia| by rewrite Hl' |done].
Qed.

(** [Insert] is defined on every well-formed table whose directory can
    still double. *)
Lemma Insert_defined t key value :
  wf t → global_depth_ t < 30 → is_Some (Insert hash t key value).
Proof.
  intros Hwf Hgd. unfold Insert.
  destruct (IndexOf_defined t key) as (i & -> & Hi); [apply Hwf|]. simpl.
  destruct (bucket_at_defined t i) as (h & b & -> & _ & Hb & Hdb); [done..|]. simpl.
  destruct (Bucket_Find b key); [eauto|].
  destruct (IsFull b); [|eauto].
  destruct (split_defined t key b) as (t1 & Hs & Hwf1); [done..|].
  destruct (split_counts _ _ _ _ Hs) as (_ & Hg1 & _).
  rewrite Hs. simpl.
  assert (wf t1) as Hwf1' by (apply Hwf1; lia).
  destruct (IndexOf_defined t1 key) as (i1 & -> & Hi1); [apply Hwf1'|]. simpl.
  destruct (bucket_at_defined t1 i1) as (h1 & b1 & -> & _); [done..|]. simpl. eauto.
Qed.

Lemma Insert_wf t key value t' : wf t → Insert hash t key value = Some t' → wf t'.
Proof.
  intros Hwf. unfold Insert.
  destruct (IndexOf_defined t key) as (i & -> & Hi); [apply Hwf|]. simpl.
  destruct (bucket_at_defined t i) as (h & b & -> & _ & Hb & Hdb); [done..|]. simpl.
  destruct (Bucket_Find b key); [by intros [= <-]|].
  destruct (IsFull b).
  - destruct (split_defined t key b) as (t1 & Hs & Hwf1); [done..|].
    rewrite Hs. simpl. unfold IndexOf.
    destruct (shl1 (global_depth_ t1)) as [m|] eqn:Hm; [|done]. simpl.
    apply shl1_Some in Hm as [Hm ->].
    assert (wf t1) as Hwf1' by (apply Hwf1; lia).
    destruct (bucket_at_defined t1 (Z.land (hash key) (2 ^ global_depth_ t1 - 1)))
      as (h1 & b1 & -> & _ & Hb1 & _); [done|apply land_mask_range; lia|]. simpl.
    intros [= <-]. eapply store_bucket_wf; [done..|]. apply Bucket_Insert_depth.
  - intros [= <-]. eapply store_bucket_wf; [done..|]. apply Bucket_Insert_depth.
Qed.

Lemma Remove_defined t key :
  wf t → ∃ t' r, Remove hash t key = Some (t', r) ∧ wf t'
                 ∧ global_depth_ t' = global_depth_ t.
Proof.
  intros Hwf. unfold Remove.
  destruct (IndexOf_defined t key) as (i & -> & Hi); [apply Hwf|]. simpl.
  destruct (bucket_at_defined t i) as (h & b & -> & _ & Hb & Hdb); [done..|]. simpl.
  pose proof (Bucket_Remove_depth b key) as Hdep.
  destruct (Bucket_Remove b key) as [b' r]. simpl in Hdep.
  eexists _, r. split; [done|]. split; [|done].
  by apply (store_bucket_wf t h b b').
Qed.

Lemma new_table_wf (n : nat) : wf (new_table (K:=K) (V:=V) n).
Proof.
  split; simpl; [lia|done|]. repeat constructor. eexists. split; [done|]. simpl. lia.
Qed.

(** [Insert] of a key that is present changes nothing. *)
Lemma Insert_present t key value v0 :
  Find hash t key = Some (Some v0) → Insert hash t key value = Some t.
Proof.
  unfold Find, Insert. destruct (IndexOf hash t key) as [i|]; simpl; [|done].
  destruct (bucket_at t i) as [[h b]|]; simpl; [|done]. by intros [= ->].
Qed.

Lemma find_items_snoc (l : list (K * V)) key value :
  find_items l key = None → find_items (l ++ [(key, value)]) key = Some value.
Proof.
  induction l as [|[k v] l IH]; simpl.
  - by rewrite decide_True.
  - case_decide; [done|]. apply IH.
Qed.

Lemma find_items_update_None (l : list (K * V)) key value :
  find_items l key = None → update_items l key value = None.
Proof.
  induction l as [|[k v] l IH]; simpl; [done|].
  case_decide; [done|]. intros Hf. by rewrite IH.
Qed.

(** [Insert] of an absent key whose bucket has room: the round trip holds. *)
Lemma Insert_absent_with_room t key value index h b :
  IndexOf hash t key = Some index → bucket_at t index = Some (h, b) →
  Bucket_Find b key = None → IsFull b = false →
  ∃ t', Insert hash t key value = Some t' ∧ Find hash t' key = Some (Some value).
Proof.
  intros Hi Hb Hf Hfull. unfold Insert. rewrite Hi. simpl. rewrite Hb. simpl.
  rewrite Hf, Hfull. eexists. split; [done|].
  unfold Find, IndexOf in *. simpl. destruct (shl1 (global_depth_ t)); simpl in *; [|done].
  injection Hi as ->. unfold bucket_at in *. simpl.
  destruct (at_index (dir_ t) index) as [h'|]; simpl in *; [|done].
  destruct (buckets_ t !! h') as [b'|] eqn:Hb'; simpl in *; [|done].
  injection Hb as -> ->.
  rewrite list_lookup_insert_eq by (by eapply lookup_lt_Some). simpl.
  unfold Bucket_Insert, Bucket_Find in *. rewrite find_items_update_None by done.
  rewrite Hfull. simpl. by rewrite find_items_snoc.
Qed.

(** C9.  One call to [Insert] splits at most one bucket: in every table
    state and for every key and value, the bucket count grows by at most
    one and the global depth by at most one (the split step is an [if], not
    a loop); and the call does return on every well-formed table whose
    depth is below 30. *)
Theorem Insert_splits_at_most_once t key value :
  (∀ t', Insert hash t key value = Some t' →
     (num_buckets_ t' = num_buckets_ t ∧ global_depth_ t' = global_depth_ t)
     ∨ (num_buckets_ t' = num_buckets_ t + 1
        ∧ (global_depth_ t' = global_depth_ t ∨ global_depth_ t' = global_depth_ t + 1)))
  ∧ (wf t → global_depth_ t < 30 → is_Some (Insert hash t key value)).
Proof.
  split; [|apply Insert_defined].
  intros t'. unfold Insert.
  destruct (IndexOf hash t key) as [i|]; [simpl|done].
  destruct (bucket_at t i) as [[h b]|]; [simpl|done].
  destruct (Bucket_Find b key); [intros [= <-]; auto|].
  destruct (IsFull b); [|intros [= <-]; auto].
  destruct (split hash t key b) as [t1|] eqn:Hs; [simpl|done].
  destruct (split_counts _ _ _ _ Hs) as (Hn & Hg & _).
  destruct (IndexOf hash t1 key) as [i1|]; [simpl|done].
  destruct (bucket_at t1 i1) as [[h1 b1]|]; [simpl|done].
  intros [= <-]. simpl. right. done.
Qed.

End proofs.

Import TableExamples.

Lemma Insert_splits_at_most_once_witness :
  is_Some (Insert hash_int s4_full 8 108)
  ∧ num_buckets_ s4_third = num_buckets_ s4_full + 1
  ∧ global_depth_ s4_third = global_depth_ s4_full + 1.
Proof.
  destruct (Insert_splits_at_most_once hash_int s4_full 8 108) as [Hbound Hdef].
  split.
  - apply Hdef; [|by vm_compute].
    split; [by vm_compute|done|].
    repeat constructor. eexists. split; [done|]. by vm_compute.
  - destruct (Hbound s4_third) as [[Hn _]|[Hn Hg]]; [by vm_compute|..].
    + by vm_compute in Hn.
    + split; [done|]. destruct Hg as [Hg|Hg]; [by vm_compute in Hg|done].
Defined.

(** C1, at the failing input (scenario S4 with the keys 0, 4 and 8, which
    agree on their low bit).  Key 8 is absent from the full table; [Insert]
    splits once, both stored keys land again in the bucket key 8 belongs to,
    that bucket is still full, and the pair is dropped: the table afterwards
    has global depth 1 and two buckets, and [Find] does not find key 8. *)
Theorem Insert_drops_pair_when_one_split_is_not_enough :
  Find hash_int s4_full 8 = Some None
  ∧ Insert hash_int s4_full 8 108 = Some s4_third
  ∧ global_depth_ s4_third = 1 ∧ num_buckets_ s4_third = 2
  ∧ Find hash_int s4_third 0 = Some (Some 100)
  ∧ Find hash_int s4_third 4 = Some (Some 104)
  ∧ Find hash_int s4_third 8 = Some None.
Proof. split_and!; by vm_compute. Qed.

(** C5, at the failing input.  Key 1 is stored with value 10;
    [Insert(1, 20)] leaves the table as it is and [Find] still yields 10. *)
Theorem Insert_keeps_old_value_of_present_key :
  Find hash_int one_key 1 = Some (Some 10)
  ∧ Insert hash_int one_key 1 20 = Some one_key
  ∧ ∀ t, Insert hash_int one_key 1 20 = Some t → Find hash_int t 1 = Some (Some 10).
Proof.
  split_and!; [by vm_compute..|]. intros t Ht. vm_compute in Ht. by injection Ht as <-.
Qed.

End ExtendibleHashTableProofs.

Module LRUKReplacerProofs.
Import LRUKReplacer.
Section proofs.
Variable evictable_init : bool.
Implicit Types (r : Replacer) (f g : Z) (l : list Z) (es : gmap Z Entry).

Lemma erase_elem_of l f : f ∈ l → is_Some (erase l f).
Proof.
  induction l as [|x l IH]; simpl; [by intros ?%elem_of_nil|].
  intros [->|Hin]%elem_of_cons.
  - rewrite decide_True by done. eauto.
  - case_decide; [eauto|]. destruct (IH Hin) as [l' ->]. simpl. eauto.
Qed.

Lemma erase_Some l f l' :
  erase l f = Some l' → ∃ l1 l2, l = l1 ++ f :: l2 ∧ l' = l1 ++ l2 ∧ f ∉ l1.
Proof.
  revert l'. induction l as [|x l IH]; simpl; [done|]. intros l'.
  case_decide as Hx.
  - intros [= <-]. subst x. exists [], l. split_and!; [done..|]. apply not_elem_of_nil.
  - destruct (erase l f) as [l0|]; simpl; [|done]. intros [= <-].
    destruct (IH l0 eq_refl) as (l1 & l2 & -> & -> & Hni).
    exists (x :: l1), l2. split_and!; [done..|].
    rewrite not_elem_of_cons. done.
Qed.

Lemma find_elem_of (p : Z → bool) l f : List.find p l = Some f → f ∈ l ∧ p f = true.
Proof.
  induction l as [|x l IH]; simpl; [done|].
  destruct (p x) eqn:Hp.
  - intros [= <-]. split; [left|done].
  - intros [Hin Hf]%IH. split; [by right|done].
Qed.

Lemma find_None_elem_of (p : Z → bool) l : List.find p l = None ↔ ∀ f, f ∈ l → p f = false.
Proof.
  induction l as [|x l IH]; simpl.
  - split; [by intros _ f ?%elem_of_nil|done].
  - destruct (p x) eqn:Hp.
    + split; [done|]. intros Hall. rewrite Hall in Hp; [done|left].
    + rewrite IH. split.
      * intros Hall f [->|Hin]%elem_of_cons; auto.
      * intros Hall f Hin. apply Hall. by right.
Qed.

(** On tracked frames the scan loop inserts nothing and is a search for the
    first evictable frame. *)
Lemma scan_tracked r es l :
  es = entries_ r → Forall (λ f, is_Some (es !! f)) l →
  scan evictable_init es l = (es, first_evictable r l).
Proof.
  intros ->. unfold first_evictable.
  induction 1 as [|f l [e He] _ IH]; simpl; [done|].
  unfold index_entry, is_evictable. rewrite He.
  destruct (evictable_ e); [done|]. apply IH.
Qed.

Lemma wf_list_tracked r : wf r → Forall (λ f, is_Some (entries_ r !! f)) (list_ r).
Proof. intros Hwf. eapply Forall_impl; [apply Hwf|]. intros f (e & -> & _). eauto. Qed.

Lemma wf_klist_tracked r : wf r → Forall (λ f, is_Some (entries_ r !! f)) (klist_ r).
Proof. intros Hwf. eapply Forall_impl; [apply Hwf|]. intros f (e & -> & _). eauto. Qed.

Lemma victim_elem_of r f :
  victim r = Some f →
  is_evictable r f = true
  ∧ ((first_evictable r (list_ r) = Some f ∧ f ∈ list_ r)
     ∨ (first_evictable r (list_ r) = None ∧ first_evictable r (klist_ r) = Some f
        ∧ f ∈ klist_ r)).
Proof.
  unfold victim. destruct (first_evictable r (list_ r)) as [f'|] eqn:Hf.
  - intros [= ->]. destruct (find_elem_of _ _ _ Hf). auto.
  - intros Hk. destruct (find_elem_of _ _ _ Hk). auto 6.
Qed.

Lemma wf_list_count r f :
  wf r → f ∈ list_ r →
  access_count r f = 1 ∨ 1 ≤ access_count r f < k_ r.
Proof.
  intros Hwf Hin. pose proof (wf_list _ Hwf) as Hl.
  rewrite Forall_forall in Hl. destruct (Hl f Hin) as (e & He & _ & Hc).
  unfold access_count. by rewrite He.
Qed.

Lemma wf_klist_count r f : wf r → f ∈ klist_ r → k_ r ≤ access_count r f.
Proof.
  intros Hwf Hin. pose proof (wf_klist _ Hwf) as Hl.
  rewrite Forall_forall in Hl. destruct (Hl f Hin) as (e & He & _ & _ & Hc).
  unfold access_count. by rewrite He.
Qed.

(** [Evict] as one equation: the victim is the one of the specification,
    its entry is erased and [curr_size_] decremented. *)
Lemma Evict_unfold r :
  wf r →
  ∃ r', Evict evictable_init r = Some (r', victim r)
        ∧ match victim r with
          | Some f => entries_ r' = delete f (entries_ r)
                      ∧ curr_size_ r' = wrap64 (curr_size_ r - 1)
          | None => r' = r
          end.
Proof.
  intros Hwf. unfold Evict.
  rewrite (scan_tracked r) by (done || by apply wf_list_tracked).
  unfold victim. destruct (first_evictable r (list_ r)) as [f|] eqn:Hf.
  - apply find_elem_of in Hf as [Hin _].
    destruct (erase_elem_of _ _ Hin) as [l' ->]. simpl. eauto.
  - rewrite (scan_tracked r) by (done || by apply wf_klist_tracked).
    destruct (first_evictable r (klist_ r)) as [f|] eqn:Hk.
    + apply find_elem_of in Hk as [Hin _].
      destruct (erase_elem_of _ _ Hin) as [l' ->]. simpl. eauto.
    + destruct r. simpl. eauto.
Qed.

(** C6.  On every state that satisfies the replacer's invariant, [Evict]
    returns the victim the specification describes: the first evictable
    frame of the history list scanned head to tail, and only when that list
    has none the first evictable frame of the cache list.  It reports
    failure exactly when no tracked frame is evictable.  A victim taken from
    the cache list has at least [k] accesses, one taken from the history
    list has fewer than [k] (for [k >= 2]); and whenever some evictable
    frame has fewer than [k] accesses, so has the victim. *)
Theorem Evict_selects_victim r :
  wf r →
  (∃ r', Evict evictable_init r = Some (r', victim r))
  ∧ (victim r = None ↔ ∀ f, is_Some (entries_ r !! f) → is_evictable r f = false)
  ∧ (∀ f, victim r = Some f →
       is_evictable r f = true
       ∧ (first_evictable r (list_ r) = Some f → 2 ≤ k_ r → access_count r f < k_ r)
       ∧ (first_evictable r (list_ r) = None → k_ r ≤ access_count r f)
       ∧ (∀ g, is_evictable r g = true → access_count r g < k_ r →
               access_count r f < k_ r)).
Proof.
  intros Hwf. split_and!.
  - destruct (Evict_unfold r Hwf) as (r' & Hr' & _). eauto.
  - unfold victim. split.
    + intros Hv f Hf. pose proof (wf_tracked _ Hwf f Hf) as Hin.
      apply elem_of_app in Hin.
      destruct (first_evictable r (list_ r)) eqn:Hl; [done|].
      unfold first_evictable in *. rewrite find_None_elem_of in Hl, Hv.
      destruct Hin; auto.
    + intros Hall.
      assert (∀ l, Forall (λ f, is_Some (entries_ r !! f)) l → first_evictable r l = None)
        as Hnone.
      { intros l Hl. apply find_None_elem_of. intros f Hin.
        rewrite Forall_forall in Hl. auto. }
      rewrite !Hnone; [done|by apply wf_klist_tracked|by apply wf_list_tracked].
  - intros f Hv. destruct (victim_elem_of _ _ Hv) as (Hev & Hcase).
    split_and!; [done|..].
    + intros Hf Hk. destruct Hcase as [[_ Hin]|[Hn _]]; [|congruence].
      destruct (wf_list_count _ _ Hwf Hin); lia.
    + intros Hn. destruct Hcase as [[Hf _]|(_ & _ & Hin)]; [congruence|].
      by apply wf_klist_count.
    + intros g Hg Hcg.
      assert (g ∈ list_ r) as Hgin.
      { assert (is_Some (entries_ r !! g)) as Hs.
        { unfold is_evictable in Hg. destruct (entries_ r !! g); [eauto|done]. }
        pose proof (wf_tracked _ Hwf g Hs) as Hin.
        apply elem_of_app in Hin as [?|Hk]; [done|].
        pose proof (wf_klist_count _ _ Hwf Hk). lia. }
      destruct Hcase as [[_ Hin]|[Hn _]].
      * destruct (wf_list_count _ _ Hwf Hin), (wf_list_count _ _ Hwf Hgin); lia.
      * unfold first_evictable in Hn. rewrite find_None_elem_of in Hn.
        rewrite Hn in Hg; done.
Qed.

(** The entry of an evicted frame is erased, whatever the state. *)
Lemma Evict_victim_untracked r r' f :
  Evict evictable_init r = Some (r', Some f) → entries_ r' !! f = None.
Proof.
  unfold Evict. destruct (scan _ (entries_ r) (list_ r)) as [es1 [f1|]].
  - destruct (erase _ _); simpl; [|done]. intros [= <- <-]. apply lookup_delete_eq.
  - destruct (scan _ es1 (klist_ r)) as [es2 [f2|]]; [|done].
    destruct (erase _ _); simpl; [|done]. intros [= <- <-]. apply lookup_delete_eq.
Qed.

(** ** The invariant holds initially and every operation keeps it *)

Lemma new_replacer_wf n k : 0 ≤ k < 2 ^ 64 → wf (new_replacer n k).
Proof.
  intros Hk. split; simpl; [done|constructor|constructor|constructor|].
  intros f [e He]. by rewrite lookup_empty in He.
Qed.

Lemma history_ok_insert_ne k es f e g :
  f ≠ g → history_ok k es g → history_ok k (<[f:=e]> es) g.
Proof. intros Hne (e' & He & ?). exists e'. by rewrite lookup_insert_ne. Qed.

Lemma cache_ok_insert_ne k es f e g :
  f ≠ g → cache_ok k es g → cache_ok k (<[f:=e]> es) g.
Proof. intros Hne (e' & He & ?). exists e'. by rewrite lookup_insert_ne. Qed.

Lemma history_ok_delete_ne k es f g :
  f ≠ g → history_ok k es g → history_ok k (delete f es) g.
Proof. intros Hne (e' & He & ?). exists e'. by rewrite lookup_delete_ne. Qed.

Lemma cache_ok_delete_ne k es f g :
  f ≠ g → cache_ok k es g → cache_ok k (delete f es) g.
Proof. intros Hne (e' & He & ?). exists e'. by rewrite lookup_delete_ne. Qed.

Lemma Forall_not_elem_of (P Q : Z → Prop) f l :
  f ∉ l → (∀ g, f ≠ g → P g → Q g) → Forall P l → Forall Q l.
Proof.
  intros Hni Himp HP. rewrite Forall_forall in HP. apply Forall_forall.
  intros g Hg. apply Himp; [|by apply HP]. intros ->. done.
Qed.

(** Where a tracked frame sits, read off its iterator. *)
Lemma wf_pos_list r f e :
  wf r → entries_ r !! f = Some e → pos_ e = PosList → f ∈ list_ r.
Proof.
  intros Hwf He Hp.
  destruct (elem_of_app (list_ r) (klist_ r) f) as [Hcase _].
  destruct Hcase as [?|Hk]; [apply Hwf; eauto|done|].
  pose proof (wf_klist _ Hwf) as Hl. rewrite Forall_forall in Hl.
  destruct (Hl f Hk) as (e' & He' & Hp' & _). congruence.
Qed.

Lemma wf_pos_klist r f e :
  wf r → entries_ r !! f = Some e → pos_ e = PosKList → f ∈ klist_ r.
Proof.
  intros Hwf He Hp.
  destruct (elem_of_app (list_ r) (klist_ r) f) as [Hcase _].
  destruct Hcase as [Hk|?]; [apply Hwf; eauto| |done].
  pose proof (wf_list _ Hwf) as Hl. rewrite Forall_forall in Hl.
  destruct (Hl f Hk) as (e' & He' & Hp' & _). congruence.
Qed.

Lemma wf_count_pos r f e : wf r → entries_ r !! f = Some e → 1 ≤ count_ e.
Proof.
  intros Hwf He.
  destruct (elem_of_app (list_ r) (klist_ r) f) as [Hcase _].
  destruct Hcase as [Hin|Hin]; [apply Hwf; eauto|..].
  - pose proof (wf_list _ Hwf) as Hl. rewrite Forall_forall in Hl.
    destruct (Hl f Hin) as (e' & He' & _ & Hc). simplify_eq. lia.
  - pose proof (wf_klist _ Hwf) as Hl. rewrite Forall_forall in Hl.
    destruct (Hl f Hin) as (e' & He' & _ & Hc & _). simplify_eq. lia.
Qed.

(** Unlinking a frame from the list that holds it and erasing its entry. *)
Lemma wf_unlink_history r f l1 l2 size' :
  wf r → list_ r = l1 ++ f :: l2 →
  wf (mkReplacer (delete f (entries_ r)) (l1 ++ l2) (klist_ r) size'
        (replacer_size_ r) (k_ r)).
Proof.
  intros [Hk Hnd Hl Hkl Ht] Heq. rewrite Heq in *.
  assert (Hperm : (l1 ++ f :: l2) ++ klist_ r ≡ₚ f :: (l1 ++ l2) ++ klist_ r).
  { rewrite <- !app_assoc. simpl. by rewrite <- Permutation_middle. }
  rewrite Hperm in Hnd. apply NoDup_cons in Hnd as [Hni Hnd].
  rewrite elem_of_app in Hni.
  split; simpl; [done|done|..].
  - apply (Forall_not_elem_of (history_ok (k_ r) (entries_ r)) _ f); [tauto| |].
    + intros g Hne. by apply history_ok_delete_ne.
    + rewrite Forall_app, Forall_cons in Hl. apply Forall_app. tauto.
  - apply (Forall_not_elem_of (cache_ok (k_ r) (entries_ r)) _ f); [tauto| |done].
    intros g Hne. by apply cache_ok_delete_ne.
  - intros g Hg. destruct (decide (f = g)) as [->|Hne].
    + rewrite lookup_delete_eq in Hg. by destruct Hg.
    + rewrite lookup_delete_ne in Hg by done. apply Ht in Hg.
      rewrite Hperm in Hg. apply elem_of_cons in Hg as [->|]; done.
Qed.

Lemma wf_unlink_cache r f l1 l2 size' :
  wf r → klist_ r = l1 ++ f :: l2 →
  wf (mkReplacer (delete f (entries_ r)) (list_ r) (l1 ++ l2) size'
        (replacer_size_ r) (k_ r)).
Proof.
  intros [Hk Hnd Hl Hkl Ht] Heq. rewrite Heq in *.
  assert (Hperm : list_ r ++ l1 ++ f :: l2 ≡ₚ f :: list_ r ++ l1 ++ l2).
  { by rewrite <- !Permutation_middle. }
  rewrite Hperm in Hnd. apply NoDup_cons in Hnd as [Hni Hnd].
  rewrite !elem_of_app in Hni.
  split; simpl; [done|done|..].
  - apply (Forall_not_elem_of (history_ok (k_ r) (entries_ r)) _ f); [tauto| |done].
    intros g Hne. by apply history_ok_delete_ne.
  - apply (Forall_not_elem_of (cache_ok (k_ r) (entries_ r)) _ f).
    + rewrite elem_of_app. tauto.
    + intros g Hne. by apply cache_ok_delete_ne.
    + rewrite Forall_app, Forall_cons in Hkl. apply Forall_app. tauto.
  - intros g Hg. destruct (decide (f = g)) as [->|Hne].
    + rewrite lookup_delete_eq in Hg. by destruct Hg.
    + rewrite lookup_delete_ne in Hg by done. apply Ht in Hg.
      rewrite Hperm in Hg. apply elem_of_cons in Hg as [->|]; done.
Qed.

Lemma Evict_wf r r' v : wf r → Evict evictable_init r = Some (r', v) → wf r'.
Proof.
  intros Hwf. unfold Evict.
  rewrite (scan_tracked r) by (done || by apply wf_list_tracked).
  destruct (first_evictable r (list_ r)) as [f|] eqn:Hf.
  - destruct (erase (list_ r) f) as [l'|] eqn:He; simpl; [|done].
    intros [= <- <-]. apply erase_Some in He as (l1 & l2 & Hl & -> & _).
    by apply wf_unlink_history.
  - rewrite (scan_tracked r) by (done || by apply wf_klist_tracked).
    destruct (first_evictable r (klist_ r)) as [f|] eqn:Hk.
    + destruct (erase (klist_ r) f) as [l'|] eqn:He; simpl; [|done].
      intros [= <- <-]. apply erase_Some in He as (l1 & l2 & Hl & -> & _).
      by apply wf_unlink_cache.
    + intros [= <- <-]. by destruct r.
Qed.

Lemma SetEvictable_wf r f b : wf r → wf (SetEvictable r f b).
Proof.
  intros Hwf. unfold SetEvictable.
  destruct (entries_ r !! f) as [e|] eqn:He; [|done].
  destruct Hwf as [Hk Hnd Hl Hkl Ht]. split; simpl; [done|done|..].
  - eapply Forall_impl; [exact Hl|]. intros g (e' & He' & Hp & Hc).
    destruct (decide (f = g)) as [->|Hne].
    + simplify_eq. eexists. rewrite lookup_insert_eq. done.
    + exists e'. by rewrite lookup_insert_ne.
  - eapply Forall_impl; [exact Hkl|]. intros g (e' & He' & Hp & Hc).
    destruct (decide (f = g)) as [->|Hne].
    + simplify_eq. eexists. rewrite lookup_insert_eq. done.
    + exists e'. by rewrite lookup_insert_ne.
  - intros g Hg. apply Ht. destruct (decide (f = g)) as [->|Hne]; [eauto|].
    by rewrite lookup_insert_ne in Hg.
Qed.

Lemma Remove_wf r f r' : wf r → Remove r f = Some (Removed r') → wf r'.
Proof.
  intros Hwf. unfold Remove.
  destruct (entries_ r !! f) as [e|] eqn:He; [|by intros [= <-]].
  destruct (evictable_ e); simpl; [|done].
  unfold erase_at. case_decide as Hc.
  - case_decide as Hp; [|done].
    destruct (erase (list_ r) f) as [l'|] eqn:Her; simpl; [|done].
    intros [= <-]. apply erase_Some in Her as (l1 & l2 & Hl & -> & _).
    by apply wf_unlink_history.
  - case_decide as Hp; [|done].
    destruct (erase (klist_ r) f) as [l'|] eqn:Her; simpl; [|done].
    intros [= <-]. apply erase_Some in Her as (l1 & l2 & Hl & -> & _).
    by apply wf_unlink_cache.
Qed.

Lemma wrap64_small z : 0 ≤ z < 2 ^ 64 → wrap64 z = z.
Proof. intros Hz. unfold wrap64. by apply Z.mod_small. Qed.

(** A first access: the frame is appended to the history list. *)
Lemma RecordAccess_first r f :
  entries_ r !! f = None →
  RecordAccess evictable_init r f =
    Some (mkReplacer (<[f := mkEntry 1 evictable_init PosList]> (entries_ r))
            (list_ r ++ [f]) (klist_ r) (wrap64 (curr_size_ r + 1))
            (replacer_size_ r) (k_ r)).
Proof.
  intros He. unfold RecordAccess, index_entry. rewrite He. simpl.
  change (wrap64 (0 + 1)) with 1. by rewrite insert_insert_eq.
Qed.

(** An access that brings the count to [k] or beyond moves the frame to the
    tail of the cache list. *)
Lemma RecordAccess_cache_tail r f e r' :
  wf r → entries_ r !! f = Some e → count_ e + 1 < 2 ^ 64 → k_ r ≤ count_ e + 1 →
  RecordAccess evictable_init r f = Some r' →
  ∃ l, klist_ r' = l ++ [f] ∧ f ∉ l.
Proof.
  intros Hwf He Hov Hk. unfold RecordAccess, index_entry. rewrite He.
  pose proof (wf_count_pos _ _ _ Hwf He) as Hc.
  rewrite wrap64_small by lia.
  rewrite decide_False by lia. unfold erase_at.
  pose proof (wf_nodup _ Hwf) as Hnd.
  case_decide.
  - case_decide as Hp; [|done].
    destruct (erase (list_ r) f) as [l'|] eqn:Her; simpl; [|done]. intros [= <-]. simpl.
    exists (klist_ r). split; [done|].
    apply erase_Some in Her as (l1 & l2 & Hl & _). rewrite Hl in Hnd.
    apply NoDup_app in Hnd as (_ & Hdis & _). apply Hdis.
    rewrite elem_of_app, elem_of_cons. auto.
  - rewrite decide_True by lia. case_decide as Hp; [|done].
    destruct (erase (klist_ r) f) as [l'|] eqn:Her; simpl; [|done]. intros [= <-]. simpl.
    exists l'. split; [done|].
    apply erase_Some in Her as (l1 & l2 & Hl & -> & _). rewrite Hl in Hnd.
    apply NoDup_app in Hnd as (_ & _ & Hnd).
    rewrite <- Permutation_middle in Hnd. apply NoDup_cons in Hnd as [Hni _]. done.
Qed.

Lemma RecordAccess_wf r f r' :
  wf r → access_count r f + 1 < 2 ^ 64 →
  RecordAccess evictable_init r f = Some r' → wf r'.
Proof.
  intros Hwf Hov. destruct (entries_ r !! f) as [e|] eqn:He.
  - (* a tracked frame *)
    unfold access_count in Hov. rewrite He in Hov.
    pose proof (wf_count_pos _ _ _ Hwf He) as Hc.
    unfold RecordAccess, index_entry. rewrite He.
    rewrite wrap64_small by lia. rewrite decide_False by lia.
    unfold erase_at. case_decide as Hk.
    + (* the count reaches k *)
      case_decide as Hp; [|done].
      destruct (erase (list_ r) f) as [l'|] eqn:Her; simpl; [|done]. intros [= <-].
      apply erase_Some in Her as (l1 & l2 & Hl & -> & _).
      destruct Hwf as [Hkr Hnd Hli Hkl Ht]. rewrite Hl in *.
      assert (Hperm : (l1 ++ f :: l2) ++ klist_ r ≡ₚ f :: (l1 ++ l2) ++ klist_ r).
      { rewrite <- !app_assoc. simpl. by rewrite <- Permutation_middle. }
      assert (Hperm' : (l1 ++ l2) ++ klist_ r ++ [f] ≡ₚ f :: (l1 ++ l2) ++ klist_ r).
      { rewrite app_assoc. by rewrite <- Permutation_cons_append. }
      rewrite Hperm in Hnd. pose proof Hnd as Hnd0.
      apply NoDup_cons in Hnd as [Hni Hnd]. rewrite elem_of_app in Hni.
      split; simpl; [done|by rewrite Hperm'|..].
      * apply (Forall_not_elem_of (history_ok (k_ r) (entries_ r)) _ f); [tauto| |].
        -- intros g Hne. by apply history_ok_insert_ne.
        -- rewrite Forall_app, Forall_cons in Hli. apply Forall_app. tauto.
      * apply Forall_app. split.
        -- apply (Forall_not_elem_of (cache_ok (k_ r) (entries_ r)) _ f); [tauto| |done].
           intros g Hne. by apply cache_ok_insert_ne.
        -- repeat constructor. eexists. rewrite lookup_insert_eq.
           split; [done|]. simpl. split; [done|lia].
      * intros g Hg. rewrite Hperm'. destruct (decide (f = g)) as [->|Hne]; [left|].
        rewrite lookup_insert_ne in Hg by done. apply Ht in Hg. by rewrite Hperm in Hg.
    + case_decide as Hgt.
      * (* the count is beyond k *)
        case_decide as Hp; [|done].
        destruct (erase (klist_ r) f) as [l'|] eqn:Her; simpl; [|done]. intros [= <-].
        apply erase_Some in Her as (l1 & l2 & Hl & -> & _).
        destruct Hwf as [Hkr Hnd Hli Hkl Ht]. rewrite Hl in *.
        assert (Hperm : list_ r ++ l1 ++ f :: l2 ≡ₚ f :: list_ r ++ l1 ++ l2).
        { by rewrite <- !Permutation_middle. }
        assert (Hperm' : list_ r ++ (l1 ++ l2) ++ [f] ≡ₚ f :: list_ r ++ l1 ++ l2).
        { rewrite !app_assoc. by rewrite <- Permutation_cons_append. }
        rewrite Hperm in Hnd. pose proof Hnd as Hnd0.
        apply NoDup_cons in Hnd as [Hni Hnd]. rewrite !elem_of_app in Hni.
        split; simpl; [done|by rewrite Hperm'|..].
        -- apply (Forall_not_elem_of (history_ok (k_ r) (entries_ r)) _ f); [tauto| |done].
           intros g Hne. by apply history_ok_insert_ne.
        -- apply Forall_app. split.
           ++ apply (Forall_not_elem_of (cache_ok (k_ r) (entries_ r)) _ f).
              ** rewrite elem_of_app. tauto.
              ** intros g Hne. by apply cache_ok_insert_ne.
              ** rewrite Forall_app, Forall_cons in Hkl. apply Forall_app. tauto.
           ++ repeat constructor. eexists. rewrite lookup_insert_eq.
              split; [done|]. simpl. split; [done|lia].
        -- intros g Hg. rewrite Hperm'. destruct (decide (f = g)) as [->|Hne]; [left|].
           rewrite lookup_insert_ne in Hg by done. apply Ht in Hg. by rewrite Hperm in Hg.
      * (* the count stays below k: only the counter changes *)
        intros [= <-].
        assert (f ∈ list_ r) as Hin.
        { destruct (elem_of_app (list_ r) (klist_ r) f) as [Hcase _].
          destruct Hcase as [?|Hin]; [apply Hwf; eauto|done|].
          pose proof (wf_klist_count _ _ Hwf Hin) as Hkc.
          unfold access_count in Hkc. rewrite He in Hkc. lia. }
        destruct Hwf as [Hkr Hnd Hli Hkl Ht].
        split; simpl; [done|done|..].
        -- eapply Forall_impl; [exact Hli|]. intros g (e' & He' & Hp & Hc').
           destruct (decide (f = g)) as [->|Hne].
           ++ simplify_eq. eexists. rewrite lookup_insert_eq.
              split; [done|]. simpl. split; [done|lia].
           ++ exists e'. by rewrite lookup_insert_ne.
        -- apply (Forall_not_elem_of (cache_ok (k_ r) (entries_ r)) _ f); [| |done].
           ++ apply NoDup_app in Hnd as (_ & Hdis & _). by apply Hdis.
           ++ intros g Hne. by apply cache_ok_insert_ne.
        -- intros g Hg. apply Ht. destruct (decide (f = g)) as [->|Hne]; [eauto|].
           by rewrite lookup_insert_ne in Hg.
  - (* a first access *)
    rewrite RecordAccess_first by done. intros [= <-].
    destruct Hwf as [Hkr Hnd Hli Hkl Ht].
    assert (f ∉ list_ r ++ klist_ r) as Hni.
    { intros [Hin|Hin]%elem_of_app.
      - rewrite Forall_forall in Hli. destruct (Hli f Hin) as (e & ? & _). congruence.
      - rewrite Forall_forall in Hkl. destruct (Hkl f Hin) as (e & ? & _). congruence. }
    assert (Hperm : (list_ r ++ [f]) ++ klist_ r ≡ₚ f :: list_ r ++ klist_ r).
    { rewrite <- app_assoc. simpl. by rewrite <- Permutation_middle. }
    rewrite elem_of_app in Hni.
    split; simpl; [done|..].
    + rewrite Hperm. apply NoDup_cons. by rewrite elem_of_app.
    + apply Forall_app. split.
      * apply (Forall_not_elem_of (history_ok (k_ r) (entries_ r)) _ f); [tauto| |done].
        intros g Hne. by apply history_ok_insert_ne.
      * repeat constructor. eexists. rewrite lookup_insert_eq.
        split; [done|]. simpl. split; [done|lia].
    + apply (Forall_not_elem_of (cache_ok (k_ r) (entries_ r)) _ f); [tauto| |done].
      intros g Hne. by apply cache_ok_insert_ne.
    + intros g Hg. rewrite Hperm. destruct (decide (f = g)) as [->|Hne]; [left|].
      rewrite lookup_insert_ne in Hg by done. right. by apply Ht.
Qed.

(** With [k >= 2] every access is defined; with [k <= 1] the second access
    to a frame erases a history-list node through the cache list. *)
Lemma RecordAccess_defined r f :
  wf r → 2 ≤ k_ r → is_Some (RecordAccess evictable_init r f).
Proof.
  intros Hwf Hk. destruct (entries_ r !! f) as [e|] eqn:He.
  - unfold RecordAccess, index_entry. rewrite He.
    case_decide; [eauto|]. unfold erase_at.
    pose proof (wf_k _ Hwf) as Hkr.
    destruct (elem_of_app (list_ r) (klist_ r) f) as [Hcase _].
    destruct Hcase as [Hin|Hin]; [apply Hwf; eauto|..].
    + pose proof (wf_list _ Hwf) as Hl. rewrite Forall_forall in Hl.
      destruct (Hl f Hin) as (e' & He' & Hp' & Hc). simplify_eq.
      rewrite wrap64_small by lia.
      case_decide.
      * rewrite decide_True by done.
        destruct (erase_elem_of (list_ r) f Hin) as [l' ->]. simpl. eauto.
      * rewrite decide_False by lia. eauto.
    + pose proof (wf_klist _ Hwf) as Hl. rewrite Forall_forall in Hl.
      destruct (Hl f Hin) as (e' & He' & Hp' & Hc & Hck). simplify_eq.
      case_decide.
      * exfalso. destruct (decide (count_ e + 1 = 2 ^ 64)) as [Heq|Hne].
        -- unfold wrap64 in *. rewrite Heq, Z.mod_same in * by lia. lia.
        -- rewrite wrap64_small in * by lia. lia.
      * case_decide; [|eauto]. rewrite decide_True by done.
        destruct (erase_elem_of (klist_ r) f Hin) as [l' ->]. simpl. eauto.
  - rewrite RecordAccess_first by done. eauto.
Qed.

(** ** [Size] against the number of evictable tracked frames *)

Lemma ev_size_nonneg es : 0 ≤ ev_size es.
Proof. unfold ev_size. lia. Qed.

Lemma ev_size_delete es f : ev_size (delete f es) = ev_size es - ev_weight (es !! f).
Proof.
  unfold ev_size, ev_weight. rewrite map_filter_delete, map_size_delete.
  destruct (es !! f) as [e|] eqn:He.
  - destruct (evictable_ e) eqn:Hev.
    + rewrite (proj2 (map_lookup_filter_Some _ es f e)) by done.
      assert (size (filter (λ fe : Z * Entry, evictable_ fe.2 = true) es) ≠ 0%nat).
      { intros Hz%map_size_empty_inv.
        assert (filter (λ fe : Z * Entry, evictable_ fe.2 = true) es !! f = Some e) as Hf
          by (by apply map_lookup_filter_Some).
        rewrite Hz, lookup_empty in Hf. done. }
      lia.
    + rewrite (proj2 (map_lookup_filter_None _ es f)); [simpl; lia|].
      right. intros e' He'. simplify_eq. simpl. by rewrite Hev.
  - rewrite (proj2 (map_lookup_filter_None _ es f)); [simpl; lia|]. by left.
Qed.

Lemma ev_size_insert es f e :
  ev_size (<[f:=e]> es) = ev_size es - ev_weight (es !! f) + ev_weight (Some e).
Proof.
  rewrite <- ev_size_delete. unfold ev_size, ev_weight.
  rewrite <- (insert_delete_eq es). rewrite map_filter_insert. case_decide as Hev.
  - simpl in Hev. rewrite Hev. rewrite map_size_insert_None; [lia|].
    apply map_lookup_filter_None. left. apply lookup_delete_eq.
  - simpl in Hev. destruct (evictable_ e); [done|]. rewrite delete_delete_eq. lia.
Qed.

Lemma evictable_count_eq r : evictable_count r = ev_size (entries_ r).
Proof. done. Qed.

(** What each operation does to [curr_size_] and to the number of evictable
    tracked frames.  A first access adds one to [curr_size_] and creates the
    entry with the initial flag: the two numbers stay equal exactly when an
    entry starts evictable. *)
Lemma RecordAccess_first_count r f r' :
  entries_ r !! f = None → curr_size_ r + 1 < 2 ^ 64 → 0 ≤ curr_size_ r →
  RecordAccess evictable_init r f = Some r' →
  Size r' = curr_size_ r + 1
  ∧ evictable_count r' = evictable_count r + (if evictable_init then 1 else 0).
Proof.
  intros He Hov H0. rewrite RecordAccess_first by done. intros [= <-].
  unfold Size. simpl. rewrite wrap64_small by lia. split; [done|].
  rewrite !evictable_count_eq. simpl. rewrite ev_size_insert, He. simpl. lia.
Qed.

Lemma RecordAccess_again_count r f e r' :
  entries_ r !! f = Some e → 1 ≤ count_ e → count_ e + 1 < 2 ^ 64 →
  RecordAccess evictable_init r f = Some r' →
  Size r' = Size r ∧ evictable_count r' = evictable_count r.
Proof.
  intros He Hov Hc. unfold RecordAccess, index_entry. rewrite He.
  rewrite wrap64_small by lia. rewrite !evictable_count_eq.
  assert (∀ p, ev_size (<[f:=mkEntry (count_ e + 1) (evictable_ e) p]> (entries_ r))
               = ev_size (entries_ r)) as Hsame.
  { intros p. rewrite ev_size_insert, He. simpl. lia. }
  case_decide; [lia|].
  repeat case_decide.
  - destruct (erase_at _ _ _ _); simpl; [|done]. intros [= <-]. simpl. by rewrite Hsame.
  - destruct (erase_at _ _ _ _); simpl; [|done]. intros [= <-]. simpl. by rewrite Hsame.
  - intros [= <-]. simpl. by rewrite Hsame.
Qed.

Lemma SetEvictable_count r f b :
  Size r = evictable_count r → evictable_count r + 1 < 2 ^ 64 →
  Size (SetEvictable r f b) = evictable_count (SetEvictable r f b).
Proof.
  unfold Size, SetEvictable. rewrite !evictable_count_eq. intros Hs Hov.
  destruct (entries_ r !! f) as [e|] eqn:He; [|done]. simpl.
  rewrite ev_size_insert, He. simpl.
  pose proof (ev_size_nonneg (delete f (entries_ r))) as Hd.
  rewrite ev_size_delete, He in Hd. simpl in Hd.
  destruct (evictable_ e), b; simpl; rewrite ?wrap64_small; lia.
Qed.

Lemma Evict_count r r' f :
  wf r → Size r = evictable_count r → evictable_count r < 2 ^ 64 →
  Evict evictable_init r = Some (r', Some f) →
  Size r' = evictable_count r'.
Proof.
  intros Hwf Hs Hov Hev.
  destruct (Evict_unfold r Hwf) as (r0 & Hr0 & Hres).
  rewrite Hr0 in Hev. injection Hev as -> Hv. rewrite Hv in Hres.
  destruct Hres as [He' Hc'].
  destruct (victim_elem_of _ _ Hv) as (Hevf & _).
  pose proof (ev_size_nonneg (delete f (entries_ r))) as Hd.
  unfold Size in *. rewrite evictable_count_eq in *.
  rewrite He', Hc'. rewrite ev_size_delete in *.
  unfold is_evictable in Hevf. destruct (entries_ r !! f) as [e|]; [|done].
  simpl in *. rewrite Hevf in *. rewrite wrap64_small; lia.
Qed.

Lemma Remove_count r f r' :
  Size r = evictable_count r → evictable_count r < 2 ^ 64 →
  Remove r f = Some (Removed r') →
  Size r' = evictable_count r'.
Proof.
  unfold Size, Remove. rewrite !evictable_count_eq. intros Hs Hov.
  destruct (entries_ r !! f) as [e|] eqn:He; [|by intros [= <-]].
  destruct (evictable_ e) eqn:Hev; simpl; [|done].
  destruct (if decide (count_ e < k_ r) then _ else _) as [lists|]; simpl; [|done].
  intros [= <-]. simpl.
  pose proof (ev_size_nonneg (delete f (entries_ r))) as Hd.
  rewrite ev_size_delete, He in *. simpl in *. rewrite Hev in *.
  rewrite wrap64_small; lia.
Qed.

(** ** Every state reached by a sequence of calls satisfies the invariant *)

Lemma access_count_nonneg r f : wf r → 0 ≤ access_count r f.
Proof.
  intros Hwf. unfold access_count. destruct (entries_ r !! f) as [e|] eqn:He; [|done].
  pose proof (wf_count_pos _ _ _ Hwf He). lia.
Qed.

Lemma wrap64_le z : 0 ≤ z → wrap64 z ≤ z.
Proof. intros Hz. unfold wrap64. apply Z.mod_le; lia. Qed.

Lemma RecordAccess_bounded r f r' n :
  wf r → bounded n r → RecordAccess evictable_init r f = Some r' → bounded (n + 1) r'.
Proof.
  intros Hwf Hb Hra g. pose proof (Hb g) as Hg. pose proof (Hb f) as Hf.
  pose proof (access_count_nonneg r f Hwf) as Hf0.
  assert (∃ p ev, entries_ r' = <[f := mkEntry (wrap64 (access_count r f + 1)) ev p]>
                                   (entries_ r)) as (p & ev & Hes).
  { revert Hra. unfold access_count. destruct (entries_ r !! f) as [e|] eqn:He.
    - unfold RecordAccess, index_entry. rewrite He.
      repeat case_decide; try (destruct (erase_at _ _ _ _); simpl; [|done]);
        intros [= <-]; simpl; eauto.
    - rewrite RecordAccess_first by done. intros [= <-]. simpl.
      exists PosList, evictable_init. done. }
  unfold access_count at 1. rewrite Hes. destruct (decide (f = g)) as [<-|Hne].
  - rewrite lookup_insert_eq. simpl. pose proof (wrap64_le (access_count r f + 1)). lia.
  - rewrite lookup_insert_ne by done. fold (access_count r g). lia.
Qed.

Lemma bounded_delete r r' f n :
  0 ≤ n → bounded n r → entries_ r' = delete f (entries_ r) → bounded n r'.
Proof.
  intros Hn Hb Hes g. unfold access_count. rewrite Hes.
  destruct (decide (f = g)) as [<-|Hne].
  - by rewrite lookup_delete_eq.
  - rewrite lookup_delete_ne by done. apply Hb.
Qed.

Lemma SetEvictable_bounded r f b n : bounded n r → bounded n (SetEvictable r f b).
Proof.
  intros Hb g. pose proof (Hb g) as Hg. unfold SetEvictable.
  destruct (entries_ r !! f) as [e|] eqn:He; [|done].
  unfold access_count in *. simpl. destruct (decide (f = g)) as [<-|Hne].
  - rewrite lookup_insert_eq. simpl. by rewrite He in Hg.
  - by rewrite lookup_insert_ne.
Qed.

Lemma Remove_entries r f r' :
  Remove r f = Some (Removed r') →
  r' = r ∨ entries_ r' = delete f (entries_ r).
Proof.
  unfold Remove. destruct (entries_ r !! f) as [e|]; [|intros [= <-]; by left].
  destruct (evictable_ e); simpl; [|done].
  destruct (if decide (count_ e < k_ r) then _ else _) as [lists|]; simpl; [|done].
  intros [= <-]. by right.
Qed.

Lemma call_wf r c r' n :
  wf r → bounded n r → n + 1 < 2 ^ 64 →
  call evictable_init r c = Some r' → wf r' ∧ bounded (n + 1) r'.
Proof.
  intros Hwf Hb Hn. pose proof (access_count_nonneg r 0 Hwf). pose proof (Hb 0).
  assert (bounded (n + 1) r) as Hb1 by (intros g; pose proof (Hb g); lia).
  destruct c as [f|f b| |f]; simpl.
  - intros Hra. split; [|by eapply RecordAccess_bounded].
    eapply RecordAccess_wf; [done| |done]. pose proof (Hb f). lia.
  - intros [= <-]. split; [by apply SetEvictable_wf|by apply SetEvictable_bounded].
  - destruct (Evict_unfold r Hwf) as (r0 & Hr0 & Hres). rewrite Hr0. simpl.
    intros [= <-]. split; [by eapply Evict_wf|].
    destruct (victim r) as [f|]; [|by subst].
    destruct Hres as [Hes _]. eapply bounded_delete; [lia|done..].
  - destruct (Remove r f) as [[r0|]|] eqn:Hrem; simpl; [| |done]; intros [= <-].
    + split; [by eapply Remove_wf|].
      destruct (Remove_entries _ _ _ Hrem) as [->|Hes]; [done|].
      eapply bounded_delete; [lia|done..].
    + done.
Qed.

Lemma run_wf cs r r' n :
  wf r → bounded n r → n + Z.of_nat (length cs) < 2 ^ 64 →
  run evictable_init cs r = Some r' →
  wf r' ∧ bounded (n + Z.of_nat (length cs)) r'.
Proof.
  revert r n. induction cs as [|c cs IH]; intros r n Hwf Hb Hn.
  - intros [= <-]. split; [done|]. intros g. pose proof (Hb g). simpl. lia.
  - change (length (c :: cs)) with (S (length cs)) in *. rewrite Nat2Z.inj_succ in *.
    cbn [run].
    destruct (call evictable_init r c) as [r1|] eqn:Hc; simpl; [|done]. intros Hrun.
    destruct (call_wf r c r1 n) as [Hwf1 Hb1]; [done|done|lia|done|].
    destruct (IH r1 (n + 1)) as [Hwf' Hb']; [done|done|lia|done|].
    split; [done|]. intros g. pose proof (Hb' g). lia.
Qed.

Lemma new_replacer_bounded n k : bounded 0 (new_replacer n k).
Proof. intros f. unfold access_count. simpl. by rewrite lookup_empty. Qed.

End proofs.

(** ** [Size] when entries start evictable *)

Lemma ev_weight_range o : 0 ≤ ev_weight o ≤ 1.
Proof. unfold ev_weight. destruct o as [e|]; [destruct (evictable_ e)|]; lia. Qed.

Lemma call_counted r c r' n :
  wf r → bounded n r → n + 1 < 2 ^ 64 → counted n r →
  call true r c = Some r' → counted (n + 1) r'.
Proof.
  intros Hwf Hb Hn [Hs Hc].
  pose proof (ev_size_nonneg (entries_ r)) as H0. rewrite <- evictable_count_eq in H0.
  destruct c as [f|f b| |f]; simpl.
  - intros Hra. destruct (entries_ r !! f) as [e|] eqn:He.
    + pose proof (wf_count_pos _ _ _ Hwf He) as He1.
      pose proof (Hb f) as Hf. unfold access_count in Hf. rewrite He in Hf.
      destruct (RecordAccess_again_count true r f e r') as [Hs' Hc']; [done|done|lia|done|].
      split; lia.
    + unfold Size in Hs.
      destruct (RecordAccess_first_count true r f r') as [Hs' Hc']; [done|lia|lia|done|].
      split; lia.
  - intros [= <-]. split; [apply SetEvictable_count; [done|lia]|].
    unfold SetEvictable. destruct (entries_ r !! f) as [e|] eqn:He; [|lia].
    rewrite !evictable_count_eq in *. simpl. rewrite ev_size_insert.
    pose proof (ev_weight_range (entries_ r !! f)).
    pose proof (ev_weight_range (Some (mkEntry (count_ e) b (pos_ e)))). lia.
  - destruct (Evict_unfold true r Hwf) as (r0 & Hr0 & Hres). rewrite Hr0. simpl.
    intros [= <-]. destruct (victim r) as [f|] eqn:Hv; [|subst; split; lia].
    split; [eapply (Evict_count true r r0 f); [done|done|lia|done]|].
    destruct Hres as [Hes _]. rewrite !evictable_count_eq in *. rewrite Hes, ev_size_delete.
    pose proof (ev_weight_range (entries_ r !! f)). lia.
  - destruct (Remove r f) as [[r0|]|] eqn:Hrem; simpl; [| |done]; intros [= <-].
    + split; [eapply Remove_count; [done| |done]; lia|].
      destruct (Remove_entries _ _ _ Hrem) as [->|Hes]; [lia|].
      rewrite !evictable_count_eq in *. rewrite Hes, ev_size_delete.
      pose proof (ev_weight_range (entries_ r !! f)). lia.
    + split; lia.
Qed.

Lemma run_counted cs r r' n :
  wf r → bounded n r → counted n r → n + Z.of_nat (length cs) < 2 ^ 64 →
  run true cs r = Some r' → Size r' = evictable_count r'.
Proof.
  revert r n. induction cs as [|c cs IH]; intros r n Hwf Hb Hc Hn.
  - intros [= <-]. apply Hc.
  - change (length (c :: cs)) with (S (length cs)) in *. rewrite Nat2Z.inj_succ in *.
    cbn [run]. destruct (call true r c) as [r1|] eqn:Hcall; simpl; [|done].
    destruct (call_wf true r c r1 n) as [Hwf1 Hb1]; [done|done|lia|done|].
    apply (IH r1 (n + 1)); [done|done| |lia].
    apply (call_counted r c r1 n); [done|done|lia|done|done].
Qed.

(** C7, as amended.  After any sequence of [RecordAccess], [SetEvictable],
    [Evict] and [Remove] calls on a new replacer, [Size()] is the number of
    tracked frames whose evictable flag is set, when a first-time
    [RecordAccess] creates its entry evictable: the call adds one to
    [curr_size_] for the frame it starts to track. *)
Theorem Size_counts_evictable_frames cs num_frames k r :
  0 ≤ k < 2 ^ 64 → Z.of_nat (length cs) < 2 ^ 64 →
  run true cs (new_replacer num_frames k) = Some r →
  Size r = evictable_count r.
Proof.
  intros Hk Hlen Hrun.
  apply (run_counted cs (new_replacer num_frames k) r 0); [| | |lia|done].
  - by apply new_replacer_wf.
  - apply new_replacer_bounded.
  - split; [done|]. by vm_compute.
Qed.

Lemma Size_counts_evictable_frames_witness :
  Size (mixed_replacer true) = 2 ∧ Size (mixed_replacer true) = evictable_count (mixed_replacer true).
Proof.
  split; [by vm_compute|].
  apply (Size_counts_evictable_frames mixed_calls 7 2 (mixed_replacer true)); by vm_compute.
Defined.

(** C7, as stated, fails at the first call.  After [RecordAccess(1)] on a
    new replacer [Size()] is 1.  When the entry is created non-evictable,
    as the claim has it, no tracked frame is evictable and [Size()] is off
    by one; when the entry is created evictable the two numbers agree but
    the entry is not non-evictable. *)
Lemma Size_after_first_access_of_non_evictable_entry :
  Size (first_access false) = 1
  ∧ evictable_count (first_access false) = 0
  ∧ ¬ (is_evictable (first_access false) 1 = false
       ∧ Size (first_access false) = evictable_count (first_access false))
  ∧ ¬ (is_evictable (first_access true) 1 = false
       ∧ Size (first_access true) = evictable_count (first_access true)).
Proof.
  split_and!; [by vm_compute..| |].
  - intros [_ H]. by vm_compute in H.
  - intros [H _]. by vm_compute in H.
Qed.

Lemma Evict_selects_victim_witness :
  victim (mixed_replacer false) = Some 3
  ∧ first_evictable (mixed_replacer false) (klist_ (mixed_replacer false)) = Some 2
  ∧ ∃ r', Evict false (mixed_replacer false) = Some (r', victim (mixed_replacer false)).
Proof.
  split; [by vm_compute|]. split; [by vm_compute|].
  apply (Evict_selects_victim false (mixed_replacer false)).
  apply (run_wf false mixed_calls (new_replacer 7 2) (mixed_replacer false) 0).
  - apply new_replacer_wf. lia.
  - apply new_replacer_bounded.
  - by vm_compute.
  - by vm_compute.
Defined.

End LRUKReplacerProofs.

Module BufferPoolManagerProofs.
Import BufferPoolManager.
Section proofs.
Context {Data : Type}.
Variable zero_data : Data.
Variable hash : Z → Z.
Variable evictable_init : bool.
Implicit Types (s : BPM (Data:=Data)) (p : Page (Data:=Data)).

Lemma at_index_Some {A} (l : list A) i x :
  at_index l i = Some x → 0 ≤ i < Z.of_nat (length l) ∧ l !! Z.to_nat i = Some x.
Proof.
  unfold at_index. case_decide; [|done]. intros Hl. split; [|done].
  apply lookup_lt_Some in Hl. lia.
Qed.

Lemma set_index_defined {A} (l : list A) i x :
  0 ≤ i < Z.of_nat (length l) → set_index l i x = Some (<[Z.to_nat i := x]> l).
Proof. intros Hi. unfold set_index. by rewrite decide_True. Qed.

Lemma at_index_insert {A} (l : list A) i x :
  0 ≤ i < Z.of_nat (length l) → at_index (<[Z.to_nat i := x]> l) i = Some x.
Proof.
  intros Hi. unfold at_index. rewrite decide_True by lia.
  apply list_lookup_insert_eq. lia.
Qed.

Lemma recycle_spec s frame_id victim :
  at_index (pages_ s) frame_id = Some victim →
  ExtendibleHashTable.wf (page_table_ s) →
  ∃ t', ExtendibleHashTable.wf t'
    ∧ ExtendibleHashTable.global_depth_ t'
      = ExtendibleHashTable.global_depth_ (page_table_ s)
    ∧ recycle zero_data hash s frame_id =
      Some (mkBPM (pool_size_ s)
              (<[Z.to_nat frame_id :=
                   mkPage (page_id_ victim) zero_data (pin_count_ victim) false]> (pages_ s))
              t' (replacer_ s) (free_list_ s) (next_page_id_ s)
              (writeback_disk victim (disk_ s))
              (log_ s ++ writeback_events victim
                 ++ [EvResetMemory frame_id; EvTableRemove (page_id_ victim)])).
Proof.
  intros Hat Hwf. apply at_index_Some in Hat as Hrange. destruct Hrange as [Hrange _].
  destruct (ExtendibleHashTableProofs.Remove_defined hash (page_table_ s) (page_id_ victim) Hwf)
    as (t' & b & Hrem & Hwf' & Hgd).
  exists t'. split_and!; [done..|].
  unfold recycle, writeback_events, writeback_disk. rewrite Hat. simpl.
  destruct (is_dirty_ victim) eqn:Hd; simpl;
    unfold store_page; simpl; rewrite set_index_defined by done; simpl;
    unfold table_remove; simpl; rewrite Hrem; simpl;
    unfold emit, set_page_table, set_pages; simpl;
    rewrite <- ?app_assoc; simpl; try rewrite Hd; done.
Qed.

(** C8.  On the eviction path (free list empty, the replacer names a
    victim frame) [NewPage] and [FetchPage] return the victim frame, and
    the calls they make are, in this order: [WritePage] of the victim's
    bytes under the victim's page id when the victim is dirty and no write
    at all when it is clean, then [ResetMemory] of the frame, then the
    removal of the victim's directory entry, then (for [FetchPage]) the read
    of the requested page, then the directory entry of the new page.  The
    disk holds the victim's bytes afterwards when it was dirty and is
    unchanged when it was clean. *)
Theorem eviction_writes_dirty_victim_first s r frame_id victim :
  free_list_ s = [] →
  LRUKReplacer.Evict evictable_init (replacer_ s) = Some (r, Some frame_id) →
  at_index (pages_ s) frame_id = Some victim →
  ExtendibleHashTable.wf (page_table_ s) →
  ExtendibleHashTable.global_depth_ (page_table_ s) < 30 →
  (∃ s', NewPage zero_data hash evictable_init s
           = Some (s', Some (next_page_id_ s, frame_id))
     ∧ log_ s' = log_ s ++ writeback_events victim
                  ++ [EvResetMemory frame_id; EvTableRemove (page_id_ victim);
                      EvTableInsert (next_page_id_ s) frame_id]
     ∧ disk_ s' = writeback_disk victim (disk_ s)
     ∧ at_index (pages_ s') frame_id
       = Some (mkPage (next_page_id_ s) zero_data (pin_count_ victim + 1) false))
  ∧ (∀ page_id,
       ExtendibleHashTable.Find hash (page_table_ s) page_id = Some None →
       ∃ s', FetchPage zero_data hash evictable_init s page_id = Some (s', Some frame_id)
         ∧ log_ s' = log_ s ++ writeback_events victim
                      ++ [EvResetMemory frame_id; EvTableRemove (page_id_ victim);
                          EvReadPage page_id; EvTableInsert page_id frame_id]
         ∧ disk_ s' = writeback_disk victim (disk_ s)
         ∧ at_index (pages_ s') frame_id
           = Some (mkPage page_id (disk_read zero_data (writeback_disk victim (disk_ s)) page_id)
                     (pin_count_ victim + 1) false)).
Proof.
  intros Hfree Hev Hat Hwf Hgd.
  apply at_index_Some in Hat as Hrange. destruct Hrange as [Hrange _].
  destruct (recycle_spec (set_replacer s r) frame_id victim Hat Hwf)
    as (t' & Hwf' & Hgd' & Hrec). simpl in Hgd', Hrec.
  pose proof (LRUKReplacerProofs.Evict_victim_untracked _ _ _ _ Hev) as Hun.
  assert (Hacq : acquire_frame zero_data hash evictable_init s
                 = (λ s1, (s1, Some frame_id))
                     <$> recycle zero_data hash (set_replacer s r) frame_id).
  { unfold acquire_frame. rewrite Hfree, Hev. simpl. by destruct (recycle _ _ _ _). }
  rewrite Hrec in Hacq. simpl in Hacq.
  split.
  - destruct (ExtendibleHashTableProofs.Insert_defined hash t' (next_page_id_ s) frame_id)
      as [t'' Hins]; [done|lia|].
    unfold NewPage. rewrite Hacq. simpl.
    rewrite at_index_insert by done. simpl.
    unfold store_page. simpl. rewrite set_index_defined by (by rewrite length_insert). simpl.
    unfold touch. simpl. rewrite LRUKReplacerProofs.RecordAccess_first by done. simpl.
    unfold table_insert. simpl. rewrite Hins. simpl.
    eexists. split; [done|]. simpl. split_and!.
    + rewrite <- !app_assoc. done.
    + done.
    + rewrite list_insert_insert_eq. by rewrite at_index_insert.
  - intros page_id Hfind.
    destruct (ExtendibleHashTableProofs.Insert_defined hash t' page_id frame_id)
      as [t'' Hins]; [done|lia|].
    unfold FetchPage. rewrite Hfind. simpl. rewrite Hacq. simpl.
    rewrite at_index_insert by done. simpl.
    unfold store_page. simpl. rewrite set_index_defined by (by rewrite length_insert). simpl.
    unfold touch. simpl. rewrite LRUKReplacerProofs.RecordAccess_first by done. simpl.
    rewrite list_insert_insert_eq. rewrite at_index_insert by done. simpl.
    rewrite set_index_defined by (by rewrite length_insert). simpl.
    unfold table_insert. simpl. rewrite Hins. simpl.
    eexists. split; [done|]. simpl. split_and!.
    + rewrite <- !app_assoc. done.
    + done.
    + rewrite list_insert_insert_eq. by rewrite at_index_insert.
Qed.

(** What [UnpinPage] does on a resident, pinned page: the dirty hint is
    folded into the flag only by the call that releases the last pin. *)
Lemma UnpinPage_resident s page_id is_dirty frame_id p :
  ExtendibleHashTable.Find hash (page_table_ s) page_id = Some (Some frame_id) →
  at_index (pages_ s) frame_id = Some p →
  0 < pin_count_ p →
  ∃ s', UnpinPage hash s page_id is_dirty = Some (s', true)
    ∧ at_index (pages_ s') frame_id
      = Some (mkPage (page_id_ p) (data_ p) (pin_count_ p - 1)
                (if decide (pin_count_ p = 1) then is_dirty_ p || is_dirty
                 else is_dirty_ p))
    ∧ replacer_ s'
      = (if decide (pin_count_ p = 1)
         then LRUKReplacer.SetEvictable (replacer_ s) frame_id true
         else replacer_ s).
Proof.
  intros Hfind Hat Hpin.
  apply at_index_Some in Hat as Hrange. destruct Hrange as [Hrange _].
  unfold UnpinPage. rewrite Hfind. simpl. rewrite Hat. simpl.
  rewrite decide_False by lia.
  unfold store_page. rewrite set_index_defined by done. simpl.
  destruct (decide (pin_count_ p - 1 = 0)) as [H0|H0].
  - rewrite set_index_defined by (by rewrite length_insert). simpl.
    eexists. split; [done|]. simpl. rewrite !decide_True by lia.
    rewrite list_insert_insert_eq. by rewrite at_index_insert.
  - eexists. split; [done|]. simpl. rewrite !decide_False by lia.
    by rewrite at_index_insert.
Qed.

(** [UnpinPage] fails on a page that is not resident or not pinned. *)
Lemma UnpinPage_fails s page_id is_dirty :
  (ExtendibleHashTable.Find hash (page_table_ s) page_id = Some None
   ∨ ∃ frame_id p,
       ExtendibleHashTable.Find hash (page_table_ s) page_id = Some (Some frame_id)
       ∧ at_index (pages_ s) frame_id = Some p ∧ pin_count_ p ≤ 0) →
  UnpinPage hash s page_id is_dirty = Some (s, false).
Proof.
  unfold UnpinPage. intros [->|(frame_id & p & -> & Hat & Hpin)]; simpl; [done|].
  rewrite Hat. simpl. by rewrite decide_True.
Qed.

(** [DeletePage] on a resident page: success, and nothing else happens,
    whatever the pin count and the dirty flag. *)
Lemma DeletePage_resident s page_id frame_id :
  ExtendibleHashTable.Find hash (page_table_ s) page_id = Some (Some frame_id) →
  DeletePage zero_data hash s page_id = Some (s, true).
Proof. intros Hfind. unfold DeletePage. by rewrite Hfind. Qed.

(** [DeletePage] on a page that is not resident reads the frame at index
    [-1]: the call is undefined. *)
Lemma DeletePage_not_resident s page_id :
  ExtendibleHashTable.Find hash (page_table_ s) page_id = Some None →
  DeletePage zero_data hash s page_id = None.
Proof. intros Hfind. unfold DeletePage. by rewrite Hfind. Qed.

End proofs.

Import PoolExamples.

Lemma eviction_writes_dirty_victim_first_witness :
  (∃ s', NewPage 0 hash_int false s2_pool = Some (s', Some (1, 0))
         ∧ log_ s' = log_ s2_pool
                     ++ [EvWritePage 0 42; EvResetMemory 0; EvTableRemove 0;
                         EvTableInsert 1 0]
         ∧ disk_ s' !! 0 = Some 42)
  ∧ (∃ s', FetchPage 0 hash_int false s2_pool 5 = Some (s', Some 0)
           ∧ log_ s' = log_ s2_pool
                       ++ [EvWritePage 0 42; EvResetMemory 0; EvTableRemove 0;
                           EvReadPage 5; EvTableInsert 5 0]).
Proof.
  destruct (eviction_writes_dirty_victim_first 0 hash_int false s2_pool
              s2_replacer_evicted 0 (mkPage 0 42 0 true)) as [HNew HFetch].
  - by vm_compute.
  - by vm_compute.
  - by vm_compute.
  - split; [by vm_compute|done|].
    repeat constructor. eexists. split; [done|]. by vm_compute.
  - by vm_compute.
  - split.
    + destruct HNew as (s' & HN & Hlog & Hdisk & _). exists s'.
      split; [exact HN|]. split; [exact Hlog|]. rewrite Hdisk. by vm_compute.
    + destruct (HFetch 5) as (s' & HF & Hlog & _); [by vm_compute|].
      exists s'. split; [exact HF|exact Hlog].
Defined.

(** C3, at the failing input.  Page 0 is resident with pin count 2 and
    clean; [UnpinPage(0, true)] returns true and leaves pin count 1, and the
    dirty flag is still false: the hint is dropped because the pin count
    did not reach zero. *)
Theorem UnpinPage_drops_dirty_hint :
  frame_of hash_int pinned_twice 0 = Some (mkPage 0 0 2 false)
  ∧ ∃ s', UnpinPage hash_int pinned_twice 0 true = Some (s', true)
          ∧ frame_of hash_int s' 0 = Some (mkPage 0 0 1 false).
Proof. split; [by vm_compute|]. eexists. split; vm_compute; reflexivity. Qed.

(** C4, at the failing inputs.  On the resident page 0 with pin count 1
    [DeletePage] returns true instead of false; on the resident page 0 with
    pin count 0 and dirty it returns true and nothing is written, removed or
    freed; on a page that is not resident the call is undefined. *)
Theorem DeletePage_returns_early_when_resident :
  frame_of hash_int pinned_once 0 = Some (mkPage 0 0 1 false)
  ∧ DeletePage 0 hash_int pinned_once 0 = Some (pinned_once, true)
  ∧ frame_of hash_int released_dirty 0 = Some (mkPage 0 0 0 true)
  ∧ DeletePage 0 hash_int released_dirty 0 = Some (released_dirty, true)
  ∧ ExtendibleHashTable.Find hash_int (page_table_ pinned_once) 7 = Some None
  ∧ DeletePage 0 hash_int pinned_once 7 = None.
Proof. repeat apply conj; vm_compute; reflexivity. Qed.

End BufferPoolManagerProofs.

Module BPlusTreeProofs.
Import BPlusTree.
Section proofs.
Context {KeyType ValueType : Type}.
Variable comparator : KeyType → KeyType → Z.
Variable zero_key : KeyType.
Variable zero_value : ValueType.
Variable default_pair : KeyType * ValueType.

Lemma slot_insert {V} (zero : KeyType * V) (a : gmap Z (KeyType * V)) i j x :
  slot zero (<[i := x]> a) j = if decide (i = j) then x else slot zero a j.
Proof.
  unfold slot. case_decide as Hij.
  - subst. by rewrite lookup_insert_eq.
  - by rewrite lookup_insert_ne.
Qed.

(** The shifting loop moves the slots [i - n .. i - 1] one place to the
    right and leaves every other slot alone. *)
Lemma shift_right_slot {V} (zero : KeyType * V) n i (a : gmap Z (KeyType * V)) j :
  slot zero (shift_right zero n i a) j
  = if decide (i - Z.of_nat n < j ≤ i) then slot zero a (j - 1) else slot zero a j.
Proof.
  revert i a. induction n as [|n IH]; intros i a.
  - simpl. rewrite decide_False by lia. done.
  - cbn [shift_right]. rewrite IH, !slot_insert.
    repeat case_decide; try lia; try done; by subst.
Qed.

(** The binary searches end within the fuel they are given. *)
Lemma Leaf_KeyIndex_loop_defined fuel (p : LeafPage (KeyType:=KeyType) (ValueType:=ValueType))
  key l r ret :
  r - l < Z.of_nat fuel →
  is_Some (Leaf_KeyIndex_loop comparator zero_key zero_value fuel p key l r ret).
Proof.
  revert l r ret. induction fuel as [|fuel IH]; intros l r ret Hfuel; simpl.
  - rewrite decide_False by lia. eauto.
  - case_decide as Hlr; [|eauto].
    assert (0 ≤ (r - l) `quot` 2 ≤ r - l) by (Z.quot_rem_to_equations; lia).
    case_decide; apply IH; lia.
Qed.

Lemma Leaf_KeyIndex_defined (p : LeafPage (KeyType:=KeyType) (ValueType:=ValueType)) key :
  is_Some (Leaf_KeyIndex comparator zero_key zero_value p key).
Proof. apply Leaf_KeyIndex_loop_defined. lia. Qed.

Lemma Internal_Lookup_loop_defined fuel (p : InternalPage (KeyType:=KeyType)) key l r ret :
  r - l < Z.of_nat fuel →
  is_Some (Internal_Lookup_loop comparator zero_key fuel p key l r ret).
Proof.
  revert l r ret. induction fuel as [|fuel IH]; intros l r ret Hfuel; simpl.
  - rewrite decide_False by lia. eauto.
  - case_decide as Hlr; [|eauto].
    assert (0 ≤ (r - l) `quot` 2 ≤ r - l) by (Z.quot_rem_to_equations; lia).
    case_decide; apply IH; lia.
Qed.

Lemma Internal_Lookup_defined (p : InternalPage (KeyType:=KeyType)) key :
  is_Some (Internal_Lookup comparator zero_key p key).
Proof.
  unfold Internal_Lookup.
  destruct (Internal_Lookup_loop_defined (Z.to_nat (size_ (internal_header p))) p key
              1 (size_ (internal_header p) - 1) 0) as [ret ->]; [lia|]. simpl. eauto.
Qed.

(** A leaf's [Insert] and [Lookup] always return. *)
Lemma Leaf_Insert_defined (p : LeafPage (KeyType:=KeyType) (ValueType:=ValueType)) key value :
  is_Some (Leaf_Insert comparator zero_key zero_value default_pair p key value).
Proof.
  unfold Leaf_Insert. destruct (Leaf_KeyIndex_defined p key) as [i ->]. simpl.
  case_decide; eauto.
Qed.

Lemma Leaf_Lookup_defined (p : LeafPage (KeyType:=KeyType) (ValueType:=ValueType)) key :
  is_Some (Leaf_Lookup comparator zero_key zero_value p key).
Proof.
  unfold Leaf_Lookup. destruct (Leaf_KeyIndex_defined p key) as [i ->]. simpl.
  repeat case_decide; eauto.
Qed.

Lemma ValueIndex_from_absent n (p : InternalPage (KeyType:=KeyType)) value i :
  (∀ j, i ≤ j < i + Z.of_nat n → Internal_ValueAt zero_key p j ≠ value) →
  ValueIndex_from zero_key n p value i = -1.
Proof.
  revert i. induction n as [|n IH]; intros i Habs; simpl; [done|].
  rewrite decide_False by (apply Habs; lia). apply IH. intros j Hj. apply Habs. lia.
Qed.

(** C10.  When [old_value] is not the child of any slot of an internal
    node, [ValueIndex] returns [-1] and [InsertAfterNode] does not fail: it
    writes [(key, new_value)] to slot 0 and moves every entry of the node,
    the child-only slot 0 included, one slot to the right; the size grows by
    one. *)
Theorem InsertAfterNode_unknown_child_inserts_at_slot_0
  (p : InternalPage (KeyType:=KeyType)) old_value key new_value :
  (∀ i, 0 ≤ i < size_ (internal_header p) → Internal_ValueAt zero_key p i ≠ old_value) →
  ValueIndex zero_key p old_value = -1
  ∧ size_ (internal_header (InsertAfterNode zero_key p old_value key new_value))
    = size_ (internal_header p) + 1
  ∧ slot (internal_zero zero_key)
      (internal_array (InsertAfterNode zero_key p old_value key new_value)) 0
    = (key, new_value)
  ∧ ∀ i, 0 ≤ i < size_ (internal_header p) →
      slot (internal_zero zero_key)
        (internal_array (InsertAfterNode zero_key p old_value key new_value)) (i + 1)
      = slot (internal_zero zero_key) (internal_array p) i.
Proof.
  intros Habs.
  assert (ValueIndex zero_key p old_value = -1) as Hvi.
  { apply ValueIndex_from_absent. intros j Hj. apply Habs. lia. }
  split; [done|]. unfold InsertAfterNode. rewrite Hvi. simpl.
  split; [done|]. split.
  - by rewrite slot_insert, decide_True.
  - intros i Hi. rewrite slot_insert, decide_False by lia.
    rewrite shift_right_slot. rewrite decide_True by lia. f_equal. lia.
Qed.

(** [Insert] on a leaf just initialised on zeroed memory: the slot 0
    receives [MappingType{}], not the pair given. *)
Lemma Leaf_Insert_fresh page_id parent_id max_size key (value : ValueType) :
  comparator zero_key key ≠ 0 →
  Leaf_Insert comparator zero_key zero_value default_pair
    (Leaf_Init ∅ page_id parent_id max_size) key value
  = Some (mkLeaf (mkHeader LEAF_PAGE 1 max_size parent_id page_id) INVALID_PAGE_ID
            (<[0 := default_pair]> ∅), 1).
Proof.
  intros Hkey. unfold Leaf_Insert, Leaf_KeyIndex. simpl.
  assert (Leaf_KeyAt zero_key zero_value (Leaf_Init ∅ page_id parent_id max_size) 0 = zero_key)
    as -> by done.
  by rewrite decide_False.
Qed.

Lemma Leaf_Lookup_single h next (pair : KeyType * ValueType) key :
  size_ h = 1 →
  Leaf_Lookup comparator zero_key zero_value (mkLeaf h next (<[0 := pair]> ∅)) key
  = Some (if decide (comparator pair.1 key ≠ 0) then None else Some pair.2).
Proof.
  intros Hsize. unfold Leaf_Lookup, Leaf_KeyIndex. simpl. rewrite Hsize. simpl.
  assert (∀ i, i = 0 →
            slot (leaf_zero zero_key zero_value) (<[0 := pair]> ∅) i = pair) as Hslot.
  { intros i ->. unfold slot. by rewrite lookup_insert_eq. }
  unfold Leaf_KeyAt, Leaf_ValueAt. simpl.
  change ((1 - 1 - 0) `quot` 2 + 0) with 0.
  rewrite (Hslot 0) by done.
  destruct (decide (comparator pair.1 key ≤ 0)); simpl;
    rewrite ?(Hslot 0) by done;
    by destruct (decide (comparator pair.1 key ≠ 0)).
Qed.

Lemma FindLeaf_loop_leaf fuel (t : Tree (KeyType:=KeyType) (ValueType:=ValueType))
  key leftMost rightMost page p :
  FindLeaf_loop comparator zero_key fuel t key leftMost rightMost page (LeafNode p)
  = Some page.
Proof. by destruct fuel. Qed.

(** The first insertion into an empty tree stores [MappingType{}] in slot 0
    of the new root leaf, not the pair it was given: a lookup of the key
    afterwards compares it with the key of the value-initialised pair, and
    can only ever return that pair's value. *)
Lemma Insert_into_empty_tree_stores_default_pair
  (t : Tree (KeyType:=KeyType) (ValueType:=ValueType)) key value :
  IsEmpty t = true →
  comparator zero_key key ≠ 0 →
  ∃ t', Insert comparator zero_key zero_value default_pair t key value = Some (t', true)
    ∧ GetValue comparator zero_key zero_value t' key []
      = Some (if decide (comparator default_pair.1 key ≠ 0)
              then (false, []) else (true, [default_pair.2])).
Proof.
  intros Hempty Hkey. unfold Insert. rewrite Hempty.
  unfold StartNewTree. simpl. rewrite Leaf_Insert_fresh by done. simpl.
  eexists. split; [done|].
  unfold GetValue, FindLeaf, fetch_leaf. simpl. rewrite lookup_insert_eq. simpl.
  rewrite FindLeaf_loop_leaf. simpl.
  rewrite lookup_insert_eq. simpl. rewrite Leaf_Lookup_single by done. simpl.
  by destruct (decide (comparator default_pair.1 key ≠ 0)).
Qed.

End proofs.

Import TreeExamples.

Lemma InsertAfterNode_unknown_child_inserts_at_slot_0_witness :
  ValueIndex 0 two_children 9 = -1
  ∧ slot (0, 0) (internal_array (InsertAfterNode 0 two_children 9 30 5)) 0 = (30, 5)
  ∧ slot (0, 0) (internal_array (InsertAfterNode 0 two_children 9 30 5)) 1 = (0, 1)
  ∧ slot (0, 0) (internal_array (InsertAfterNode 0 two_children 9 30 5)) 2 = (20, 2).
Proof.
  destruct (InsertAfterNode_unknown_child_inserts_at_slot_0 0 two_children 9 30 5)
    as (Hvi & _ & H0 & Hshift).
  - intros i Hi. change (size_ (internal_header two_children)) with 2 in Hi.
    assert (i = 0 ∨ i = 1) as [->| ->] by lia; by vm_compute.
  - split_and!; [done|done|..].
    + apply (Hshift 0). by vm_compute.
    + apply (Hshift 1). by vm_compute.
Defined.

(** C2, at the failing input (scenario S6).  [Insert(7, (7, 0))] on the
    empty tree returns true, but the root leaf then holds the
    value-initialised pair, and [GetValue(7)] returns false with no result.
    Inserting 7 again returns true, not false, and changes the leaf: it now
    holds two value-initialised pairs, and [GetValue(7)] still fails. *)
Theorem Insert_then_GetValue_does_not_find_the_key :
  insert 7 (7, 0) empty_tree = Some (tree_7, true)
  ∧ leaf_entries tree_7 1 = Some [(0, (INVALID_PAGE_ID, 0))]
  ∧ get_value 7 tree_7 = Some (false, [])
  ∧ insert 7 (7, 0) tree_7 = Some (tree_7_7, true)
  ∧ leaf_entries tree_7_7 1 = Some [(0, (INVALID_PAGE_ID, 0)); (0, (INVALID_PAGE_ID, 0))]
  ∧ get_value 7 tree_7_7 = Some (false, []).
Proof. repeat apply conj; vm_compute; reflexivity. Qed.

End BPlusTreeProofs.

(* ===================================================================== *)
(** * Further properties of the extendible hash table *)
(* ===================================================================== *)

Module ExtendibleHashTableInvariant.
Import ExtendibleHashTable ExtendibleHashTableProofs.
Section proofs.
Context {K V : Type} `{EqDecision K}.
Variable hash : K → Z.
Implicit Types (t : Table (K:=K) (V:=V)) (b : Bucket (K:=K) (V:=V)).

(** *** Arithmetic of masks *)

Lemma land_pow2 x d : 0 ≤ d → Z.land x (2 ^ d) = if Z.testbit x d then 2 ^ d else 0.
Proof.
  intros Hd. apply Z.bits_inj'. intros n Hn.
  rewrite Z.land_spec, Z.pow2_bits_eqb by done.
  destruct (Z.testbit x d) eqn:Hx.
  - rewrite Z.pow2_bits_eqb by done. destruct (Z.eqb_spec d n) as [->|Hne].
    + by rewrite Hx.
    + apply andb_false_r.
  - rewrite Z.bits_0. destruct (Z.eqb_spec d n) as [->|Hne].
    + by rewrite Hx.
    + apply andb_false_r.
Qed.

Lemma land_pow2_nonzero x d : 0 ≤ d → Z.land x (2 ^ d) ≠ 0 ↔ Z.testbit x d = true.
Proof.
  intros Hd. rewrite land_pow2 by done.
  assert (0 < 2 ^ d) by (by apply Z.pow_pos_nonneg).
  destruct (Z.testbit x d); split; (done || lia).
Qed.

Lemma mod_pow2_succ x d :
  0 ≤ d → x mod 2 ^ (d + 1) = x mod 2 ^ d + (if Z.testbit x d then 2 ^ d else 0).
Proof.
  intros Hd. assert (0 < 2 ^ d) by (by apply Z.pow_pos_nonneg).
  rewrite Z.pow_add_r, Z.pow_1_r by lia.
  rewrite Z.rem_mul_r by lia. rewrite <- Z.testbit_spec' by done.
  destruct (Z.testbit x d); simpl; lia.
Qed.

Lemma mod_pow2_succ_eq x y d :
  0 ≤ d →
  x mod 2 ^ (d + 1) = y mod 2 ^ (d + 1)
  ↔ x mod 2 ^ d = y mod 2 ^ d ∧ Z.testbit x d = Z.testbit y d.
Proof.
  intros Hd. assert (0 < 2 ^ d) by (by apply Z.pow_pos_nonneg).
  rewrite !mod_pow2_succ by done.
  pose proof (Z.mod_pos_bound x (2 ^ d)). pose proof (Z.mod_pos_bound y (2 ^ d)).
  destruct (Z.testbit x d), (Z.testbit y d); split; intros; try split; try done; lia.
Qed.

Lemma mod_pow2_le x d e : 0 ≤ d ≤ e → (x mod 2 ^ e) mod 2 ^ d = x mod 2 ^ d.
Proof.
  intros Hde. apply Z.mod_mod_divide. exists (2 ^ (e - d)).
  rewrite <- Z.pow_add_r by lia. f_equal. lia.
Qed.

Lemma mod_pow2_eq_le x y d e :
  0 ≤ d ≤ e → x mod 2 ^ e = y mod 2 ^ e → x mod 2 ^ d = y mod 2 ^ d.
Proof.
  intros Hde Heq. rewrite <- (mod_pow2_le x d e), <- (mod_pow2_le y d e) by done.
  by rewrite Heq.
Qed.

Lemma mod_same_class_apart i j m :
  0 < m → i mod m = j mod m → i < j < i + m → False.
Proof.
  intros Hm Heq Hij.
  pose proof (Z.div_mod i m ltac:(lia)). pose proof (Z.div_mod j m ltac:(lia)).
  assert (j - i = m * (j / m - i / m)) as Hd by lia.
  assert (0 < j / m - i / m) by nia. nia.
Qed.

(** *** Vectors indexed by [Z] *)

Lemma at_index_lookup {A} (l : list A) i :
  0 ≤ i → at_index l i = l !! Z.to_nat i.
Proof. intros Hi. unfold at_index. by rewrite decide_True. Qed.

Lemma at_index_insert_ne {A} (l : list A) i j x :
  0 ≤ i → 0 ≤ j → i ≠ j → at_index (<[Z.to_nat i := x]> l) j = at_index l j.
Proof.
  intros Hi Hj Hne. rewrite !at_index_lookup by done.
  apply list_lookup_insert_ne. lia.
Qed.

Lemma at_index_insert_eq {A} (l : list A) i x :
  0 ≤ i < Z.of_nat (length l) → at_index (<[Z.to_nat i := x]> l) i = Some x.
Proof.
  intros Hi. rewrite at_index_lookup by lia. apply list_lookup_insert_eq. lia.
Qed.

Lemma at_index_ge {A} (l : list A) i : Z.of_nat (length l) ≤ i → at_index l i = None.
Proof.
  intros Hi. rewrite at_index_lookup by lia. apply lookup_ge_None. lia.
Qed.

Lemma at_index_double {A} (l : list A) j :
  0 ≤ j < 2 * Z.of_nat (length l) →
  at_index (l ++ l) j = at_index l (j mod Z.of_nat (length l)).
Proof.
  intros Hj. assert (0 < Z.of_nat (length l)) as Hpos by lia.
  pose proof (Z.mod_pos_bound j _ Hpos) as Hm.
  rewrite !at_index_lookup by lia.
  destruct (decide (j < Z.of_nat (length l))) as [Hlt|Hge].
  - rewrite Z.mod_small by lia. apply lookup_app_l. lia.
  - rewrite lookup_app_r by lia. f_equal.
    assert (j mod Z.of_nat (length l) = j - Z.of_nat (length l)) as ->; [|lia].
    symmetry. apply (Z.mod_unique_pos _ _ 1); lia.
Qed.

(** *** The rewiring loop, slot by slot *)

Lemma rewire_shape fuel i m h0 h1 (dir : list nat) c :
  0 ≤ i → 0 < m → i mod m = c → (length dir ≤ fuel + Z.to_nat i)%nat →
  ∃ dir', rewire fuel i m h0 h1 dir = Some dir' ∧ length dir' = length dir
    ∧ ∀ j, 0 ≤ j →
        at_index dir' j
        = if decide (i ≤ j < Z.of_nat (length dir) ∧ j mod m = c)
          then Some (if decide (Z.land j m ≠ 0) then h1 else h0)
          else at_index dir j.
Proof.
  revert i dir. induction fuel as [|fuel IH]; intros i dir Hi Hm Hc Hlen; simpl.
  - rewrite decide_False by lia. exists dir. split_and!; [done..|].
    intros j Hj. rewrite decide_False by lia. done.
  - case_decide as Hlt.
    + unfold set_index. rewrite decide_True by lia. simpl.
      set (dir1 := <[Z.to_nat i := if decide (Z.land i m ≠ 0) then h1 else h0]> dir).
      destruct (IH (i + m) dir1) as (dir' & Hrw & Hl & Hslots).
      * lia.
      * done.
      * rewrite <- Hc. rewrite <- (Z.mul_1_l m) at 1. apply Z_mod_plus_full.
      * subst dir1. rewrite length_insert. lia.
      * exists dir'. subst dir1. rewrite length_insert in *. split_and!; [done..|].
        intros j Hj. rewrite (Hslots j Hj).
        destruct (decide (j = i)) as [->|Hne].
        -- destruct (decide (i + m ≤ i < _ ∧ _)) as [[? _]|_]; [lia|].
           destruct (decide (i ≤ i < _ ∧ _)) as [_|Hn]; [|exfalso; apply Hn; split; [lia|done]].
           by rewrite at_index_insert_eq.
        -- rewrite at_index_insert_ne by done.
           destruct (decide (i + m ≤ j < _ ∧ _)) as [[? ?]|Hn1];
             destruct (decide (i ≤ j < _ ∧ _)) as [[? ?]|Hn2]; try done.
           ++ exfalso. apply Hn2. split; [lia|done].
           ++ exfalso. destruct (decide (i + m ≤ j)); [apply Hn1; split; [lia|done]|].
              apply (mod_same_class_apart i j m); [done|congruence|lia].
    + exists dir. split_and!; [done..|].
      intros j Hj. rewrite decide_False by lia. done.
Qed.

(** *** Buckets *)

Lemma find_items_None (l : list (K * V)) key : find_items l key = None ↔ key ∉ l.*1.
Proof.
  induction l as [|[k v] l IH]; simpl.
  - split; [intros _; apply not_elem_of_nil|done].
  - rewrite not_elem_of_cons. case_decide as Hk; [|rewrite IH]; [|tauto].
    split; [done|]. intros [Hne _]. done.
Qed.

Lemma find_items_snoc_ne (l : list (K * V)) key k' value :
  k' ≠ key → find_items (l ++ [(key, value)]) k' = find_items l k'.
Proof.
  intros Hne. induction l as [|[k v] l IH]; simpl.
  - by rewrite decide_False.
  - by rewrite IH.
Qed.

Lemma find_items_filter (P : K → Prop) `{!∀ k, Decision (P k)} (l : list (K * V)) key :
  P key → find_items (filter (λ kv, P kv.1) l) key = find_items l key.
Proof.
  intros HP. induction l as [|[k v] l IH]; simpl; [done|].
  rewrite filter_cons. simpl. destruct (decide (key = k)) as [->|Hne].
  - rewrite decide_True by done. simpl. by rewrite decide_True.
  - case_decide; simpl; [by rewrite decide_False|done].
Qed.

Lemma Bucket_Insert_new b key value :
  key ∉ (list_ b).*1 → (length (list_ b) < size_ b)%nat →
  (Bucket_Insert b key value).1
  = mkBucket (size_ b) (depth_ b) (list_ b ++ [(key, value)]).
Proof.
  intros Hni Hlen. unfold Bucket_Insert.
  rewrite find_items_update_None by (by apply find_items_None).
  unfold IsFull. rewrite bool_decide_eq_false_2 by lia. done.
Qed.

(** [Bucket::Insert] of an absent key: the pair is appended when there is
    room and the bucket is left alone when it is full. *)
Lemma Bucket_Insert_absent b key value :
  key ∉ (list_ b).*1 → (length (list_ b) ≤ size_ b)%nat →
  (Bucket_Insert b key value).1 = b
  ∨ ((length (list_ b) < size_ b)%nat
     ∧ (Bucket_Insert b key value).1
       = mkBucket (size_ b) (depth_ b) (list_ b ++ [(key, value)])).
Proof.
  intros Hni Hlen. destruct (decide (length (list_ b) = size_ b)) as [Hfull|Hroom].
  - left. unfold Bucket_Insert.
    rewrite find_items_update_None by (by apply find_items_None).
    unfold IsFull. by rewrite bool_decide_eq_true_2.
  - right. split; [lia|]. apply Bucket_Insert_new; [done|lia].
Qed.

(** The redistribution loop on a bucket with distinct keys: each new bucket
    receives, in order, the pairs whose hash has (has not) the bit. *)
Lemma redistribute_shape (items : list (K * V)) m b0 b1 :
  NoDup (items.*1) →
  (∀ k, k ∈ (items.*1) → (k ∉ (list_ b0).*1) ∧ (k ∉ (list_ b1).*1)) →
  (length (list_ b0) + length items ≤ size_ b0)%nat →
  (length (list_ b1) + length items ≤ size_ b1)%nat →
  redistribute hash items m b0 b1
  = (mkBucket (size_ b0) (depth_ b0)
       (list_ b0 ++ filter (λ kv, ¬ (Z.land (hash kv.1) m ≠ 0)) items),
     mkBucket (size_ b1) (depth_ b1)
       (list_ b1 ++ filter (λ kv, Z.land (hash kv.1) m ≠ 0) items)).
Proof.
  revert b0 b1. induction items as [|[k v] items IH]; intros b0 b1 Hnd Hfresh Hl0 Hl1.
  - simpl. rewrite !app_nil_r. by destruct b0, b1.
  - simpl in *. apply NoDup_cons in Hnd as [Hk Hnd].
    destruct (Hfresh k) as [Hk0 Hk1]; [left|].
    rewrite !filter_cons. simpl. case_decide as Hbit.
    + rewrite decide_False by tauto.
      rewrite IH; rewrite ?Bucket_Insert_new by (done || lia); simpl.
      * by rewrite <- app_assoc.
      * done.
      * intros k' Hk'. destruct (Hfresh k') as [H0 H1]; [by right|].
        split; [done|]. rewrite fmap_app. simpl. rewrite elem_of_app, list_elem_of_singleton.
        intros [?| ->]; done.
      * lia.
      * rewrite length_app. simpl. lia.
    + rewrite decide_True by tauto.
      rewrite IH; rewrite ?Bucket_Insert_new by (done || lia); simpl.
      * by rewrite <- app_assoc.
      * done.
      * intros k' Hk'. destruct (Hfresh k') as [H0 H1]; [by right|].
        split; [|done]. rewrite fmap_app. simpl. rewrite elem_of_app, list_elem_of_singleton.
        intros [?| ->]; done.
      * rewrite length_app. simpl. lia.
      * lia.
Qed.

Lemma NoDup_keys_filter (P : K * V → Prop) `{!∀ kv, Decision (P kv)} (l : list (K * V)) :
  NoDup (l.*1) → NoDup ((filter P l).*1).
Proof.
  induction l as [|kv l IH]; simpl; [done|]. intros [Hni Hnd]%NoDup_cons.
  rewrite filter_cons. case_decide; simpl; [|by apply IH].
  apply NoDup_cons. split; [|by apply IH].
  intros (kv' & Hk & [_ Hin]%list_elem_of_filter)%list_elem_of_fmap.
  apply Hni. apply list_elem_of_fmap. eauto.
Qed.

(** *** Tables *)

Lemma land_mask_mod x d : 0 ≤ d → Z.land x (2 ^ d - 1) = x mod 2 ^ d.
Proof.
  intros Hd. replace (2 ^ d - 1) with (Z.ones d) by (rewrite Z.ones_equiv; lia).
  by apply Z.land_ones.
Qed.

Lemma IndexOf_Some t key i :
  IndexOf hash t key = Some i →
  0 ≤ global_depth_ t < 31 ∧ i = hash key mod 2 ^ global_depth_ t.
Proof.
  unfold IndexOf. destruct (shl1 (global_depth_ t)) as [m|] eqn:Hm; [|done].
  apply shl1_Some in Hm as [Hgd ->]. simpl. intros [= <-].
  split; [done|]. apply land_mask_mod. lia.
Qed.

Lemma IndexOf_wf t key :
  wf t → IndexOf hash t key = Some (hash key mod 2 ^ global_depth_ t).
Proof.
  intros Hwf. pose proof (wf_depth _ Hwf).
  unfold IndexOf. rewrite shl1_defined by lia. simpl. by rewrite land_mask_mod by lia.
Qed.

Lemma bucket_at_Some t i h b :
  bucket_at t i = Some (h, b) ↔ at_index (dir_ t) i = Some h ∧ buckets_ t !! h = Some b.
Proof.
  unfold bucket_at. destruct (at_index (dir_ t) i) as [h'|]; simpl; [|naive_solver].
  destruct (buckets_ t !! h') as [b'|] eqn:Hb; simpl; naive_solver.
Qed.

Lemma bucket_at_range t i h b :
  wf t → bucket_at t i = Some (h, b) →
  0 ≤ i < 2 ^ global_depth_ t ∧ 0 ≤ depth_ b ≤ global_depth_ t
  ∧ (h < length (buckets_ t))%nat.
Proof.
  intros [Hd Hl Hh] [Hat Hb]%bucket_at_Some.
  apply BufferPoolManagerProofs.at_index_Some in Hat as [Hi Hlook].
  split; [lia|]. destruct (Forall_lookup_1 _ _ _ _ Hh Hlook) as (b' & Hb' & Hdb).
  simplify_eq. split; [done|]. by eapply lookup_lt_Some.
Qed.

Lemma Find_bucket t key h b :
  wf t → bucket_at t (hash key mod 2 ^ global_depth_ t) = Some (h, b) →
  Find hash t key = Some (find_items (list_ b) key).
Proof. intros Hwf Hb. unfold Find. rewrite IndexOf_wf by done. simpl. by rewrite Hb. Qed.

Lemma wf_bucket_at t i :
  wf t → 0 ≤ i < 2 ^ global_depth_ t → ∃ h b, bucket_at t i = Some (h, b).
Proof.
  intros Hwf Hi. destruct (bucket_at_defined t i Hwf Hi) as (h & b & Hb & _). eauto.
Qed.

(** Replacing the bucket behind a handle by one of the same shape. *)
Lemma inv_store t h b b' :
  inv hash t → buckets_ t !! h = Some b →
  size_ b' = size_ b → depth_ b' = depth_ b →
  (length (list_ b') ≤ size_ b')%nat → NoDup ((list_ b').*1) →
  (∀ i, at_index (dir_ t) i = Some h →
        Forall (λ kv, hash kv.1 mod 2 ^ depth_ b = i mod 2 ^ depth_ b) (list_ b')) →
  inv hash (store_bucket t h b').
Proof.
  intros [Hwf Hslots] Hb Hsize Hdepth Hlen Hnd Hplaced. split.
  - by apply (store_bucket_wf t h b b').
  - intros i h' b'' [Hat Hb'']%bucket_at_Some. simpl in Hat, Hb''.
    destruct (decide (h = h')) as [<-|Hne].
    + rewrite list_lookup_insert_eq in Hb'' by (by eapply lookup_lt_Some).
      injection Hb'' as <-.
      destruct (Hslots i h b) as (Hs & _ & _ & _ & Halias); [by apply bucket_at_Some|].
      unfold slot_ok. simpl. rewrite Hsize, Hdepth. split_and!; [done|lia|done|auto|done].
    + rewrite list_lookup_insert_ne in Hb'' by done.
      apply (Hslots i h' b''). by apply bucket_at_Some.
Qed.

Lemma Find_store t h b b' key :
  wf t → buckets_ t !! h = Some b → depth_ b' = depth_ b →
  find_items (list_ b') key = find_items (list_ b) key →
  Find hash (store_bucket t h b') key = Find hash t key.
Proof.
  intros Hwf Hb Hdep Hfind.
  pose proof (store_bucket_wf t h b b' Hwf Hb Hdep) as Hwf'.
  destruct (wf_bucket_at t (hash key mod 2 ^ global_depth_ t) Hwf) as (h1 & b1 & Hb1).
  { apply Z.mod_pos_bound. apply Z.pow_pos_nonneg; [lia|apply Hwf]. }
  rewrite (Find_bucket t key h1 b1) by done.
  apply bucket_at_Some in Hb1 as [Hat Hb1].
  destruct (decide (h = h1)) as [<-|Hne].
  - simplify_eq. rewrite (Find_bucket _ key h b'); [by rewrite Hfind|done|].
    apply bucket_at_Some. simpl. split; [done|].
    apply list_lookup_insert_eq. by eapply lookup_lt_Some.
  - apply (Find_bucket _ key h1 b1); [done|]. apply bucket_at_Some. simpl. split; [done|].
    by rewrite list_lookup_insert_ne.
Qed.

(** The last step of [Insert]: [Bucket::Insert] of an absent key into the
    bucket of its slot. *)
Lemma inv_store_insert t h b key value :
  inv hash t → bucket_at t (hash key mod 2 ^ global_depth_ t) = Some (h, b) →
  key ∉ (list_ b).*1 →
  inv hash (store_bucket t h (Bucket_Insert b key value).1)
  ∧ ∀ k', k' ≠ key →
      Find hash (store_bucket t h (Bucket_Insert b key value).1) k' = Find hash t k'.
Proof.
  intros Hinv Hbucket Hni. pose proof (inv_wf _ _ Hinv) as Hwf.
  destruct (inv_slots _ _ Hinv _ _ _ Hbucket) as (Hs & Hlen & Hnd & Hpl & Halias).
  destruct (bucket_at_range _ _ _ _ Hwf Hbucket) as (Hi & Hd & _).
  apply bucket_at_Some in Hbucket as [Hat Hb].
  destruct (Bucket_Insert_absent b key value Hni Hlen) as [->|[Hlt ->]].
  - assert (store_bucket t h b = t) as ->; [|done].
    unfold store_bucket. rewrite list_insert_id by done. by destruct t.
  - split.
    + apply (inv_store t h b); simpl; try done.
      * rewrite length_app. simpl. lia.
      * rewrite fmap_app. simpl. apply NoDup_app. split_and!; [done| |apply NoDup_singleton].
        intros k Hk ->%list_elem_of_singleton. done.
      * intros i Hati.
        assert (i mod 2 ^ depth_ b = hash key mod 2 ^ depth_ b) as Hik.
        { apply BufferPoolManagerProofs.at_index_Some in Hati as Hir.
          destruct Hir as [Hir _]. rewrite (wf_dir_len _ Hwf) in Hir.
          rewrite (proj1 (Halias i Hir) Hati). by apply mod_pow2_le. }
        apply Forall_app. split.
        -- eapply Forall_impl; [exact Hpl|]. simpl. intros kv Hkv.
           rewrite Hkv, Hik. by rewrite mod_pow2_le.
        -- repeat constructor. simpl. by rewrite Hik.
    + intros k' Hne. apply (Find_store t h b); [done..|]. simpl.
      by apply find_items_snoc_ne.
Qed.

(** The split step, slot by slot: the slots that agree with the key on the
    low [depth_ b] bits are rewired to the two new buckets according to their
    bit [depth_ b]; every other slot keeps the bucket it had (the slot modulo
    the old directory size, when the directory was doubled). *)
Lemma split_shape t key h b :
  inv hash t →
  bucket_at t (hash key mod 2 ^ global_depth_ t) = Some (h, b) →
  ∃ dir' gd1,
    gd1 = (if decide (depth_ b = global_depth_ t)
           then global_depth_ t + 1 else global_depth_ t)
    ∧ split hash t key b
      = Some (mkTable gd1 (bucket_size_ t) (num_buckets_ t + 1) dir'
                (buckets_ t ++ [split_half hash t b false; split_half hash t b true]))
    ∧ Z.of_nat (length dir') = 2 ^ gd1
    ∧ ∀ j, 0 ≤ j < 2 ^ gd1 →
        at_index dir' j
        = if decide (j mod 2 ^ depth_ b = hash key mod 2 ^ depth_ b)
          then Some (if Z.testbit j (depth_ b)
                     then S (length (buckets_ t)) else length (buckets_ t))
          else at_index (dir_ t) (j mod 2 ^ global_depth_ t).
Proof.
  intros Hinv Hbucket. pose proof (inv_wf _ _ Hinv) as Hwf.
  destruct (inv_slots _ _ Hinv _ _ _ Hbucket) as (Hs & Hlen & Hnd & Hpl & Halias).
  destruct (bucket_at_range _ _ _ _ Hwf Hbucket) as (Hi & Hd & _).
  pose proof (wf_depth _ Hwf) as Hgd. pose proof (wf_dir_len _ Hwf) as Hdl.
  assert (0 < 2 ^ depth_ b) as Hm by (apply Z.pow_pos_nonneg; lia).
  assert (0 < 2 ^ global_depth_ t) as Hg by (apply Z.pow_pos_nonneg; lia).
  set (gd1 := if decide (depth_ b = global_depth_ t)
              then global_depth_ t + 1 else global_depth_ t).
  set (dir := if decide (depth_ b = global_depth_ t) then dir_ t ++ dir_ t else dir_ t).
  assert (Hdirlen : Z.of_nat (length dir) = 2 ^ gd1).
  { subst gd1 dir. case_decide; [|done].
    rewrite length_app, Nat2Z.inj_add, Hdl.
    replace (global_depth_ t + 1) with (Z.succ (global_depth_ t)) by lia.
    rewrite Z.pow_succ_r by lia. lia. }
  assert (Hdir : ∀ j, 0 ≤ j < 2 ^ gd1 →
            at_index dir j = at_index (dir_ t) (j mod 2 ^ global_depth_ t)).
  { intros j Hj. subst gd1 dir. case_decide.
    - rewrite at_index_double, Hdl; [done|].
      replace (global_depth_ t + 1) with (Z.succ (global_depth_ t)) in Hj by lia.
      rewrite Z.pow_succ_r in Hj by lia. lia.
    - by rewrite Z.mod_small. }
  destruct (rewire_shape (length dir) (hash key mod 2 ^ depth_ b) (2 ^ depth_ b)
              (length (buckets_ t)) (S (length (buckets_ t))) dir
              (hash key mod 2 ^ depth_ b)) as (dir' & Hrw & Hl' & Hslots).
  { apply Z.mod_pos_bound; lia. }
  { done. }
  { apply Z.mod_mod. lia. }
  { lia. }
  exists dir', gd1. split; [done|]. split_and!.
  - unfold split. rewrite shl1_defined by lia. simpl.
    rewrite (redistribute_shape (list_ b) (2 ^ depth_ b)); simpl; [| done | | lia | lia].
    2:{ intros k _. split; apply not_elem_of_nil. }
    rewrite land_mask_mod by lia. fold dir. fold gd1.
    assert ((if decide (depth_ b = global_depth_ t)
             then (global_depth_ t + 1, dir_ t ++ dir_ t)
             else (global_depth_ t, dir_ t)) = (gd1, dir)) as ->.
    { subst gd1 dir. by case_decide. }
    assert (filter (λ kv : K * V, ¬ (Z.land (hash kv.1) (2 ^ depth_ b) ≠ 0)) (list_ b)
            = filter (λ kv : K * V, Z.testbit (hash kv.1) (depth_ b) = false) (list_ b))
      as ->.
    { apply list_filter_iff. intros kv.
      rewrite land_pow2_nonzero by lia. by destruct (Z.testbit _ _). }
    assert (filter (λ kv : K * V, Z.land (hash kv.1) (2 ^ depth_ b) ≠ 0) (list_ b)
            = filter (λ kv : K * V, Z.testbit (hash kv.1) (depth_ b) = true) (list_ b))
      as ->.
    { apply list_filter_iff. intros kv. by rewrite land_pow2_nonzero by lia. }
    by rewrite Hrw.
  - by rewrite Hl'.
  - intros j Hj. rewrite (Hslots j) by lia. rewrite Hdirlen.
    pose proof (Z.mod_pos_bound j (2 ^ depth_ b) Hm).
    pose proof (Z.mod_le j (2 ^ depth_ b) ltac:(lia) Hm).
    destruct (decide (j mod 2 ^ depth_ b = hash key mod 2 ^ depth_ b)) as [Heq|Hne].
    + rewrite decide_True by (split; [lia|done]). f_equal.
      destruct (Z.testbit j (depth_ b)) eqn:Hbit.
      * rewrite decide_True; [done|]. by apply land_pow2_nonzero; [lia|].
      * rewrite decide_False; [done|]. rewrite land_pow2_nonzero by lia. congruence.
    + rewrite decide_False by tauto. by apply Hdir.
Qed.

Lemma wf_handle_lt t j h :
  wf t → at_index (dir_ t) j = Some h → (h < length (buckets_ t))%nat.
Proof.
  intros Hwf Hat. apply BufferPoolManagerProofs.at_index_Some in Hat as [_ Hlook].
  destruct (Forall_lookup_1 _ _ _ _ (wf_handles _ Hwf) Hlook) as (b & Hb & _).
  by eapply lookup_lt_Some.
Qed.

(** A split keeps the invariant and changes the answer of no [Find]. *)
Lemma split_inv t key h b t1 :
  inv hash t →
  bucket_at t (hash key mod 2 ^ global_depth_ t) = Some (h, b) →
  split hash t key b = Some t1 → global_depth_ t1 ≤ 30 →
  inv hash t1 ∧ ∀ k', Find hash t1 k' = Find hash t k'.
Proof.
  intros Hinv Hbucket Hsplit Hgd1. pose proof (inv_wf _ _ Hinv) as Hwf.
  destruct (inv_slots _ _ Hinv _ _ _ Hbucket) as (Hs & Hlen & Hnd & Hpl & Halias).
  destruct (bucket_at_range _ _ _ _ Hwf Hbucket) as (Hi & Hd & Hh).
  pose proof (wf_depth _ Hwf) as Hgd.
  destruct (split_defined hash t key b Hwf Hd) as (t1' & Hsplit' & Hwf1).
  rewrite Hsplit in Hsplit'. injection Hsplit' as <-. specialize (Hwf1 Hgd1).
  destruct (split_shape t key h b Hinv Hbucket) as (dir' & gd1 & Hgd1eq & Hsp & Hdl & Hslots).
  rewrite Hsplit in Hsp. injection Hsp as ->. simpl in *.
  apply bucket_at_Some in Hbucket as [Hat Hb].
  set (L := length (buckets_ t)) in *.
  assert (0 < 2 ^ (depth_ b)) as Hm by (apply Z.pow_pos_nonneg; lia).
  assert (0 < 2 ^ global_depth_ t) as Hg by (apply Z.pow_pos_nonneg; lia).
  assert ((depth_ b) + 1 ≤ gd1 ∧ global_depth_ t ≤ gd1) as [Hld1 Hgg1]
    by (rewrite Hgd1eq; case_decide; lia).
  clear Hgd1eq.
  assert (Hstart : (hash key mod 2 ^ global_depth_ t) mod 2 ^ (depth_ b)
                   = hash key mod 2 ^ (depth_ b))
    by (by apply mod_pow2_le).
  rewrite Hstart in Hpl, Halias.
  assert (HB0 : (buckets_ t ++ [split_half hash t b false; split_half hash t b true]) !! L
                = Some (split_half hash t b false)) by (by apply list_lookup_middle).
  assert (HB1 : (buckets_ t ++ [split_half hash t b false; split_half hash t b true]) !! S L
                = Some (split_half hash t b true)).
  { rewrite lookup_app_r by (subst L; lia).
    by replace (S L - length (buckets_ t))%nat with 1%nat by (subst L; lia). }
  assert (Hold : ∀ h', (h' < L)%nat →
            (buckets_ t ++ [split_half hash t b false; split_half hash t b true]) !! h'
            = buckets_ t !! h') by (intros h' Hh'; by apply lookup_app_l).
  assert (Hmodrange : ∀ j, 0 ≤ j mod 2 ^ global_depth_ t < 2 ^ global_depth_ t)
    by (intros j; by apply Z.mod_pos_bound).
  (* what a new bucket looks like from a rewired slot *)
  assert (Hnew : ∀ j bit, 0 ≤ j < 2 ^ gd1 →
            j mod 2 ^ (depth_ b) = hash key mod 2 ^ (depth_ b) →
            Z.testbit j (depth_ b) = bit →
            slot_ok hash
              (mkTable gd1 (bucket_size_ t) (num_buckets_ t + 1) dir'
                 (buckets_ t ++ [split_half hash t b false; split_half hash t b true]))
              j (if bit then S L else L) (split_half hash t b bit)).
  { intros j bit Hj Hjs Hjbit. unfold slot_ok. simpl. split_and!.
    - done.
    - pose proof (length_filter (λ kv : K * V, Z.testbit (hash kv.1) (depth_ b) = bit) (list_ b)).
      lia.
    - by apply NoDup_keys_filter.
    - apply Forall_forall. intros kv [Hbit Hin]%list_elem_of_filter.
      rewrite Forall_forall in Hpl. apply mod_pow2_succ_eq; [lia|].
      split; [rewrite (Hpl kv Hin); congruence|congruence].
    - intros j' Hj'. rewrite (Hslots j' Hj'). split.
      + case_decide as Hc.
        * intros [= Heq]. apply mod_pow2_succ_eq; [lia|]. split; [congruence|].
          rewrite Hjbit. destruct (Z.testbit j' (depth_ b)), bit; (done || lia).
        * intros Habs. apply (wf_handle_lt _ _ _ Hwf) in Habs.
          destruct bit; subst L; lia.
      + intros [Hc Hb']%mod_pow2_succ_eq; [|lia].
        rewrite decide_True by congruence. by rewrite Hb', Hjbit. }
  split.
  - split; [done|]. intros j h' b' [Hatj Hbj]%bucket_at_Some. simpl in Hatj, Hbj.
    assert (0 ≤ j < 2 ^ gd1) as Hj.
    { apply BufferPoolManagerProofs.at_index_Some in Hatj as [Hr _]. lia. }
    rewrite (Hslots j Hj) in Hatj. case_decide as Hc.
    + injection Hatj as <-. destruct (Z.testbit j (depth_ b)) eqn:Hbit.
      * rewrite HB1 in Hbj. injection Hbj as <-. by apply (Hnew j true).
      * rewrite HB0 in Hbj. injection Hbj as <-. by apply (Hnew j false).
    + pose proof (wf_handle_lt _ _ _ Hwf Hatj) as Hh'.
      rewrite Hold in Hbj by done.
      destruct (inv_slots _ _ Hinv (j mod 2 ^ global_depth_ t) h' b')
        as (Hs' & Hlen' & Hnd' & Hpl' & Halias'); [by apply bucket_at_Some|].
      destruct (bucket_at_range t (j mod 2 ^ global_depth_ t) h' b' Hwf)
        as (_ & Hd' & _); [by apply bucket_at_Some|].
      unfold slot_ok. simpl. split_and!; [done..| |].
      * eapply Forall_impl; [exact Hpl'|]. simpl. intros kv ->. by apply mod_pow2_le.
      * intros j' Hj'. rewrite (Hslots j' Hj'). split.
        -- case_decide.
           ++ intros [= <-]. destruct (Z.testbit j' (depth_ b)); subst L; lia.
           ++ intros Hat'. apply Halias' in Hat'; [|done].
              rewrite !mod_pow2_le in Hat' by done. done.
        -- intros Heq.
           assert (at_index (dir_ t) (j' mod 2 ^ global_depth_ t) = Some h') as Hat'.
           { apply Halias'; [done|]. rewrite !mod_pow2_le by done. done. }
           rewrite decide_False; [done|]. intros Hc'.
           assert (at_index (dir_ t) (j' mod 2 ^ global_depth_ t) = Some h) as Hat''.
           { apply Halias; [done|]. rewrite mod_pow2_le by done. done. }
           rewrite Hat' in Hat''. injection Hat'' as ->.
           rewrite Hb in Hbj. injection Hbj as <-. apply Hc. congruence.
  - intros k'. set (j := hash k' mod 2 ^ gd1).
    assert (0 ≤ j < 2 ^ gd1) as Hj
      by (apply Z.mod_pos_bound, Z.pow_pos_nonneg; lia).
    assert (j mod 2 ^ global_depth_ t = hash k' mod 2 ^ global_depth_ t) as Hjm
      by (apply mod_pow2_le; lia).
    assert (j mod 2 ^ (depth_ b) = hash k' mod 2 ^ (depth_ b)) as Hjl by (apply mod_pow2_le; lia).
    assert (Z.testbit j (depth_ b) = Z.testbit (hash k') (depth_ b)) as Hjb
      by (apply Z.mod_pow2_bits_low; lia).
    destruct (wf_bucket_at t (hash k' mod 2 ^ global_depth_ t) Hwf) as (ho & bo & Hbo);
      [done|].
    rewrite (Find_bucket t k' ho bo) by done.
    apply bucket_at_Some in Hbo as [Hato Hbo].
    destruct (decide (j mod 2 ^ (depth_ b) = hash key mod 2 ^ (depth_ b))) as [Hc|Hc].
    + assert (at_index (dir_ t) (hash k' mod 2 ^ global_depth_ t) = Some h) as Hath.
      { apply Halias; [done|]. rewrite mod_pow2_le by done. congruence. }
      rewrite Hath in Hato. injection Hato as <-. rewrite Hb in Hbo. injection Hbo as <-.
      rewrite (Find_bucket _ k' (if Z.testbit j (depth_ b) then S L else L)
                 (split_half hash t b (Z.testbit j (depth_ b)))); [|done|].
      * simpl. f_equal.
        exact (find_items_filter
                 (λ k, Z.testbit (hash k) (depth_ b) = Z.testbit j (depth_ b))
                 (list_ b) k' (eq_sym Hjb)).
      * apply bucket_at_Some. simpl. fold j. rewrite (Hslots j Hj).
        rewrite decide_True by done. split; [done|].
        by destruct (Z.testbit j (depth_ b)).
    + rewrite (Find_bucket _ k' ho bo); [done|done|].
      apply bucket_at_Some. simpl. fold j. rewrite (Hslots j Hj).
      rewrite decide_False by done. rewrite Hjm. split; [done|].
      rewrite Hold; [done|]. by eapply wf_handle_lt.
Qed.

(** The table of the constructor satisfies the invariant. *)
Lemma new_table_inv (n : nat) : inv hash (new_table (K:=K) (V:=V) n).
Proof.
  split; [apply new_table_wf|]. intros i h b [Hat Hb]%bucket_at_Some. simpl in *.
  apply BufferPoolManagerProofs.at_index_Some in Hat as [Hi Hl]. simpl in Hi.
  assert (i = 0) as -> by lia. simpl in Hl. injection Hl as <-.
  simpl in Hb. injection Hb as <-.
  unfold slot_ok. simpl. split_and!; [done|lia|constructor|constructor|].
  intros j Hj. assert (j = 0) as -> by lia. done.
Qed.

(** [Insert] keeps the invariant and the answer of [Find] for other keys. *)
Lemma Insert_spec t key value t' :
  inv hash t → Insert hash t key value = Some t' →
  inv hash t' ∧ ∀ k', k' ≠ key → Find hash t' k' = Find hash t k'.
Proof.
  intros Hinv. pose proof (inv_wf _ _ Hinv) as Hwf. pose proof (wf_depth _ Hwf) as Hgd.
  unfold Insert. rewrite IndexOf_wf by done. simpl.
  destruct (wf_bucket_at t (hash key mod 2 ^ global_depth_ t) Hwf) as (h & b & Hb).
  { apply Z.mod_pos_bound, Z.pow_pos_nonneg; lia. }
  rewrite Hb. simpl. unfold Bucket_Find.
  destruct (find_items (list_ b) key) eqn:Hf; [by intros [= <-]|].
  apply find_items_None in Hf.
  destruct (IsFull b).
  - destruct (split hash t key b) as [t1|] eqn:Hsplit; simpl; [|done].
    destruct (IndexOf hash t1 key) as [i1|] eqn:Hi1; simpl; [|done].
    apply IndexOf_Some in Hi1 as [Hgd1 ->].
    destruct (split_inv t key h b t1 Hinv Hb Hsplit) as [Hinv1 Hfind1]; [lia|].
    destruct (bucket_at t1 _) as [[h' b']|] eqn:Hb'; simpl; [|done].
    intros [= <-].
    assert (key ∉ (list_ b').*1) as Hni.
    { apply find_items_None. pose proof (Hfind1 key) as Hk.
      rewrite (Find_bucket t1 key h' b'), (Find_bucket t key h b) in Hk
        by (done || apply Hinv1).
      apply find_items_None in Hf. rewrite Hf in Hk. by injection Hk. }
    destruct (inv_store_insert t1 h' b' key value Hinv1 Hb' Hni) as [Hi Hfo].
    split; [done|]. intros k' Hne. rewrite Hfo by done. apply Hfind1.
  - intros [= <-]. by apply inv_store_insert.
Qed.

(** *** [Bucket::Remove] *)

Lemma remove_items_None (l : list (K * V)) key : remove_items l key = None ↔ key ∉ l.*1.
Proof.
  induction l as [|[k v] l IH]; simpl.
  - split; [intros _; apply not_elem_of_nil|done].
  - rewrite not_elem_of_cons. case_decide as Hk.
    + split; [done|]. intros [Hne _]. by subst.
    + destruct (remove_items l key); simpl.
      * split; [done|]. intros [_ Hni]. by apply IH in Hni.
      * split; [|done]. intros _. split; [done|]. by apply IH.
Qed.

Lemma remove_items_Some (l l' : list (K * V)) key :
  remove_items l key = Some l' → NoDup (l.*1) →
  key ∈ (l.*1) ∧ S (length l') = length l ∧ NoDup (l'.*1) ∧ (key ∉ l'.*1)
  ∧ (∀ kv, kv ∈ l' → kv ∈ l)
  ∧ ∀ k', k' ≠ key → find_items l' k' = find_items l k'.
Proof.
  revert l'. induction l as [|[k v] l IH]; simpl; [done|].
  intros l' Hr [Hni Hnd]%NoDup_cons. case_decide as Hk.
  - injection Hr as <-. subst k. split_and!; [left|done..| |].
    + intros kv Hkv. by right.
    + intros k' Hne. by rewrite decide_False.
  - destruct (remove_items l key) as [l0|] eqn:Hr0; simpl in Hr; [|done].
    injection Hr as <-. destruct (IH l0 eq_refl Hnd) as (Hin & Hlen & Hnd0 & Hni0 & Hsub & Hfind).
    split_and!.
    + by right.
    + simpl. lia.
    + simpl. apply NoDup_cons. split; [|done].
      intros ([k1 v1] & -> & Hkv)%list_elem_of_fmap. apply Hni.
      apply list_elem_of_fmap. exists (k1, v1). split; [done|]. by apply Hsub.
    + simpl. rewrite not_elem_of_cons. split; [done|done].
    + intros kv [->|Hkv]%elem_of_cons; [left|right; by apply Hsub].
    + intros k' Hne. simpl. case_decide; [done|]. by apply Hfind.
Qed.

Lemma bucket_at_store t h b b' i :
  buckets_ t !! h = Some b → at_index (dir_ t) i = Some h →
  bucket_at (store_bucket t h b') i = Some (h, b').
Proof.
  intros Hb Hat. apply bucket_at_Some. simpl. split; [done|].
  apply list_lookup_insert_eq. by eapply lookup_lt_Some.
Qed.

(** [Remove] on a table that satisfies the invariant. *)
Lemma Remove_spec t key :
  inv hash t →
  ∃ t' r, Remove hash t key = Some (t', r) ∧ inv hash t'
    ∧ (r = true ↔ ∃ v, Find hash t key = Some (Some v))
    ∧ Find hash t' key = Some None
    ∧ ∀ k', k' ≠ key → Find hash t' k' = Find hash t k'.
Proof.
  intros Hinv. pose proof (inv_wf _ _ Hinv) as Hwf. pose proof (wf_depth _ Hwf) as Hgd.
  unfold Remove. rewrite IndexOf_wf by done. simpl.
  destruct (wf_bucket_at t (hash key mod 2 ^ global_depth_ t) Hwf) as (h & b & Hbucket).
  { apply Z.mod_pos_bound, Z.pow_pos_nonneg; lia. }
  rewrite Hbucket. simpl.
  destruct (inv_slots _ _ Hinv _ _ _ Hbucket) as (Hs & Hlen & Hnd & Hpl & Halias).
  pose proof Hbucket as [Hat Hb]%bucket_at_Some.
  rewrite (Find_bucket t key h b) by done.
  assert (∀ b', size_ b' = size_ b → depth_ b' = depth_ b →
            (length (list_ b') ≤ length (list_ b))%nat → NoDup ((list_ b').*1) →
            (∀ kv, kv ∈ list_ b' → kv ∈ list_ b) → key ∉ (list_ b').*1 →
            (∀ k', k' ≠ key → find_items (list_ b') k' = find_items (list_ b) k') →
            inv hash (store_bucket t h b')
            ∧ Find hash (store_bucket t h b') key = Some None
            ∧ ∀ k', k' ≠ key → Find hash (store_bucket t h b') k' = Find hash t k')
    as Hstore.
  { intros b' Hs' Hd' Hlen' Hnd' Hsub Hni Hfind. split_and!.
    - apply (inv_store t h b b'); [done..|lia|done|].
      intros i Hi.
      destruct (inv_slots _ _ Hinv i h b) as (_ & _ & _ & Hpl' & _);
        [by apply bucket_at_Some|].
      rewrite Forall_forall in Hpl'. apply Forall_forall. intros kv Hkv.
      by apply Hpl', Hsub.
    - rewrite (Find_bucket (store_bucket t h b') key h b').
      + f_equal. by apply find_items_None.
      + by eapply store_bucket_wf.
      + by eapply bucket_at_store.
    - intros k' Hne. apply (Find_store t h b b'); [done..|]. by apply Hfind. }
  unfold Bucket_Remove. destruct (remove_items (list_ b) key) as [l'|] eqn:Hr.
  - destruct (remove_items_Some _ _ _ Hr Hnd) as (Hin & Hlen' & Hnd' & Hni & Hsub & Hfind).
    eexists _, true. split; [done|].
    destruct (Hstore (mkBucket (size_ b) (depth_ b) l')) as (H1 & H2 & H3);
      [done|done|simpl; lia|done..|].
    split_and!; [exact H1| |exact H2|exact H3].
    split; [intros _|done].
    destruct (find_items (list_ b) key) as [v|] eqn:Hf; [by exists v|].
    by apply find_items_None in Hf.
  - pose proof Hr as Hni%remove_items_None.
    eexists _, false. split; [done|].
    destruct (Hstore b) as (H1 & H2 & H3); [done..|].
    split_and!; [exact H1| |exact H2|exact H3].
    split; [done|]. intros [v Hv]. injection Hv as Hv.
    apply find_items_None in Hni. congruence.
Qed.

Lemma call_inv t c t' : inv hash t → call hash t c = Some t' → inv hash t'.
Proof.
  intros Hinv. destruct c as [key value|key]; simpl.
  - intros Hi. by apply (Insert_spec t key value t').
  - destruct (Remove_spec t key Hinv) as (t1 & r & -> & Hinv1 & _). simpl.
    by intros [= <-].
Qed.

Lemma run_inv cs : ∀ t t', inv hash t → run hash t cs = Some t' → inv hash t'.
Proof.
  induction cs as [|c cs IH]; simpl; intros t t' Hinv.
  - by intros [= <-].
  - destruct (call hash t c) as [t1|] eqn:Hc; simpl; [|done].
    apply IH. by eapply call_inv.
Qed.

(** *** What [Insert] does to its own key *)

Lemma length_filter_all {A} (P : A → Prop) `{!∀ x, Decision (P x)} (l : list A) :
  length (filter P l) = length l ↔ Forall P l.
Proof.
  induction l as [|x l IH]; simpl; [by split|].
  rewrite filter_cons. pose proof (length_filter P l) as Hle. case_decide; simpl.
  - rewrite Forall_cons. split; [intros [= Hl]; split; [done|by apply IH]|].
    intros [_ Hl]. f_equal. by apply IH.
  - split; [lia|]. by intros [? _]%Forall_cons.
Qed.

(** After the split, the slot of [key] refers to the half of the old
    bucket on the side of [key]. *)
Lemma split_target t key h b t1 :
  inv hash t →
  bucket_at t (hash key mod 2 ^ global_depth_ t) = Some (h, b) →
  split hash t key b = Some t1 → global_depth_ t1 ≤ 30 →
  ∃ h', bucket_at t1 (hash key mod 2 ^ global_depth_ t1)
        = Some (h', split_half hash t b (Z.testbit (hash key) (depth_ b))).
Proof.
  intros Hinv Hbucket Hsplit Hgd1. pose proof (inv_wf _ _ Hinv) as Hwf.
  destruct (bucket_at_range _ _ _ _ Hwf Hbucket) as (Hi & Hd & Hh).
  pose proof (wf_depth _ Hwf) as Hgd.
  destruct (split_shape t key h b Hinv Hbucket) as (dir' & gd1 & Hgd1eq & Hsp & Hdl & Hslots).
  rewrite Hsplit in Hsp. injection Hsp as ->. simpl in *.
  assert (depth_ b + 1 ≤ gd1) as Hld1 by (rewrite Hgd1eq; case_decide; lia).
  clear Hgd1eq. set (j := hash key mod 2 ^ gd1).
  assert (0 ≤ j < 2 ^ gd1) as Hj by (apply Z.mod_pos_bound, Z.pow_pos_nonneg; lia).
  assert (j mod 2 ^ depth_ b = hash key mod 2 ^ depth_ b) as Hjl
    by (apply mod_pow2_le; lia).
  assert (Z.testbit j (depth_ b) = Z.testbit (hash key) (depth_ b)) as Hjb
    by (apply Z.mod_pow2_bits_low; lia).
  exists (if Z.testbit j (depth_ b) then S (length (buckets_ t)) else length (buckets_ t)).
  apply bucket_at_Some. simpl. rewrite (Hslots j Hj), decide_True by done.
  split; [done|]. rewrite <- Hjb. destruct (Z.testbit j (depth_ b)).
  - rewrite lookup_app_r by lia.
    by replace (S (length (buckets_ t)) - length (buckets_ t))%nat with 1%nat by lia.
  - by apply list_lookup_middle.
Qed.

(** The final [Bucket::Insert] of an absent key into the bucket of its
    slot: the key is found afterwards exactly when the bucket had room. *)
Lemma Find_store_insert t h b key value :
  inv hash t → bucket_at t (hash key mod 2 ^ global_depth_ t) = Some (h, b) →
  key ∉ (list_ b).*1 →
  Find hash (store_bucket t h (Bucket_Insert b key value).1) key
  = Some (if IsFull b then None else Some value).
Proof.
  intros Hinv Hbucket Hni. pose proof (inv_wf _ _ Hinv) as Hwf.
  destruct (inv_slots _ _ Hinv _ _ _ Hbucket) as (Hs & Hlen & Hnd & Hpl & Halias).
  pose proof Hbucket as [Hat Hb]%bucket_at_Some.
  pose proof (Bucket_Insert_depth b key value) as Hdep.
  rewrite (Find_bucket _ key h (Bucket_Insert b key value).1);
    [|by eapply store_bucket_wf|by eapply bucket_at_store].
  f_equal. pose proof Hni as Hf%find_items_None.
  unfold Bucket_Insert. rewrite find_items_update_None by done.
  destruct (IsFull b); simpl; [done|]. by apply find_items_snoc.
Qed.

(** X1. Every table reached from the constructor by calls of [Insert] and
    [Remove] satisfies the directory invariant: the directory has
    [2 ^ global_depth_] slots, every slot refers to a bucket of local depth
    at most the global depth, with the table's capacity, at most that many
    pairs and distinct keys; every key of a bucket agrees with its slots on
    the low local-depth bits of its hash; and two slots share a bucket
    exactly when they agree on these bits. *)
Theorem reachable_table_satisfies_invariant (n : nat) (cs : list Call) t :
  run hash (new_table n) cs = Some t → inv hash t.
Proof. apply run_inv, new_table_inv. Qed.

(** X2. [Insert] of [key] changes what [Find] returns for no other key,
    whether it splits a bucket, doubles the directory, or neither. *)
Theorem Insert_leaves_other_keys t key value t' k' :
  inv hash t → Insert hash t key value = Some t' → k' ≠ key →
  Find hash t' k' = Find hash t k'.
Proof. intros Hinv Hi Hne. by apply (Insert_spec t key value t'). Qed.

(** X3. What [Find] returns for [key] after [Insert key value], where [b]
    is the bucket of the key's slot before the call: the old value when the
    key was present; nothing when the key was absent, [b] was full and the
    hashes of all keys of [b] have the same bit [depth_ b] as the hash of
    [key] (the half [key] goes to is as full as [b] was); [value] in every
    other case. *)
Theorem Insert_then_Find_same_key t key value t' h b :
  inv hash t → Insert hash t key value = Some t' →
  bucket_at t (hash key mod 2 ^ global_depth_ t) = Some (h, b) →
  Find hash t' key
  = Some match find_items (list_ b) key with
         | Some v0 => Some v0
         | None =>
             if IsFull b
                && bool_decide (Forall (λ kv, Z.testbit (hash kv.1) (depth_ b)
                                              = Z.testbit (hash key) (depth_ b))
                                  (list_ b))
             then None else Some value
         end.
Proof.
  intros Hinv HI Hbucket. pose proof (inv_wf _ _ Hinv) as Hwf.
  destruct (inv_slots _ _ Hinv _ _ _ Hbucket) as (Hs & Hlen & Hnd & Hpl & Halias).
  unfold Insert in HI. rewrite IndexOf_wf in HI by done. simpl in HI.
  rewrite Hbucket in HI. simpl in HI. unfold Bucket_Find in HI.
  destruct (find_items (list_ b) key) as [v0|] eqn:Hf.
  - injection HI as <-. by rewrite (Find_bucket t key h b), Hf.
  - pose proof Hf as Hni%find_items_None.
    destruct (IsFull b) eqn:Hfull.
    + destruct (split hash t key b) as [t1|] eqn:Hsplit; simpl in HI; [|done].
      destruct (IndexOf hash t1 key) as [i1|] eqn:Hi1; simpl in HI; [|done].
      apply IndexOf_Some in Hi1 as [Hgd1 ->].
      destruct (split_inv t key h b t1 Hinv Hbucket Hsplit) as [Hinv1 _]; [lia|].
      destruct (split_target t key h b t1 Hinv Hbucket Hsplit) as [h' Hb']; [lia|].
      rewrite Hb' in HI. simpl in HI. injection HI as <-.
      rewrite Find_store_insert; [|done..|].
      * f_equal. simpl.
        replace (IsFull (split_half hash t b (Z.testbit (hash key) (depth_ b))))
          with (bool_decide
                  (Forall (λ kv, Z.testbit (hash kv.1) (depth_ b)
                                 = Z.testbit (hash key) (depth_ b)) (list_ b)));
          [done|].
        unfold IsFull. simpl. apply bool_decide_ext.
        rewrite <- length_filter_all.
        apply bool_decide_eq_true in Hfull. by rewrite Hfull, Hs.
      * simpl. intros ([k v] & -> & [_ Hin]%list_elem_of_filter)%list_elem_of_fmap.
        apply Hni. apply list_elem_of_fmap. by exists (k, v).
    + injection HI as <-. rewrite Find_store_insert by done. by rewrite Hfull.
Qed.

(** X4. [Remove] on a table that satisfies the invariant has defined
    behaviour; it returns [true] exactly when the key was present; the key
    is absent afterwards, every other key keeps its value, and the
    invariant still holds. *)
Theorem Remove_deletes_exactly_the_key t key :
  inv hash t →
  ∃ t' r, Remove hash t key = Some (t', r) ∧ inv hash t'
    ∧ (r = true ↔ ∃ v, Find hash t key = Some (Some v))
    ∧ Find hash t' key = Some None
    ∧ ∀ k', k' ≠ key → Find hash t' k' = Find hash t k'.
Proof. apply Remove_spec. Qed.

End proofs.

Import TableExamples.

Lemma s4_full_inv : inv hash_int s4_full.
Proof.
  apply (run_inv hash_int [CallInsert 0 100; CallInsert 4 104] (new_table 2));
    [apply new_table_inv|by vm_compute].
Qed.

Lemma reachable_table_satisfies_invariant_witness :
  run hash_int (new_table 2) table_calls = Some mixed_table
  ∧ inv hash_int mixed_table.
Proof.
  split; [by vm_compute|].
  apply (reachable_table_satisfies_invariant hash_int 2 table_calls). by vm_compute.
Defined.

Lemma Insert_leaves_other_keys_witness :
  Insert hash_int s4_full 1 101 = Some s4_with_1
  ∧ Find hash_int s4_with_1 4 = Find hash_int s4_full 4.
Proof.
  split; [by vm_compute|].
  apply (Insert_leaves_other_keys hash_int s4_full 1 101 s4_with_1 4);
    [apply s4_full_inv|by vm_compute|done].
Defined.

Lemma Insert_then_Find_same_key_witness :
  Insert hash_int s4_full 1 101 = Some s4_with_1
  ∧ Find hash_int s4_with_1 1 = Some (Some 101).
Proof.
  assert (Insert hash_int s4_full 1 101 = Some s4_with_1) as Hi by (by vm_compute).
  assert (bucket_at s4_full (hash_int 1 mod 2 ^ global_depth_ s4_full)
          = Some (0%nat, mkBucket 2 0 [(0, 100); (4, 104)])) as Hb by (by vm_compute).
  split; [done|].
  rewrite (Insert_then_Find_same_key hash_int s4_full 1 101 s4_with_1 0%nat
             (mkBucket 2 0 [(0, 100); (4, 104)]) s4_full_inv Hi Hb).
  by vm_compute.
Defined.

Lemma Remove_deletes_exactly_the_key_witness :
  ∃ t' r, Remove hash_int s4_full 4 = Some (t', r) ∧ inv hash_int t'
    ∧ (r = true ↔ ∃ v, Find hash_int s4_full 4 = Some (Some v))
    ∧ Find hash_int t' 4 = Some None
    ∧ ∀ k', k' ≠ 4 → Find hash_int t' k' = Find hash_int s4_full k'.
Proof. apply (Remove_deletes_exactly_the_key hash_int s4_full 4), s4_full_inv. Defined.

End ExtendibleHashTableInvariant.

(* ===================================================================== *)
(** ** LRU-K replacer: the effect of each call *)
(* ===================================================================== *)

Module LRUKReplacerEffects.
Import LRUKReplacer LRUKReplacerProofs.
Section proofs.
Variable evictable_init : bool.
Implicit Types (r : Replacer) (f g : Z) (l : list Z) (es : gmap Z Entry).

Lemma filter_ne_absent l f : f ∉ l → filter (λ g, g ≠ f) l = l.
Proof.
  induction l as [|x l IH]; [done|]. intros [Hne Hni]%not_elem_of_cons.
  rewrite filter_cons, decide_True by done. f_equal. by apply IH.
Qed.

(** [erase] of the node of a frame that occurs once in the list. *)
Lemma erase_filter l f : NoDup l → f ∈ l → erase l f = Some (filter (λ g, g ≠ f) l).
Proof.
  induction l as [|x l IH]; simpl; [by intros _ ?%elem_of_nil|].
  intros [Hni Hnd]%NoDup_cons Hin. rewrite filter_cons. case_decide as Hx.
  - subst x. rewrite decide_False by (by intros ?). by rewrite filter_ne_absent.
  - apply elem_of_cons in Hin as [->|Hin]; [done|].
    rewrite decide_True by done. by rewrite IH.
Qed.

Lemma wf_history_frame r f :
  wf r → f ∈ list_ r →
  ∃ e, entries_ r !! f = Some e ∧ pos_ e = PosList
       ∧ (count_ e = 1 ∨ 1 ≤ count_ e < k_ r)
       ∧ erase (list_ r) f = Some (filter (λ g, g ≠ f) (list_ r))
       ∧ filter (λ g, g ≠ f) (klist_ r) = klist_ r.
Proof.
  intros Hwf Hin. pose proof (wf_list _ Hwf) as Hl. rewrite Forall_forall in Hl.
  destruct (Hl f Hin) as (e & He & Hp & Hc). exists e.
  pose proof (wf_nodup _ Hwf) as (Hnd & Hdis & _)%NoDup_app.
  split_and!; [done..| |].
  - by apply erase_filter.
  - apply filter_ne_absent. by apply Hdis.
Qed.

Lemma wf_cache_frame r f :
  wf r → f ∈ klist_ r →
  ∃ e, entries_ r !! f = Some e ∧ pos_ e = PosKList
       ∧ 1 ≤ count_ e < 2 ^ 64 ∧ k_ r ≤ count_ e
       ∧ erase (klist_ r) f = Some (filter (λ g, g ≠ f) (klist_ r))
       ∧ filter (λ g, g ≠ f) (list_ r) = list_ r.
Proof.
  intros Hwf Hin. pose proof (wf_klist _ Hwf) as Hl. rewrite Forall_forall in Hl.
  destruct (Hl f Hin) as (e & He & Hp & Hc & Hk). exists e.
  pose proof (wf_nodup _ Hwf) as (_ & Hdis & Hnd)%NoDup_app.
  split_and!; try done; try lia.
  - by apply erase_filter.
  - apply filter_ne_absent. intros Hf. by apply (Hdis f).
Qed.

Lemma wf_frame_cases r f :
  wf r → is_Some (entries_ r !! f) → f ∈ list_ r ∨ f ∈ klist_ r.
Proof. intros Hwf Hf. apply elem_of_app. by apply Hwf. Qed.

(** [Remove] on a state that satisfies the invariant, [k >= 2]. *)
Lemma Remove_unfold r f :
  wf r → 2 ≤ k_ r →
  Remove r f
  = Some match entries_ r !! f with
         | None => Removed r
         | Some e => if evictable_ e then Removed (forget r f) else LogicError
         end.
Proof.
  intros Hwf Hk. unfold Remove. destruct (entries_ r !! f) as [e|] eqn:He; [|done].
  destruct (evictable_ e); simpl; [|done].
  destruct (wf_frame_cases r f Hwf) as [Hin|Hin]; [eauto|..].
  - destruct (wf_history_frame r f Hwf Hin) as (e' & He' & Hp & Hc & Her & Hkl).
    simplify_eq. rewrite decide_True by lia. unfold erase_at.
    rewrite decide_True by done. rewrite Her. simpl. unfold forget. by rewrite Hkl.
  - destruct (wf_cache_frame r f Hwf Hin) as (e' & He' & Hp & Hc & Hck & Her & Hl).
    simplify_eq. rewrite decide_False by lia. unfold erase_at.
    rewrite decide_True by done. rewrite Her. simpl. unfold forget. by rewrite Hl.
Qed.

(** [Evict] on a state that satisfies the invariant. *)
Lemma Evict_forget r :
  wf r →
  Evict evictable_init r
  = Some match victim r with
         | Some f => (forget r f, Some f)
         | None => (r, None)
         end.
Proof.
  intros Hwf. unfold Evict.
  rewrite (scan_tracked evictable_init r) by (done || by apply wf_list_tracked).
  unfold victim. destruct (first_evictable r (list_ r)) as [f|] eqn:Hf.
  - apply find_elem_of in Hf as [Hin _].
    destruct (wf_history_frame r f Hwf Hin) as (e & _ & _ & _ & -> & Hkl).
    simpl. unfold forget. by rewrite Hkl.
  - rewrite (scan_tracked evictable_init r) by (done || by apply wf_klist_tracked).
    destruct (first_evictable r (klist_ r)) as [f|] eqn:Hk.
    + apply find_elem_of in Hk as [Hin _].
      destruct (wf_cache_frame r f Hwf Hin) as (e & _ & _ & _ & _ & -> & Hl).
      simpl. unfold forget. by rewrite Hl.
    + by destruct r.
Qed.

Lemma RecordAccess_k r f r' : RecordAccess evictable_init r f = Some r' → k_ r' = k_ r.
Proof.
  unfold RecordAccess. destruct (index_entry _ _ _) as [es e].
  unfold erase_at.
  repeat case_decide; try destruct (erase _ _); simpl; try done; by intros [= <-].
Qed.

Lemma call_defined r c :
  wf r → 2 ≤ k_ r → ∃ r', call evictable_init r c = Some r' ∧ k_ r' = k_ r.
Proof.
  intros Hwf Hk. destruct c as [f|f b| |f]; simpl.
  - destruct (RecordAccess_defined evictable_init r f Hwf Hk) as [r' Hr'].
    exists r'. split; [done|]. by eapply RecordAccess_k.
  - eexists. split; [done|]. unfold SetEvictable. by destruct (entries_ r !! f).
  - rewrite Evict_forget by done. simpl. eexists. split; [done|].
    by destruct (victim r).
  - rewrite Remove_unfold by done. simpl. eexists. split; [done|].
    destruct (entries_ r !! f) as [e|]; [|done]. by destruct (evictable_ e).
Qed.

Lemma run_defined cs : ∀ r n,
  wf r → bounded n r → n + Z.of_nat (length cs) < 2 ^ 64 → 2 ≤ k_ r →
  is_Some (run evictable_init cs r).
Proof.
  induction cs as [|c cs IH]; intros r n Hwf Hb Hn Hk; [by eexists|].
  change (length (c :: cs)) with (S (length cs)) in *. rewrite Nat2Z.inj_succ in *.
  cbn [run]. destruct (call_defined r c Hwf Hk) as (r1 & Hcall & Hk1).
  rewrite Hcall. simpl.
  destruct (call_wf evictable_init r c r1 n) as [Hwf1 Hb1]; [done|done|lia|done|].
  apply (IH r1 (n + 1)); [done|done|lia|lia].
Qed.

(** X5. Every replacer reached from the constructor by fewer than [2^64]
    calls satisfies the replacer's invariant: every tracked frame sits in
    exactly one of the two lists, once, the one its iterator points into; a
    frame of the cache list has at least [k] accesses and a frame of the
    history list fewer than [k] (or exactly one). *)
Theorem reachable_replacer_satisfies_invariant cs num_frames k r :
  0 ≤ k < 2 ^ 64 → Z.of_nat (length cs) < 2 ^ 64 →
  run evictable_init cs (new_replacer num_frames k) = Some r → wf r.
Proof.
  intros Hk Hlen Hrun.
  destruct (run_wf evictable_init cs (new_replacer num_frames k) r 0) as [Hwf _];
    [by apply new_replacer_wf|apply new_replacer_bounded|lia|done|done].
Qed.

(** X6. With [k >= 2] no sequence of fewer than [2^64] calls on a new
    replacer has undefined behaviour: every [erase] goes through an
    iterator into the list it is called on. *)
Theorem calls_are_defined_when_k_at_least_2 cs num_frames k :
  2 ≤ k < 2 ^ 64 → Z.of_nat (length cs) < 2 ^ 64 →
  is_Some (run evictable_init cs (new_replacer num_frames k)).
Proof.
  intros Hk Hlen. apply (run_defined cs (new_replacer num_frames k) 0);
    [apply new_replacer_wf; lia|apply new_replacer_bounded|lia|simpl; lia].
Qed.

(** X7. With [k <= 1] a frame of the history list cannot be accessed
    again, and cannot be removed: the first access put the frame into the
    history list whatever [k], and both calls then erase from the cache
    list through the iterator into the history list. *)
Theorem history_frame_unusable_when_k_at_most_1 r f :
  wf r → k_ r ≤ 1 → f ∈ list_ r →
  RecordAccess evictable_init r f = None
  ∧ (is_evictable r f = true → Remove r f = None).
Proof.
  intros Hwf Hk Hin.
  destruct (wf_history_frame r f Hwf Hin) as (e & He & Hp & Hc & _ & _).
  assert (count_ e = 1) as Hc1 by lia. split.
  - unfold RecordAccess, index_entry. rewrite He, Hc1.
    change (wrap64 (1 + 1)) with 2.
    rewrite decide_False by done. rewrite decide_False by lia.
    rewrite decide_True by lia. unfold erase_at. rewrite Hp.
    by rewrite decide_False.
  - unfold is_evictable, Remove. rewrite He. intros ->. simpl.
    rewrite decide_False by lia. unfold erase_at. rewrite Hp.
    by rewrite decide_False.
Qed.

(** X8. What [RecordAccess] does to the two lists, [k >= 2]: a first
    access appends the frame to the history list; an access that leaves the
    count below [k] moves nothing (the history list keeps the order of first
    accesses); the access that makes the count [k] moves the frame from the
    history list to the tail of the cache list; every later access moves it
    to the tail of the cache list.  The count of the frame goes up by one
    and no other entry changes. *)
Theorem RecordAccess_places_frame r f :
  wf r → 2 ≤ k_ r → access_count r f + 1 < 2 ^ 64 →
  ∃ r', RecordAccess evictable_init r f = Some r'
    ∧ access_count r' f = access_count r f + 1
    ∧ (∀ g, g ≠ f → entries_ r' !! g = entries_ r !! g)
    ∧ (list_ r', klist_ r')
      = (if decide (access_count r f = 0) then (list_ r ++ [f], klist_ r)
         else if decide (access_count r f + 1 < k_ r) then (list_ r, klist_ r)
         else if decide (access_count r f + 1 = k_ r)
              then (filter (λ g, g ≠ f) (list_ r), klist_ r ++ [f])
              else (list_ r, filter (λ g, g ≠ f) (klist_ r) ++ [f])).
Proof.
  intros Hwf Hk Hov. unfold access_count in *.
  destruct (entries_ r !! f) as [e|] eqn:He.
  - pose proof (wf_count_pos _ _ _ Hwf He) as Hc1.
    rewrite (decide_False (P := count_ e = 0)) by lia.
    unfold RecordAccess, index_entry. rewrite He.
    rewrite wrap64_small by lia. rewrite (decide_False (P := count_ e + 1 = 1)) by lia.
    destruct (wf_frame_cases r f Hwf) as [Hin|Hin]; [eauto|..].
    + destruct (wf_history_frame r f Hwf Hin) as (e' & He' & Hp & Hc & Her & Hkl).
      simplify_eq. destruct (decide (count_ e + 1 = k_ r)) as [Heq|Hne].
      * unfold erase_at. rewrite decide_True by done. rewrite Her. simpl.
        eexists. split; [done|]. simpl. rewrite lookup_insert_eq.
        split; [done|]. split; [by intros g Hg; rewrite lookup_insert_ne|].
        by rewrite decide_False by lia.
      * rewrite (decide_False (P := count_ e + 1 > k_ r)) by lia.
        eexists. split; [done|]. simpl. rewrite lookup_insert_eq.
        split; [done|]. split; [by intros g Hg; rewrite lookup_insert_ne|].
        by rewrite decide_True by lia.
    + destruct (wf_cache_frame r f Hwf Hin) as (e' & He' & Hp & Hc & Hck & Her & Hl).
      simplify_eq. rewrite (decide_False (P := count_ e + 1 = k_ r)) by lia.
      rewrite (decide_True (P := count_ e + 1 > k_ r)) by lia.
      unfold erase_at. rewrite decide_True by done. rewrite Her. simpl.
      eexists. split; [done|]. simpl. rewrite lookup_insert_eq.
      split; [done|]. split; [by intros g Hg; rewrite lookup_insert_ne|].
      rewrite decide_False by lia. by rewrite decide_False by lia.
  - rewrite RecordAccess_first by done. eexists. split; [done|]. simpl.
    rewrite lookup_insert_eq. split; [done|].
    split; [by intros g Hg; rewrite lookup_insert_ne|]. done.
Qed.

(** X9. [Evict] forgets its victim and nothing else: the victim's entry
    is erased (a later access starts its count again), its node is unlinked
    from its list, the order of the other frames and their entries stay as
    they were, and [curr_size_] goes down by one.  Without a victim the
    state does not change. *)
Theorem Evict_forgets_victim r :
  wf r →
  Evict evictable_init r
  = Some match victim r with
         | Some f => (forget r f, Some f)
         | None => (r, None)
         end.
Proof. apply Evict_forget. Qed.

(** X10. The three outcomes of [Remove], [k >= 2]: an untracked frame
    leaves the state as it was; a tracked frame that is not evictable throws
    [std::logic_error]; a tracked evictable frame is forgotten like an
    evicted one, whatever its access count. *)
Theorem Remove_outcomes r f :
  wf r → 2 ≤ k_ r →
  Remove r f
  = Some match entries_ r !! f with
         | None => Removed r
         | Some e => if evictable_ e then Removed (forget r f) else LogicError
         end.
Proof. apply Remove_unfold. Qed.

End proofs.

Lemma mixed_replacer_wf : wf (mixed_replacer false).
Proof.
  destruct (run_wf false mixed_calls (new_replacer 7 2) (mixed_replacer false) 0)
    as [Hwf _]; [by apply new_replacer_wf|apply new_replacer_bounded|
                 by vm_compute|by vm_compute|done].
Qed.

Lemma first_access_k1_wf : wf (first_access_k1 false).
Proof.
  destruct (run_wf false [CallRecordAccess 1] (new_replacer 7 1) (first_access_k1 false) 0)
    as [Hwf _]; [by apply new_replacer_wf|apply new_replacer_bounded|
                 by vm_compute|by vm_compute|done].
Qed.

Lemma reachable_replacer_satisfies_invariant_witness :
  run false mixed_calls (new_replacer 7 2) = Some (mixed_replacer false)
  ∧ wf (mixed_replacer false).
Proof.
  split; [by vm_compute|].
  apply (reachable_replacer_satisfies_invariant false mixed_calls 7 2);
    by vm_compute.
Defined.

Lemma calls_are_defined_when_k_at_least_2_witness :
  is_Some (run false mixed_calls (new_replacer 7 2)).
Proof.
  apply (calls_are_defined_when_k_at_least_2 false mixed_calls 7 2); by vm_compute.
Defined.

Lemma history_frame_unusable_when_k_at_most_1_witness :
  list_ (first_access_k1 false) = [1]
  ∧ RecordAccess false (first_access_k1 false) 1 = None
  ∧ (is_evictable (first_access_k1 false) 1 = true
     → Remove (first_access_k1 false) 1 = None).
Proof.
  split; [by vm_compute|].
  apply (history_frame_unusable_when_k_at_most_1 false (first_access_k1 false) 1);
    [apply first_access_k1_wf|by vm_compute|].
  change (list_ (first_access_k1 false)) with [1]. left.
Defined.

Lemma RecordAccess_places_frame_witness :
  ∃ r', RecordAccess false (mixed_replacer false) 1 = Some r'
    ∧ access_count r' 1 = access_count (mixed_replacer false) 1 + 1
    ∧ (∀ g, g ≠ 1 → entries_ r' !! g = entries_ (mixed_replacer false) !! g)
    ∧ (list_ r', klist_ r') = ([3], [2; 1]).
Proof.
  destruct (RecordAccess_places_frame false (mixed_replacer false) 1)
    as (r' & Hr & Hc & Hes & Hl);
    [apply mixed_replacer_wf|by vm_compute|by vm_compute|].
  exists r'. split_and!; [done..|]. rewrite Hl. by vm_compute.
Defined.

Lemma Evict_forgets_victim_witness :
  victim (mixed_replacer false) = Some 3
  ∧ Evict false (mixed_replacer false) = Some (forget (mixed_replacer false) 3, Some 3).
Proof.
  split; [by vm_compute|].
  rewrite (Evict_forgets_victim false (mixed_replacer false) mixed_replacer_wf).
  by vm_compute.
Defined.

Lemma Remove_outcomes_witness :
  Remove (mixed_replacer false) 1 = Some LogicError
  ∧ Remove (mixed_replacer false) 2 = Some (Removed (forget (mixed_replacer false) 2))
  ∧ Remove (mixed_replacer false) 9 = Some (Removed (mixed_replacer false)).
Proof.
  assert (2 ≤ k_ (mixed_replacer false)) as Hk by (by vm_compute).
  rewrite !(λ f, Remove_outcomes (mixed_replacer false) f mixed_replacer_wf Hk).
  by vm_compute.
Defined.

End LRUKReplacerEffects.

(* ===================================================================== *)
(** ** Buffer pool manager: the effect of each call *)
(* ===================================================================== *)

Module BufferPoolManagerEffects.
Import BufferPoolManager BufferPoolManagerProofs.
Section proofs.
Context {Data : Type}.
Variable zero_data : Data.
Variable hash : Z → Z.
Variable evictable_init : bool.
Implicit Types (s : BPM (Data:=Data)) (p : Page (Data:=Data)).

(** *** [FlushAllPages] *)

Lemma flush_from_spec n : ∀ s (i : nat),
  (i + n = length (pages_ s))%nat →
  flush_from s (Z.of_nat i) n
  = Some (mkBPM (pool_size_ s)
            (take i (pages_ s) ++ (flushed <$> drop i (pages_ s)))
            (page_table_ s) (replacer_ s) (free_list_ s) (next_page_id_ s)
            (foldl (λ d p, disk_write d (page_id_ p) (data_ p)) (disk_ s)
               (occupied (drop i (pages_ s))))
            (log_ s ++ ((λ p, EvWritePage (page_id_ p) (data_ p))
                          <$> occupied (drop i (pages_ s))))).
Proof.
  induction n as [|n IH]; intros s i Hlen; simpl.
  - rewrite drop_ge, take_ge by lia. simpl. rewrite !app_nil_r. by destruct s.
  - destruct (lookup_lt_is_Some_2 (pages_ s) i) as [p Hp]; [lia|].
    unfold at_index. rewrite decide_True by lia. rewrite Nat2Z.id, Hp. simpl.
    rewrite (drop_S _ p i) by done. unfold occupied, flushed.
    rewrite fmap_cons, filter_cons.
    replace (Z.of_nat i + 1) with (Z.of_nat (S i)) by lia.
    destruct (decide (page_id_ p ≠ INVALID_PAGE_ID)) as [Hv|Hv]; simpl.
    + unfold store_page. simpl.
      rewrite set_index_defined by (apply lookup_lt_Some in Hp; lia). simpl.
      rewrite Nat2Z.id. rewrite IH by (simpl; rewrite length_insert; lia). simpl.
      rewrite drop_insert_lt by lia.
      rewrite (take_S_r _ i (mkPage (page_id_ p) (data_ p) (pin_count_ p) false))
        by (apply list_lookup_insert_eq; by eapply lookup_lt_Some).
      rewrite take_insert_ge by lia. rewrite <- !app_assoc. done.
    + rewrite IH by lia. rewrite (take_S_r _ i p) by done.
      rewrite <- !app_assoc. done.
Qed.

(** X11. [FlushAllPages] writes every frame that holds a page, in frame
    order and whether it is dirty or not, under the page id of the frame,
    and clears the dirty flag of these frames; it changes nothing else: pin
    counts, bytes, the directory, the replacer and the free list stay as
    they were, and empty frames are skipped. *)
Theorem FlushAllPages_writes_every_occupied_frame s :
  Z.of_nat (length (pages_ s)) = pool_size_ s →
  FlushAllPages s
  = Some (mkBPM (pool_size_ s) (flushed <$> pages_ s)
            (page_table_ s) (replacer_ s) (free_list_ s) (next_page_id_ s)
            (foldl (λ d p, disk_write d (page_id_ p) (data_ p)) (disk_ s)
               (occupied (pages_ s)))
            (log_ s ++ ((λ p, EvWritePage (page_id_ p) (data_ p))
                          <$> occupied (pages_ s)))).
Proof.
  intros Hlen. unfold FlushAllPages.
  exact (flush_from_spec (Z.to_nat (pool_size_ s)) s 0 ltac:(simpl; lia)).
Qed.

(** *** [UnpinPage] *)

Lemma UnpinPage_unfold s page_id is_dirty frame_id p :
  ExtendibleHashTable.Find hash (page_table_ s) page_id = Some (Some frame_id) →
  at_index (pages_ s) frame_id = Some p →
  UnpinPage hash s page_id is_dirty
  = Some (if decide (pin_count_ p ≤ 0) then (s, false)
          else (mkBPM (pool_size_ s)
                  (<[Z.to_nat frame_id :=
                       mkPage (page_id_ p) (data_ p) (pin_count_ p - 1)
                         (if decide (pin_count_ p = 1) then is_dirty_ p || is_dirty
                          else is_dirty_ p)]> (pages_ s))
                  (page_table_ s)
                  (if decide (pin_count_ p = 1)
                   then LRUKReplacer.SetEvictable (replacer_ s) frame_id true
                   else replacer_ s)
                  (free_list_ s) (next_page_id_ s) (disk_ s) (log_ s), true)).
Proof.
  intros Hfind Hat.
  apply at_index_Some in Hat as Hrange. destruct Hrange as [Hrange _].
  unfold UnpinPage. rewrite Hfind. simpl. rewrite Hat. simpl.
  case_decide; [done|].
  unfold store_page. rewrite set_index_defined by done. simpl.
  destruct (decide (pin_count_ p - 1 = 0)) as [H0|H0].
  - rewrite set_index_defined by (by rewrite length_insert). simpl.
    rewrite !decide_True by lia. by rewrite list_insert_insert_eq.
  - by rewrite !decide_False by lia.
Qed.

(** X12. [UnpinPage] on a resident page: with no pin left it returns
    false and changes nothing; otherwise it returns true and takes one pin
    off that frame; the frame becomes evictable, and the dirty hint is
    folded into the dirty flag, only when the pin count reaches zero.  The
    other frames, the directory, the disk and the free list do not change. *)
Theorem UnpinPage_releases_one_pin s page_id is_dirty frame_id p :
  ExtendibleHashTable.Find hash (page_table_ s) page_id = Some (Some frame_id) →
  at_index (pages_ s) frame_id = Some p →
  UnpinPage hash s page_id is_dirty
  = Some (if decide (pin_count_ p ≤ 0) then (s, false)
          else (mkBPM (pool_size_ s)
                  (<[Z.to_nat frame_id :=
                       mkPage (page_id_ p) (data_ p) (pin_count_ p - 1)
                         (if decide (pin_count_ p = 1) then is_dirty_ p || is_dirty
                          else is_dirty_ p)]> (pages_ s))
                  (page_table_ s)
                  (if decide (pin_count_ p = 1)
                   then LRUKReplacer.SetEvictable (replacer_ s) frame_id true
                   else replacer_ s)
                  (free_list_ s) (next_page_id_ s) (disk_ s) (log_ s), true)).
Proof. apply UnpinPage_unfold. Qed.

(** *** [DeletePage] *)

(** X13. [DeletePage] never changes the pool: a call that returns has
    found the page resident, returns true, and leaves every frame, the
    directory, the free list, the replacer and the disk as they were. *)
Theorem DeletePage_changes_nothing s page_id s' result :
  DeletePage zero_data hash s page_id = Some (s', result) →
  s' = s ∧ result = true
  ∧ ∃ frame_id,
      ExtendibleHashTable.Find hash (page_table_ s) page_id = Some (Some frame_id).
Proof.
  unfold DeletePage.
  destruct (ExtendibleHashTable.Find hash (page_table_ s) page_id) as [[f|]|]; simpl.
  - intros [= <- <-]. eauto.
  - done.
  - done.
Qed.

(** *** The pool without a free or evictable frame *)

Lemma no_victim r :
  (∀ f, LRUKReplacer.is_evictable r f = false) → LRUKReplacer.victim r = None.
Proof.
  intros Hnone. unfold LRUKReplacer.victim, LRUKReplacer.first_evictable.
  assert (∀ l, List.find (LRUKReplacer.is_evictable r) l = None) as Hfind.
  { intros l. apply LRUKReplacerProofs.find_None_elem_of. auto. }
  by rewrite !Hfind.
Qed.

(** X14. When the free list is empty and no tracked frame is evictable
    (every page is pinned), [NewPage] and [FetchPage] of a page that is not
    resident return [nullptr] and change nothing: no page id is allocated
    and nothing is read or written. *)
Theorem exhausted_pool_returns_nullptr s :
  free_list_ s = [] →
  LRUKReplacer.wf (replacer_ s) →
  (∀ f, LRUKReplacer.is_evictable (replacer_ s) f = false) →
  NewPage zero_data hash evictable_init s = Some (s, None)
  ∧ ∀ page_id,
      ExtendibleHashTable.Find hash (page_table_ s) page_id = Some None →
      FetchPage zero_data hash evictable_init s page_id = Some (s, None).
Proof.
  intros Hfree Hwf Hnone.
  assert (acquire_frame zero_data hash evictable_init s = Some (s, None)) as Hacq.
  { unfold acquire_frame. rewrite Hfree.
    rewrite LRUKReplacerEffects.Evict_forget by done.
    rewrite no_victim by done. simpl. by destruct s. }
  split.
  - unfold NewPage. by rewrite Hacq.
  - intros page_id Hfind. unfold FetchPage. rewrite Hfind. simpl. by rewrite Hacq.
Qed.

(** *** Pinning a resident page *)

(** X15. [FetchPage] of a resident page adds one pin to its frame and
    touches nothing else but the replacer: no disk read, no write, no change
    of the directory or the free list.  [UnpinPage] without the dirty hint
    then gives back the frames as they were before the fetch. *)
Theorem FetchPage_then_UnpinPage_restores_frames s page_id frame_id p r1 :
  ExtendibleHashTable.Find hash (page_table_ s) page_id = Some (Some frame_id) →
  at_index (pages_ s) frame_id = Some p →
  0 ≤ pin_count_ p →
  LRUKReplacer.RecordAccess evictable_init (replacer_ s) frame_id = Some r1 →
  ∃ s1 s2,
    FetchPage zero_data hash evictable_init s page_id = Some (s1, Some frame_id)
    ∧ s1 = mkBPM (pool_size_ s)
             (<[Z.to_nat frame_id :=
                  mkPage (page_id_ p) (data_ p) (pin_count_ p + 1) (is_dirty_ p)]>
                (pages_ s))
             (page_table_ s) (LRUKReplacer.SetEvictable r1 frame_id false)
             (free_list_ s) (next_page_id_ s) (disk_ s) (log_ s)
    ∧ UnpinPage hash s1 page_id false = Some (s2, true)
    ∧ pages_ s2 = pages_ s ∧ page_table_ s2 = page_table_ s
    ∧ free_list_ s2 = free_list_ s ∧ disk_ s2 = disk_ s ∧ log_ s2 = log_ s.
Proof.
  intros Hfind Hat Hpin Hra.
  apply at_index_Some in Hat as Hrange. destruct Hrange as [Hrange Hlook].
  set (p1 := mkPage (page_id_ p) (data_ p) (pin_count_ p + 1) (is_dirty_ p)).
  set (s1 := mkBPM (pool_size_ s) (<[Z.to_nat frame_id := p1]> (pages_ s))
               (page_table_ s) (LRUKReplacer.SetEvictable r1 frame_id false)
               (free_list_ s) (next_page_id_ s) (disk_ s) (log_ s)).
  assert (FetchPage zero_data hash evictable_init s page_id = Some (s1, Some frame_id))
    as Hfetch.
  { unfold FetchPage. rewrite Hfind. simpl. rewrite Hat. simpl.
    unfold store_page. rewrite set_index_defined by done. simpl.
    unfold touch. simpl. by rewrite Hra. }
  pose proof (UnpinPage_unfold s1 page_id false frame_id p1 Hfind
                (at_index_insert _ _ _ Hrange)) as Hunpin.
  rewrite decide_False in Hunpin by (simpl; lia).
  eexists s1, _. split_and!; [done|done|exact Hunpin|..]; simpl; try done.
  rewrite list_insert_insert_eq.
  replace (pin_count_ p + 1 - 1) with (pin_count_ p) by lia.
  assert ((if decide (pin_count_ p + 1 = 1) then is_dirty_ p || false else is_dirty_ p)
          = is_dirty_ p) as ->
    by (destruct (decide (pin_count_ p + 1 = 1)); by destruct (is_dirty_ p)).
  apply list_insert_id. rewrite Hlook. by destruct p.
Qed.

(** *** Taking a frame from the free list *)


(** *** Pinned frames and the replacer *)

Lemma store_page_inv s f p s' :
  store_page s f p = Some s' →
  0 ≤ f < Z.of_nat (length (pages_ s))
  ∧ s' = set_pages s (<[Z.to_nat f := p]> (pages_ s)).
Proof.
  unfold store_page, set_index. case_decide; simpl; [|done]. by intros [= <-].
Qed.

Lemma touch_inv s f s' :
  touch evictable_init s f = Some s' →
  ∃ r1, LRUKReplacer.RecordAccess evictable_init (replacer_ s) f = Some r1
        ∧ s' = set_replacer s (LRUKReplacer.SetEvictable r1 f false).
Proof.
  unfold touch. destruct (LRUKReplacer.RecordAccess _ _ _) as [r1|]; simpl; [|done].
  intros [= <-]. eauto.
Qed.

Lemma table_insert_inv s page_id f s' :
  table_insert hash s page_id f = Some s' →
  replacer_ s' = replacer_ s ∧ pages_ s' = pages_ s.
Proof.
  unfold table_insert. destruct (ExtendibleHashTable.Insert _ _ _ _); simpl; [|done].
  by intros [= <-].
Qed.

Lemma table_remove_inv s page_id s' :
  table_remove hash s page_id = Some s' →
  replacer_ s' = replacer_ s ∧ pages_ s' = pages_ s.
Proof.
  unfold table_remove.
  destruct (ExtendibleHashTable.Remove _ _ _) as [[t b]|]; simpl; [|done].
  by intros [= <-].
Qed.

Lemma pin_counts_insert_same (ps : list (Page (Data:=Data))) f p p' :
  at_index ps f = Some p → pin_count_ p' = pin_count_ p →
  pin_count_ <$> <[Z.to_nat f := p']> ps = pin_count_ <$> ps.
Proof.
  intros [_ Hlook]%at_index_Some Hpin. rewrite list_fmap_insert, Hpin.
  apply list_insert_id. by rewrite list_lookup_fmap, Hlook.
Qed.

Lemma pin_counts_insert_ne (ps : list (Page (Data:=Data))) f g p' :
  g ≠ f → 0 ≤ f →
  at_index (pin_count_ <$> <[Z.to_nat f := p']> ps) g = at_index (pin_count_ <$> ps) g.
Proof.
  intros Hne Hf. unfold at_index. case_decide; [|done].
  rewrite !list_lookup_fmap, list_lookup_insert_ne by lia. done.
Qed.

Lemma recycle_inv s f s' :
  recycle zero_data hash s f = Some s' →
  replacer_ s' = replacer_ s ∧ pin_counts s' = pin_counts s.
Proof.
  unfold recycle. destruct (at_index (pages_ s) f) as [p|] eqn:Hat; simpl; [|done].
  destruct (is_dirty_ p); simpl.
  - destruct (store_page _ _ _) as [s2|] eqn:Hst; simpl; [|done].
    apply store_page_inv in Hst as [_ ->]. intros [-> Hp]%table_remove_inv.
    split; [done|]. unfold pin_counts. rewrite Hp. simpl.
    by apply (pin_counts_insert_same _ _ p).
  - destruct (store_page _ _ _) as [s2|] eqn:Hst; simpl; [|done].
    apply store_page_inv in Hst as [_ ->]. intros [-> Hp]%table_remove_inv.
    split; [done|]. unfold pin_counts. rewrite Hp. simpl.
    by apply (pin_counts_insert_same _ _ p).
Qed.

Lemma is_evictable_forget r f g :
  LRUKReplacer.is_evictable (LRUKReplacer.forget r f) g = true →
  LRUKReplacer.is_evictable r g = true.
Proof.
  unfold LRUKReplacer.is_evictable, LRUKReplacer.forget. simpl.
  destruct (decide (g = f)) as [->|Hne].
  - by rewrite lookup_delete_eq.
  - by rewrite lookup_delete_ne.
Qed.

Lemma RecordAccess_entries r f r1 :
  LRUKReplacer.RecordAccess evictable_init r f = Some r1 →
  is_Some (LRUKReplacer.entries_ r1 !! f)
  ∧ ∀ g, g ≠ f → LRUKReplacer.entries_ r1 !! g = LRUKReplacer.entries_ r !! g.
Proof.
  unfold LRUKReplacer.RecordAccess, LRUKReplacer.index_entry.
  assert (∀ (es : gmap Z LRUKReplacer.Entry) e,
            is_Some (<[f := e]> es !! f)) as Hin
    by (intros es e; rewrite lookup_insert_eq; eauto).
  destruct (LRUKReplacer.entries_ r !! f) as [e|] eqn:He.
  - repeat case_decide; unfold LRUKReplacer.erase_at; repeat case_decide;
      try destruct (LRUKReplacer.erase _ _); simpl; try done;
      intros [= <-]; simpl; (split; [apply Hin|]);
      intros g Hg; by rewrite lookup_insert_ne.
  - repeat case_decide; unfold LRUKReplacer.erase_at; repeat case_decide;
      try destruct (LRUKReplacer.erase _ _); simpl; try done;
      intros [= <-]; simpl; (split; [apply Hin|]);
      intros g Hg; by rewrite !lookup_insert_ne.
Qed.

Lemma touch_evictable r f r1 g :
  LRUKReplacer.RecordAccess evictable_init r f = Some r1 →
  LRUKReplacer.is_evictable (LRUKReplacer.SetEvictable r1 f false) g = true →
  g ≠ f ∧ LRUKReplacer.is_evictable r g = true.
Proof.
  intros [[e He] Hother]%RecordAccess_entries.
  unfold LRUKReplacer.is_evictable, LRUKReplacer.SetEvictable. rewrite He. simpl.
  destruct (decide (g = f)) as [->|Hne].
  - by rewrite lookup_insert_eq.
  - rewrite lookup_insert_ne by done. rewrite Hother by done. done.
Qed.

Lemma SetEvictable_true_evictable r f g :
  LRUKReplacer.is_evictable (LRUKReplacer.SetEvictable r f true) g = true →
  g = f ∨ LRUKReplacer.is_evictable r g = true.
Proof.
  unfold LRUKReplacer.is_evictable, LRUKReplacer.SetEvictable.
  destruct (LRUKReplacer.entries_ r !! f) as [e|] eqn:He; [|by right]. simpl.
  destruct (decide (g = f)) as [->|Hne]; [by left|].
  rewrite lookup_insert_ne by done. by right.
Qed.

Lemma acquire_frame_inv s s1 fr n :
  0 ≤ n → pool_inv n s →
  acquire_frame zero_data hash evictable_init s = Some (s1, fr) →
  pool_inv n s1.
Proof.
  intros Hn (Hwf & Hb & Hpins). unfold acquire_frame.
  destruct (free_list_ s) as [|f0 rest]; [|by intros [= <- <-]].
  pose proof (LRUKReplacerEffects.Evict_forget evictable_init _ Hwf) as Hev.
  rewrite Hev. simpl.
  destruct (LRUKReplacer.victim (replacer_ s)) as [f|] eqn:Hv.
  - destruct (recycle _ _ _ _) as [s2|] eqn:Hrec; simpl; [|done].
    intros [= <- <-]. apply recycle_inv in Hrec as [Hr Hp]. simpl in Hr.
    unfold pool_inv, pins_ok. rewrite Hr, Hp. split_and!.
    + by eapply LRUKReplacerProofs.Evict_wf.
    + by eapply LRUKReplacerProofs.bounded_delete.
    + intros g c Hg. apply Hpins. by eapply is_evictable_forget.
  - intros [= <- <-]. by destruct s.
Qed.

(** One more pin on the frame [f], and the replacer told so. *)
Lemma pin_touch_inv s f r1 s' n :
  pool_inv n s →
  LRUKReplacer.RecordAccess evictable_init (replacer_ s) f = Some r1 →
  replacer_ s' = LRUKReplacer.SetEvictable r1 f false →
  (∀ g, g ≠ f → at_index (pin_counts s') g = at_index (pin_counts s) g) →
  n + 1 < 2 ^ 64 →
  pool_inv (n + 1) s'.
Proof.
  intros (Hwf & Hb & Hpins) Hra Hr Hp Hn. unfold pool_inv, pins_ok. rewrite Hr.
  split_and!.
  - apply LRUKReplacerProofs.SetEvictable_wf.
    eapply LRUKReplacerProofs.RecordAccess_wf; [done| |done].
    pose proof (Hb f). lia.
  - apply LRUKReplacerProofs.SetEvictable_bounded.
    by eapply LRUKReplacerProofs.RecordAccess_bounded.
  - intros g c [Hne Hg]%(touch_evictable _ _ _ _ Hra). rewrite Hp by done.
    by apply Hpins.
Qed.

Lemma pool_inv_mono s n m : n ≤ m → pool_inv n s → pool_inv m s.
Proof.
  intros Hnm (Hwf & Hb & Hpins). split_and!; [done| |done].
  intros f. pose proof (Hb f). lia.
Qed.

Lemma NewPage_inv s s' res n :
  0 ≤ n → n + 1 < 2 ^ 64 → pool_inv n s →
  NewPage zero_data hash evictable_init s = Some (s', res) → pool_inv (n + 1) s'.
Proof.
  intros Hn Hn1 Hinv. unfold NewPage.
  destruct (acquire_frame _ _ _ s) as [[s1 fr]|] eqn:Hacq; simpl; [|done].
  pose proof (acquire_frame_inv _ _ _ _ Hn Hinv Hacq) as Hinv1.
  destruct fr as [f|]; [|intros [= <- <-]; by apply (pool_inv_mono _ n); [lia|]].
  simpl. destruct (at_index (pages_ s1) f) as [p|] eqn:Hat; simpl; [|done].
  destruct (store_page _ _ _) as [s3|] eqn:Hst; simpl; [|done].
  apply store_page_inv in Hst as [Hf ->]. simpl in Hf.
  destruct (touch _ _ _) as [s4|] eqn:Ht; simpl; [|done].
  apply touch_inv in Ht as (r1 & Hra & ->). simpl in Hra.
  destruct (table_insert _ _ _ _) as [s5|] eqn:Hti; simpl; [|done].
  apply table_insert_inv in Hti as [Hr5 Hp5]. simpl in Hr5, Hp5.
  intros [= <- <-].
  apply (pin_touch_inv s1 f r1); [done..| |done].
  intros g Hg. unfold pin_counts. rewrite Hp5. apply pin_counts_insert_ne; [done|lia].
Qed.

Lemma FetchPage_inv s page_id s' res n :
  0 ≤ n → n + 1 < 2 ^ 64 → pool_inv n s →
  FetchPage zero_data hash evictable_init s page_id = Some (s', res) →
  pool_inv (n + 1) s'.
Proof.
  intros Hn Hn1 Hinv. unfold FetchPage.
  destruct (ExtendibleHashTable.Find _ _ _) as [[f|]|]; simpl; [| |done].
  - destruct (at_index (pages_ s) f) as [p|] eqn:Hat; simpl; [|done].
    destruct (store_page _ _ _) as [s1|] eqn:Hst; simpl; [|done].
    apply store_page_inv in Hst as [Hf ->].
    destruct (touch _ _ _) as [s2|] eqn:Ht; simpl; [|done].
    apply touch_inv in Ht as (r1 & Hra & ->). simpl in Hra.
    intros [= <- <-]. apply (pin_touch_inv s f r1); [done..| |done].
    intros g Hg. apply pin_counts_insert_ne; [done|lia].
  - destruct (acquire_frame _ _ _ s) as [[s1 fr]|] eqn:Hacq; simpl; [|done].
    pose proof (acquire_frame_inv _ _ _ _ Hn Hinv Hacq) as Hinv1.
    destruct fr as [f|]; [|intros [= <- <-]; by apply (pool_inv_mono _ n); [lia|]].
    simpl. destruct (at_index (pages_ s1) f) as [p|] eqn:Hat; simpl; [|done].
    destruct (store_page _ _ _) as [s2|] eqn:Hst; simpl; [|done].
    apply store_page_inv in Hst as [Hf ->].
    destruct (touch _ _ _) as [s3|] eqn:Ht; simpl; [|done].
    apply touch_inv in Ht as (r1 & Hra & ->). simpl in Hra. simpl.
    rewrite at_index_insert by done. simpl.
    destruct (store_page _ _ _) as [s4|] eqn:Hst4; simpl; [|done].
    apply store_page_inv in Hst4 as [_ ->]. simpl.
    destruct (table_insert _ _ _ _) as [s5|] eqn:Hti; simpl; [|done].
    apply table_insert_inv in Hti as [Hr5 Hp5]. simpl in Hr5, Hp5.
    intros [= <- <-].
    apply (pin_touch_inv s1 f r1); [done..| |done].
    intros g Hg. unfold pin_counts. rewrite Hp5. rewrite list_insert_insert_eq.
    apply pin_counts_insert_ne; [done|lia].
Qed.

Lemma UnpinPage_inv s page_id is_dirty s' res n :
  pool_inv n s → UnpinPage hash s page_id is_dirty = Some (s', res) → pool_inv n s'.
Proof.
  intros (Hwf & Hb & Hpins).
  destruct (ExtendibleHashTable.Find hash (page_table_ s) page_id) as [[f|]|] eqn:Hfind.
  - destruct (at_index (pages_ s) f) as [p|] eqn:Hat.
    + rewrite (UnpinPage_unfold s page_id is_dirty f p Hfind Hat).
      case_decide as Hpin; intros [= <- <-]; [done|].
      pose proof Hat as [Hf Hlook]%at_index_Some.
      unfold pool_inv, pins_ok, pin_counts. simpl. split_and!.
      * case_decide; [by apply LRUKReplacerProofs.SetEvictable_wf|done].
      * case_decide; [by apply LRUKReplacerProofs.SetEvictable_bounded|done].
      * intros g c Hg. destruct (decide (g = f)) as [->|Hne].
        -- rewrite list_fmap_insert. simpl.
           rewrite at_index_insert by (by rewrite length_fmap). intros [= <-].
           destruct (decide (pin_count_ p = 1)) as [H1|H1]; [lia|].
           assert (pin_count_ p = 0); [|lia]. apply (Hpins f); [done|].
           unfold pin_counts, at_index. rewrite decide_True by lia.
           by rewrite list_lookup_fmap, Hlook.
        -- rewrite pin_counts_insert_ne by (done || lia).
           apply Hpins. destruct (decide (pin_count_ p = 1)); [|done].
           by apply SetEvictable_true_evictable in Hg as [->|Hg].
    + unfold UnpinPage. rewrite Hfind. simpl. by rewrite Hat.
  - unfold UnpinPage. rewrite Hfind. simpl. by intros [= <- <-].
  - unfold UnpinPage. by rewrite Hfind.
Qed.

Lemma FlushPage_inv s page_id s' res n :
  pool_inv n s → FlushPage hash s page_id = Some (s', res) → pool_inv n s'.
Proof.
  intros Hinv. unfold FlushPage.
  destruct (ExtendibleHashTable.Find _ _ _) as [[f|]|]; simpl; [| |done].
  - destruct (at_index (pages_ s) f) as [p|] eqn:Hat; simpl; [|done].
    destruct (store_page _ _ _) as [s1|] eqn:Hst; simpl; [|done].
    apply store_page_inv in Hst as [Hf ->]. intros [= <- <-].
    unfold pool_inv, pins_ok, pin_counts. simpl.
    by rewrite (pin_counts_insert_same _ _ p).
  - by intros [= <- <-].
Qed.

Lemma flush_from_inv n' : ∀ s i s',
  flush_from s i n' = Some s' →
  replacer_ s' = replacer_ s ∧ pin_counts s' = pin_counts s.
Proof.
  induction n' as [|n' IH]; intros s i s'; simpl; [by intros [= <-]|].
  destruct (at_index (pages_ s) i) as [p|] eqn:Hat; simpl; [|done].
  case_decide.
  - destruct (store_page _ _ _) as [s1|] eqn:Hst; simpl; [|done].
    apply store_page_inv in Hst as [Hf ->]. intros [-> ->]%IH.
    split; [done|]. unfold pin_counts. simpl.
    by rewrite (pin_counts_insert_same _ _ p).
  - simpl. apply IH.
Qed.

Lemma call_pool_inv s c s' n :
  0 ≤ n → n + 1 < 2 ^ 64 → pool_inv n s →
  call zero_data hash evictable_init s c = Some s' → pool_inv (n + 1) s'.
Proof.
  intros Hn Hn1 Hinv.
  destruct c as [|page_id|page_id is_dirty|page_id| |page_id]; simpl.
  - destruct (NewPage _ _ _ s) as [[s1 res]|] eqn:Hc; simpl; [|done].
    intros [= <-]. by eapply NewPage_inv.
  - destruct (FetchPage _ _ _ s _) as [[s1 res]|] eqn:Hc; simpl; [|done].
    intros [= <-]. by eapply FetchPage_inv.
  - destruct (UnpinPage _ s _ _) as [[s1 res]|] eqn:Hc; simpl; [|done].
    intros [= <-]. apply (pool_inv_mono _ n); [lia|]. by eapply UnpinPage_inv.
  - destruct (FlushPage _ s _) as [[s1 res]|] eqn:Hc; simpl; [|done].
    intros [= <-]. apply (pool_inv_mono _ n); [lia|]. by eapply FlushPage_inv.
  - unfold FlushAllPages. intros [Hr Hp]%flush_from_inv.
    apply (pool_inv_mono s n (n + 1)) in Hinv; [|lia].
    unfold pool_inv, pins_ok in *. by rewrite Hr, Hp.
  - destruct (DeletePage _ _ s _) as [[s1 res]|] eqn:Hc; simpl; [|done].
    intros [= <-]. apply (pool_inv_mono _ n); [lia|].
    revert Hc. unfold DeletePage.
    destruct (ExtendibleHashTable.Find _ _ _) as [[f|]|]; simpl; [|done..].
    by intros [= <- <-].
Qed.

Lemma run_pool_inv cs : ∀ s s' n,
  0 ≤ n → n + Z.of_nat (length cs) < 2 ^ 64 → pool_inv n s →
  run zero_data hash evictable_init s cs = Some s' →
  pool_inv (n + Z.of_nat (length cs)) s'.
Proof.
  induction cs as [|c cs IH]; intros s s' n Hn Hlen Hinv.
  - intros [= <-]. simpl. by rewrite Z.add_0_r.
  - change (length (c :: cs)) with (S (length cs)) in *. rewrite Nat2Z.inj_succ in *.
    cbn [run]. destruct (call _ _ _ s c) as [s1|] eqn:Hcall; simpl; [|done].
    intros Hrun. replace (n + Z.succ (Z.of_nat (length cs)))
      with (n + 1 + Z.of_nat (length cs)) by lia.
    apply (IH s1); [lia|lia| |done]. apply (call_pool_inv s c); [lia..|done|done].
Qed.

Lemma new_bpm_pool_inv (pool_size : nat) k (bucket_size : nat) :
  0 ≤ k < 2 ^ 64 → pool_inv 0 (new_bpm zero_data pool_size k bucket_size).
Proof.
  intros Hk. split_and!.
  - by apply LRUKReplacerProofs.new_replacer_wf.
  - apply LRUKReplacerProofs.new_replacer_bounded.
  - intros f c. unfold LRUKReplacer.is_evictable. simpl. by rewrite lookup_empty.
Qed.

(** X17. In every pool reached from the constructor by fewer than [2^64]
    calls, the frame the replacer gives up next has pin count zero: a page
    that is pinned is never evicted. *)
Theorem pinned_frame_is_never_evicted cs (pool_size : nat) k (bucket_size : nat) s :
  0 ≤ k < 2 ^ 64 → Z.of_nat (length cs) < 2 ^ 64 →
  run zero_data hash evictable_init (new_bpm zero_data pool_size k bucket_size) cs
  = Some s →
  ∀ r f p,
    LRUKReplacer.Evict evictable_init (replacer_ s) = Some (r, Some f) →
    at_index (pages_ s) f = Some p → pin_count_ p = 0.
Proof.
  intros Hk Hlen Hrun r f p Hev Hat.
  destruct (run_pool_inv cs _ s 0 ltac:(done) ltac:(lia) (new_bpm_pool_inv _ _ _ Hk) Hrun)
    as (Hwf & _ & Hpins).
  rewrite LRUKReplacerEffects.Evict_forget in Hev by done.
  destruct (LRUKReplacer.victim (replacer_ s)) as [f'|] eqn:Hv; [|done].
  injection Hev as _ ->.
  apply LRUKReplacerProofs.victim_elem_of in Hv as [Hevic _].
  apply (Hpins f); [done|].
  apply at_index_Some in Hat as [Hf Hlook].
  unfold pin_counts, at_index. rewrite decide_True by lia.
  by rewrite list_lookup_fmap, Hlook.
Qed.

End proofs.

Import PoolExamples.

Lemma FlushAllPages_writes_every_occupied_frame_witness :
  occupied (pages_ released_dirty) = [mkPage 0 0 0 true]
  ∧ ∃ s', FlushAllPages released_dirty = Some s'
          ∧ pages_ s' = [mkPage 0 0 0 false; mkPage (-1) 0 0 false]
          ∧ log_ s' = log_ released_dirty ++ [EvWritePage 0 0].
Proof.
  split; [by vm_compute|]. eexists. split.
  - apply (FlushAllPages_writes_every_occupied_frame released_dirty). by vm_compute.
  - split; by vm_compute.
Defined.

Lemma UnpinPage_releases_one_pin_witness :
  ∃ s', UnpinPage hash_int pinned_once 0 true = Some (s', true)
        ∧ pages_ s' = [mkPage 0 0 0 true; mkPage (-1) 0 0 false]
        ∧ LRUKReplacer.is_evictable (replacer_ s') 0 = true.
Proof.
  assert (ExtendibleHashTable.Find hash_int (page_table_ pinned_once) 0 = Some (Some 0))
    as Hfind by (by vm_compute).
  assert (at_index (pages_ pinned_once) 0 = Some (mkPage 0 0 1 false)) as Hat
    by (by vm_compute).
  pose proof (UnpinPage_releases_one_pin hash_int pinned_once 0 true 0
                (mkPage 0 0 1 false) Hfind Hat) as Hunpin.
  rewrite decide_False in Hunpin by (simpl; lia).
  eexists. split; [exact Hunpin|]. split; by vm_compute.
Defined.

Lemma DeletePage_changes_nothing_witness :
  DeletePage 0 hash_int pinned_once 0 = Some (pinned_once, true)
  ∧ ∃ frame_id,
      ExtendibleHashTable.Find hash_int (page_table_ pinned_once) 0 = Some (Some frame_id).
Proof.
  assert (DeletePage 0 hash_int pinned_once 0 = Some (pinned_once, true)) as Hd
    by (by vm_compute).
  split; [done|].
  by destruct (DeletePage_changes_nothing 0 hash_int pinned_once 0 pinned_once true Hd)
    as (_ & _ & Hres).
Defined.

Lemma full_pool_replacer_wf : LRUKReplacer.wf (replacer_ full_pool).
Proof.
  destruct (LRUKReplacerProofs.run_wf false
              [LRUKReplacer.CallRecordAccess 0; LRUKReplacer.CallSetEvictable 0 false]
              (LRUKReplacer.new_replacer 1 2) (replacer_ full_pool) 0)
    as [Hwf _]; [by apply LRUKReplacerProofs.new_replacer_wf|
                 apply LRUKReplacerProofs.new_replacer_bounded|
                 by vm_compute|by vm_compute|done].
Qed.

Lemma exhausted_pool_returns_nullptr_witness :
  free_list_ full_pool = []
  ∧ NewPage 0 hash_int false full_pool = Some (full_pool, None)
  ∧ FetchPage 0 hash_int false full_pool 5 = Some (full_pool, None).
Proof.
  split; [by vm_compute|].
  destruct (exhausted_pool_returns_nullptr 0 hash_int false full_pool) as [Hnew Hfetch].
  - by vm_compute.
  - apply full_pool_replacer_wf.
  - intros f. unfold LRUKReplacer.is_evictable.
    assert (LRUKReplacer.entries_ (replacer_ full_pool)
            = {[0 := LRUKReplacer.mkEntry 1 false LRUKReplacer.PosList]}) as ->
      by (by vm_compute).
    destruct (decide (f = 0)) as [->|Hne].
    + by rewrite lookup_singleton_eq.
    + by rewrite lookup_singleton_ne.
  - split; [done|]. apply Hfetch. by vm_compute.
Defined.

Lemma FetchPage_then_UnpinPage_restores_frames_witness :
  ∃ s1 s2,
    FetchPage 0 hash_int false pinned_once 0 = Some (s1, Some 0)
    ∧ at_index (pages_ s1) 0 = Some (mkPage 0 0 2 false)
    ∧ UnpinPage hash_int s1 0 false = Some (s2, true)
    ∧ pages_ s2 = pages_ pinned_once.
Proof.
  destruct (LRUKReplacer.RecordAccess false (replacer_ pinned_once) 0) as [r1|] eqn:Hra;
    [|by vm_compute in Hra].
  destruct (FetchPage_then_UnpinPage_restores_frames 0 hash_int false pinned_once 0 0
              (mkPage 0 0 1 false) r1)
    as (s1 & s2 & Hfetch & Hs1 & Hunpin & Hpages & _);
    [by vm_compute|by vm_compute|by vm_compute|done|].
  exists s1, s2. split_and!; [done| |done|done].
  rewrite Hs1. by vm_compute.
Defined.


Lemma pinned_frame_is_never_evicted_witness :
  run 0 hash_int false (new_bpm 0 2 2 4) pool_calls = Some pool_after_calls
  ∧ LRUKReplacer.victim (replacer_ pool_after_calls) = Some 1
  ∧ ∀ r f p,
      LRUKReplacer.Evict false (replacer_ pool_after_calls) = Some (r, Some f) →
      at_index (pages_ pool_after_calls) f = Some p → pin_count_ p = 0.
Proof.
  assert (0 ≤ 2 < 2 ^ 64) as Hk by (by vm_compute).
  assert (Z.of_nat (length pool_calls) < 2 ^ 64) as Hlen by (by vm_compute).
  assert (run 0 hash_int false (new_bpm 0 2 2 4) pool_calls = Some pool_after_calls)
    as Hrun by (vm_compute; reflexivity).
  split; [exact Hrun|]. split; [vm_compute; reflexivity|].
  exact (pinned_frame_is_never_evicted 0 hash_int false pool_calls 2 2 4
           pool_after_calls Hk Hlen Hrun).
Defined.

End BufferPoolManagerEffects.

(* ===================================================================== *)
(** ** B+ tree pages: searching, inserting, splitting *)
(* ===================================================================== *)

Module BPlusTreePages.
Import BPlusTree BPlusTreeProofs.
Section proofs.
Context {KeyType ValueType : Type}.
Variable comparator : KeyType → KeyType → Z.
Variable zero_key : KeyType.
Variable zero_value : ValueType.
Variable default_pair : KeyType * ValueType.
Implicit Types (p : LeafPage (KeyType:=KeyType) (ValueType:=ValueType)).
Implicit Types (q : InternalPage (KeyType:=KeyType)).

(** *** The binary searches *)

(** The loop of [KeyIndex] between the bounds [lo] and [hi], for keys
    among which those not greater than [key] come first: it returns the
    last index whose key is not greater than [key], and the initial [ret]
    when there is none. *)
Lemma Leaf_KeyIndex_loop_spec p key lo hi ret0 fuel :
  (∀ i j, lo ≤ i ≤ j ≤ hi →
     comparator (Leaf_KeyAt zero_key zero_value p j) key ≤ 0 →
     comparator (Leaf_KeyAt zero_key zero_value p i) key ≤ 0) →
  ∀ l r ret,
    r - l < Z.of_nat fuel → lo ≤ l → r ≤ hi → l ≤ r + 1 →
    (∀ i, lo ≤ i < l → comparator (Leaf_KeyAt zero_key zero_value p i) key ≤ 0) →
    (∀ i, r < i ≤ hi → 0 < comparator (Leaf_KeyAt zero_key zero_value p i) key) →
    (l = lo ∧ ret = ret0 ∨ lo < l ∧ ret = l - 1) →
    ∃ res,
      Leaf_KeyIndex_loop comparator zero_key zero_value fuel p key l r ret = Some res
      ∧ ((res = ret0
          ∧ ∀ i, lo ≤ i ≤ hi → 0 < comparator (Leaf_KeyAt zero_key zero_value p i) key)
         ∨ (lo ≤ res ≤ hi
            ∧ comparator (Leaf_KeyAt zero_key zero_value p res) key ≤ 0
            ∧ ∀ i, res < i ≤ hi →
                0 < comparator (Leaf_KeyAt zero_key zero_value p i) key)).
Proof.
  intros Hmono. induction fuel as [|fuel IH]; intros l r ret Hfuel Hl Hr Hlr Hle Hgt Hret.
  - simpl. rewrite decide_False by lia. exists ret. split; [done|].
    destruct Hret as [[-> ->]|[Hlo ->]].
    + left. split; [done|]. intros i Hi. apply Hgt. lia.
    + right. split_and!; [lia|lia|apply Hle; lia|]. intros i Hi. apply Hgt. lia.
  - simpl. case_decide as Hcase.
    + assert (0 ≤ (r - l) `quot` 2 ≤ r - l) by (Z.quot_rem_to_equations; lia).
      case_decide as Hmid.
      * apply IH; [lia..| | |right; lia].
        -- intros i Hi. apply (Hmono i ((r - l) `quot` 2 + l)); [lia|done].
        -- intros i Hi. apply Hgt. lia.
      * apply IH; [lia..|done| |done].
        intros i Hi.
        destruct (decide (comparator (Leaf_KeyAt zero_key zero_value p i) key ≤ 0))
          as [Hi0|Hi0]; [|lia].
        destruct (decide (i ≤ r)) as [Hir|Hir]; [|apply Hgt; lia].
        exfalso. apply Hmid. apply (Hmono ((r - l) `quot` 2 + l) i); [lia|done].
    + exists ret. split; [done|].
      destruct Hret as [[-> ->]|[Hlo ->]].
      * left. split; [done|]. intros i Hi. apply Hgt. lia.
      * right. split_and!; [lia|lia|apply Hle; lia|]. intros i Hi. apply Hgt. lia.
Qed.

Lemma Internal_Lookup_loop_spec q key lo hi ret0 fuel :
  (∀ i j, lo ≤ i ≤ j ≤ hi →
     comparator (Internal_KeyAt zero_key q j) key ≤ 0 →
     comparator (Internal_KeyAt zero_key q i) key ≤ 0) →
  ∀ l r ret,
    r - l < Z.of_nat fuel → lo ≤ l → r ≤ hi → l ≤ r + 1 →
    (∀ i, lo ≤ i < l → comparator (Internal_KeyAt zero_key q i) key ≤ 0) →
    (∀ i, r < i ≤ hi → 0 < comparator (Internal_KeyAt zero_key q i) key) →
    (l = lo ∧ ret = ret0 ∨ lo < l ∧ ret = l - 1) →
    ∃ res,
      Internal_Lookup_loop comparator zero_key fuel q key l r ret = Some res
      ∧ ((res = ret0
          ∧ ∀ i, lo ≤ i ≤ hi → 0 < comparator (Internal_KeyAt zero_key q i) key)
         ∨ (lo ≤ res ≤ hi
            ∧ comparator (Internal_KeyAt zero_key q res) key ≤ 0
            ∧ ∀ i, res < i ≤ hi → 0 < comparator (Internal_KeyAt zero_key q i) key)).
Proof.
  intros Hmono. induction fuel as [|fuel IH]; intros l r ret Hfuel Hl Hr Hlr Hle Hgt Hret.
  - simpl. rewrite decide_False by lia. exists ret. split; [done|].
    destruct Hret as [[-> ->]|[Hlo ->]].
    + left. split; [done|]. intros i Hi. apply Hgt. lia.
    + right. split_and!; [lia|lia|apply Hle; lia|]. intros i Hi. apply Hgt. lia.
  - simpl. case_decide as Hcase.
    + assert (0 ≤ (r - l) `quot` 2 ≤ r - l) by (Z.quot_rem_to_equations; lia).
      case_decide as Hmid.
      * apply IH; [lia..| | |right; lia].
        -- intros i Hi. apply (Hmono i ((r - l) `quot` 2 + l)); [lia|done].
        -- intros i Hi. apply Hgt. lia.
      * apply IH; [lia..|done| |done].
        intros i Hi.
        destruct (decide (comparator (Internal_KeyAt zero_key q i) key ≤ 0))
          as [Hi0|Hi0]; [|lia].
        destruct (decide (i ≤ r)) as [Hir|Hir]; [|apply Hgt; lia].
        exfalso. apply Hmid. apply (Hmono ((r - l) `quot` 2 + l) i); [lia|done].
    + exists ret. split; [done|].
      destruct Hret as [[-> ->]|[Hlo ->]].
      * left. split; [done|]. intros i Hi. apply Hgt. lia.
      * right. split_and!; [lia|lia|apply Hle; lia|]. intros i Hi. apply Hgt. lia.
Qed.

Lemma Leaf_KeyIndex_spec p key :
  (∀ i j, 0 ≤ i ≤ j ∧ j < size_ (leaf_header p) →
     comparator (Leaf_KeyAt zero_key zero_value p j) key ≤ 0 →
     comparator (Leaf_KeyAt zero_key zero_value p i) key ≤ 0) →
  ∃ index,
    Leaf_KeyIndex comparator zero_key zero_value p key = Some index
    ∧ ((index = 0
        ∧ ∀ i, 0 ≤ i < size_ (leaf_header p) →
            0 < comparator (Leaf_KeyAt zero_key zero_value p i) key)
       ∨ (0 ≤ index < size_ (leaf_header p)
          ∧ comparator (Leaf_KeyAt zero_key zero_value p index) key ≤ 0
          ∧ ∀ i, index < i < size_ (leaf_header p) →
              0 < comparator (Leaf_KeyAt zero_key zero_value p i) key)).
Proof.
  intros Hmono. unfold Leaf_KeyIndex.
  destruct (decide (0 < size_ (leaf_header p))) as [Hpos|Hneg].
  - destruct (Leaf_KeyIndex_loop_spec p key 0 (size_ (leaf_header p) - 1) 0
                (Z.to_nat (size_ (leaf_header p)))
                ltac:(intros i j Hij; apply Hmono; lia)
                0 (size_ (leaf_header p) - 1) 0)
      as (res & -> & Hres); [lia..| | |by left|].
    + intros i Hi. lia.
    + intros i Hi. lia.
    + exists res. split; [done|]. destruct Hres as [[-> Hall]|(Hr & Hle & Hgt)].
      * left. split; [done|]. intros i Hi. apply Hall. lia.
      * right. split_and!; [lia|lia|done|]. intros i Hi. apply Hgt. lia.
  - replace (Z.to_nat (size_ (leaf_header p))) with 0%nat by lia. simpl.
    rewrite decide_False by lia. exists 0. split; [done|]. left.
    split; [done|]. intros i Hi. lia.
Qed.

(** X18. On a leaf whose keys not greater than [key] come before the
    others (as on every sorted leaf), [KeyIndex] returns the index of the
    last key that is not greater than [key]; it returns 0 when every key is
    greater, and on an empty leaf. *)
Theorem Leaf_KeyIndex_finds_last_key_not_greater p key :
  (∀ i j, 0 ≤ i ≤ j ∧ j < size_ (leaf_header p) →
     comparator (Leaf_KeyAt zero_key zero_value p j) key ≤ 0 →
     comparator (Leaf_KeyAt zero_key zero_value p i) key ≤ 0) →
  ∃ index,
    Leaf_KeyIndex comparator zero_key zero_value p key = Some index
    ∧ ((index = 0
        ∧ ∀ i, 0 ≤ i < size_ (leaf_header p) →
            0 < comparator (Leaf_KeyAt zero_key zero_value p i) key)
       ∨ (0 ≤ index < size_ (leaf_header p)
          ∧ comparator (Leaf_KeyAt zero_key zero_value p index) key ≤ 0
          ∧ ∀ i, index < i < size_ (leaf_header p) →
              0 < comparator (Leaf_KeyAt zero_key zero_value p i) key)).
Proof. apply Leaf_KeyIndex_spec. Qed.

(** X19. [Lookup] on an internal node whose keys in the slots
    [1 .. size-1] not greater than [key] come before the others: it returns
    the child of the last of these slots, and the child of slot 0 when the
    key of every slot is greater than [key]. *)
Theorem Internal_Lookup_routes_by_separator q key :
  (∀ i j, 1 ≤ i ≤ j ∧ j < size_ (internal_header q) →
     comparator (Internal_KeyAt zero_key q j) key ≤ 0 →
     comparator (Internal_KeyAt zero_key q i) key ≤ 0) →
  ∃ index,
    Internal_Lookup comparator zero_key q key = Some (Internal_ValueAt zero_key q index)
    ∧ ((index = 0
        ∧ ∀ i, 1 ≤ i < size_ (internal_header q) →
            0 < comparator (Internal_KeyAt zero_key q i) key)
       ∨ (1 ≤ index < size_ (internal_header q)
          ∧ comparator (Internal_KeyAt zero_key q index) key ≤ 0
          ∧ ∀ i, index < i < size_ (internal_header q) →
              0 < comparator (Internal_KeyAt zero_key q i) key)).
Proof.
  intros Hmono. unfold Internal_Lookup.
  destruct (decide (1 < size_ (internal_header q))) as [Hpos|Hneg].
  - destruct (Internal_Lookup_loop_spec q key 1 (size_ (internal_header q) - 1) 0
                (Z.to_nat (size_ (internal_header q)))
                ltac:(intros i j Hij; apply Hmono; lia)
                1 (size_ (internal_header q) - 1) 0)
      as (res & -> & Hres); [lia..| | |by left|].
    + intros i Hi. lia.
    + intros i Hi. lia.
    + exists res. split; [done|]. destruct Hres as [[-> Hall]|(Hr & Hle & Hgt)].
      * left. split; [done|]. intros i Hi. apply Hall. lia.
      * right. split_and!; [lia|lia|done|]. intros i Hi. apply Hgt. lia.
  - exists 0. split; [|left; split; [done|]; intros i Hi; lia].
    destruct (Z.to_nat (size_ (internal_header q))); simpl;
      by rewrite decide_False by lia.
Qed.

(** *** A leaf's [Lookup] and [Insert] *)

Lemma Leaf_Lookup_sorted p key :
  (∀ a b c, comparator a b < 0 → comparator b c ≤ 0 → comparator a c < 0) →
  (∀ i j, 0 ≤ i < j ∧ j < size_ (leaf_header p) →
     comparator (Leaf_KeyAt zero_key zero_value p i) (Leaf_KeyAt zero_key zero_value p j) < 0) →
  0 ≤ size_ (leaf_header p) →
  (∀ i, 0 ≤ i < size_ (leaf_header p) →
     comparator (Leaf_KeyAt zero_key zero_value p i) key = 0 →
     Leaf_Lookup comparator zero_key zero_value p key
     = Some (Some (Leaf_ValueAt zero_key zero_value p i)))
  ∧ ((∀ i, 0 ≤ i < size_ (leaf_header p) →
        comparator (Leaf_KeyAt zero_key zero_value p i) key ≠ 0) →
     Leaf_Lookup comparator zero_key zero_value p key = Some None).
Proof.
  intros Hlaw Hsorted Hsize.
  destruct (Leaf_KeyIndex_spec p key) as (index & Hindex & Hcases).
  { intros i j Hij Hj. destruct (decide (i = j)) as [->|Hne]; [done|].
    pose proof (Hlaw _ _ _ (Hsorted i j ltac:(lia)) Hj). lia. }
  unfold Leaf_Lookup. rewrite Hindex. simpl. split.
  - intros i Hi Heq. destruct Hcases as [[-> Hall]|(Hr & Hle & Hgt)].
    + pose proof (Hall i Hi). lia.
    + assert (i = index) as ->.
      { destruct (decide (index < i)) as [Hlt|Hge]; [pose proof (Hgt i ltac:(lia)); lia|].
        destruct (decide (i = index)) as [|Hne]; [done|].
        pose proof (Hlaw _ _ _ (Hsorted i index ltac:(lia)) Hle). lia. }
      rewrite decide_False by lia. by rewrite decide_False by (intros Hne; lia).
  - intros Hnone. case_decide; [done|].
    rewrite decide_True; [done|]. apply Hnone.
    destruct Hcases as [[-> Hall]|(Hr & Hle & Hgt)]; lia.
Qed.

(** X20. [Lookup] on a sorted leaf finds exactly the keys that are
    present: when a slot below [size] holds a key equal to [key], the value
    of that slot is returned; when none does, [Lookup] returns false.  The
    keys are strictly increasing by the comparator, which is transitive in
    the sense [a < b → b <= c → a < c]. *)
Theorem Leaf_Lookup_finds_exactly_the_present_keys p key :
  (∀ a b c, comparator a b < 0 → comparator b c ≤ 0 → comparator a c < 0) →
  (∀ i j, 0 ≤ i < j ∧ j < size_ (leaf_header p) →
     comparator (Leaf_KeyAt zero_key zero_value p i) (Leaf_KeyAt zero_key zero_value p j) < 0) →
  0 ≤ size_ (leaf_header p) →
  (∀ i, 0 ≤ i < size_ (leaf_header p) →
     comparator (Leaf_KeyAt zero_key zero_value p i) key = 0 →
     Leaf_Lookup comparator zero_key zero_value p key
     = Some (Some (Leaf_ValueAt zero_key zero_value p i)))
  ∧ ((∀ i, 0 ≤ i < size_ (leaf_header p) →
        comparator (Leaf_KeyAt zero_key zero_value p i) key ≠ 0) →
     Leaf_Lookup comparator zero_key zero_value p key = Some None).
Proof. apply Leaf_Lookup_sorted. Qed.

(** X21. What [Insert] does to a leaf, where [index] is the result of
    [KeyIndex]: when the key of that slot equals [key] the leaf is left as
    it is and its size is returned; otherwise the slots from [index] up to
    the end move one place to the right, the slot [index] receives the
    value-initialised pair, and the size grows by one.  Neither [key] nor
    [value] is written to the leaf. *)
Theorem Leaf_Insert_makes_room_at_KeyIndex p key value index :
  Leaf_KeyIndex comparator zero_key zero_value p key = Some index →
  0 ≤ index ≤ size_ (leaf_header p) →
  (comparator (Leaf_KeyAt zero_key zero_value p index) key = 0 →
   Leaf_Insert comparator zero_key zero_value default_pair p key value
   = Some (p, size_ (leaf_header p)))
  ∧ (comparator (Leaf_KeyAt zero_key zero_value p index) key ≠ 0 →
     ∃ p', Leaf_Insert comparator zero_key zero_value default_pair p key value
           = Some (p', size_ (leaf_header p) + 1)
       ∧ leaf_header p' = IncreaseSize (leaf_header p) 1
       ∧ next_page_id_ p' = next_page_id_ p
       ∧ ∀ j, slot (leaf_zero zero_key zero_value) (leaf_array p') j
              = if decide (j < index) then slot (leaf_zero zero_key zero_value) (leaf_array p) j
                else if decide (j = index) then default_pair
                else if decide (j ≤ size_ (leaf_header p))
                     then slot (leaf_zero zero_key zero_value) (leaf_array p) (j - 1)
                     else slot (leaf_zero zero_key zero_value) (leaf_array p) j).
Proof.
  intros Hindex Hrange. unfold Leaf_Insert. rewrite Hindex. simpl. split.
  - intros Heq. by rewrite decide_True.
  - intros Hne. rewrite decide_False by done.
    eexists. split; [done|]. simpl. split_and!; [done..|].
    intros j. rewrite slot_insert, shift_right_slot.
    repeat case_decide; try lia; done.
Qed.

(** *** Internal nodes *)

Lemma ValueIndex_from_first n : ∀ q value i k,
  i ≤ k < i + Z.of_nat n →
  Internal_ValueAt zero_key q k = value →
  (∀ j, i ≤ j < k → Internal_ValueAt zero_key q j ≠ value) →
  ValueIndex_from zero_key n q value i = k.
Proof.
  induction n as [|n IH]; intros q value i k Hk Hv Hfirst; [lia|].
  simpl. case_decide as Hi.
  - destruct (decide (i = k)) as [|Hne]; [done|]. exfalso.
    apply (Hfirst i); [lia|done].
  - apply IH; [|done|].
    + destruct (decide (i = k)) as [->|Hne]; [done|lia].
    + intros j Hj. apply Hfirst. lia.
Qed.

(** X22. [InsertAfterNode] with a child the node has: the new entry goes
    into the slot right after the first slot whose child is [old_value];
    the slots up to that child keep their entries, the later ones move one
    place to the right, and the size grows by one. *)
Theorem InsertAfterNode_places_entry_after_child q old_value key new_value k :
  0 ≤ k < size_ (internal_header q) →
  Internal_ValueAt zero_key q k = old_value →
  (∀ j, 0 ≤ j < k → Internal_ValueAt zero_key q j ≠ old_value) →
  ValueIndex zero_key q old_value = k
  ∧ size_ (internal_header (InsertAfterNode zero_key q old_value key new_value))
    = size_ (internal_header q) + 1
  ∧ ∀ j, slot (internal_zero zero_key)
           (internal_array (InsertAfterNode zero_key q old_value key new_value)) j
         = if decide (j ≤ k) then slot (internal_zero zero_key) (internal_array q) j
           else if decide (j = k + 1) then (key, new_value)
           else if decide (j ≤ size_ (internal_header q))
                then slot (internal_zero zero_key) (internal_array q) (j - 1)
                else slot (internal_zero zero_key) (internal_array q) j.
Proof.
  intros Hk Hv Hfirst.
  assert (ValueIndex zero_key q old_value = k) as Hindex.
  { unfold ValueIndex. apply ValueIndex_from_first; [lia|done|done]. }
  split; [done|]. unfold InsertAfterNode. rewrite Hindex. simpl. split; [done|].
  intros j. rewrite slot_insert, shift_right_slot.
  repeat case_decide; try lia; done.
Qed.

Lemma PopulateNewRoot_Lookup q old_value key new_value k :
  Internal_Lookup comparator zero_key (PopulateNewRoot zero_key q old_value key new_value) k
  = Some (if decide (comparator key k ≤ 0) then new_value else old_value).
Proof.
  unfold Internal_Lookup, PopulateNewRoot. simpl.
  change (Z.to_nat 2) with 2%nat. simpl.
  change ((2 - 1 - 1) `quot` 2 + 1) with 1.
  unfold Internal_KeyAt, Internal_ValueAt. simpl.
  rewrite !slot_insert. simpl.
  case_decide; simpl; rewrite !slot_insert; simpl; done.
Qed.

(** X23. The root made by [PopulateNewRoot] sends a key to the new child
    when the separator key is not greater than it, and to the old child
    otherwise. *)
Theorem new_root_routes_by_separator q old_value key new_value k :
  Internal_Lookup comparator zero_key (PopulateNewRoot zero_key q old_value key new_value) k
  = Some (if decide (comparator key k ≤ 0) then new_value else old_value).
Proof. apply PopulateNewRoot_Lookup. Qed.

(** *** Splitting a leaf *)




(** *** Descending to a leaf *)




(** *** The first split of the root *)


(** *** The first insertion, and point queries *)



End proofs.

Import TreeExamples.

Lemma int_comparator_trans a b c :
  int_comparator a b < 0 → int_comparator b c ≤ 0 → int_comparator a c < 0.
Proof. unfold int_comparator. repeat case_decide; lia. Qed.

Lemma sorted_leaf_monotone key i j :
  0 ≤ i ≤ j ∧ j < size_ (leaf_header sorted_leaf) →
  int_comparator (Leaf_KeyAt 0 (0, 0) sorted_leaf j) key ≤ 0 →
  int_comparator (Leaf_KeyAt 0 (0, 0) sorted_leaf i) key ≤ 0.
Proof.
  change (size_ (leaf_header sorted_leaf)) with 3. intros [Hij Hj].
  assert (i = 0 ∨ i = 1 ∨ i = 2) as [->|[->| ->]] by lia;
    assert (j = 0 ∨ j = 1 ∨ j = 2) as [->|[->| ->]] by lia;
    try lia; try done;
    change (Leaf_KeyAt 0 (0, 0) sorted_leaf 0) with 10;
    change (Leaf_KeyAt 0 (0, 0) sorted_leaf 1) with 20;
    change (Leaf_KeyAt 0 (0, 0) sorted_leaf 2) with 30;
    unfold int_comparator; repeat case_decide; lia.
Qed.

Lemma sorted_leaf_sorted i j :
  0 ≤ i < j ∧ j < size_ (leaf_header sorted_leaf) →
  int_comparator (Leaf_KeyAt 0 (0, 0) sorted_leaf i) (Leaf_KeyAt 0 (0, 0) sorted_leaf j) < 0.
Proof.
  change (size_ (leaf_header sorted_leaf)) with 3. intros [Hij Hj].
  assert (i = 0 ∨ i = 1 ∨ i = 2) as [->|[->| ->]] by lia;
    assert (j = 0 ∨ j = 1 ∨ j = 2) as [->|[->| ->]] by lia;
    try lia; by vm_compute.
Qed.

Lemma Leaf_KeyIndex_finds_last_key_not_greater_witness :
  ∃ index, Leaf_KeyIndex int_comparator 0 (0, 0) sorted_leaf 25 = Some index
    ∧ ((index = 0
        ∧ ∀ i, 0 ≤ i < size_ (leaf_header sorted_leaf) →
            0 < int_comparator (Leaf_KeyAt 0 (0, 0) sorted_leaf i) 25)
       ∨ (0 ≤ index < size_ (leaf_header sorted_leaf)
          ∧ int_comparator (Leaf_KeyAt 0 (0, 0) sorted_leaf index) 25 ≤ 0
          ∧ ∀ i, index < i < size_ (leaf_header sorted_leaf) →
              0 < int_comparator (Leaf_KeyAt 0 (0, 0) sorted_leaf i) 25)).
Proof.
  apply (Leaf_KeyIndex_finds_last_key_not_greater int_comparator 0 (0, 0) sorted_leaf 25).
  apply sorted_leaf_monotone.
Defined.

Lemma Internal_Lookup_routes_by_separator_witness :
  ∃ index,
    Internal_Lookup int_comparator 0 two_children 25
    = Some (Internal_ValueAt 0 two_children index)
    ∧ ((index = 0
        ∧ ∀ i, 1 ≤ i < size_ (internal_header two_children) →
            0 < int_comparator (Internal_KeyAt 0 two_children i) 25)
       ∨ (1 ≤ index < size_ (internal_header two_children)
          ∧ int_comparator (Internal_KeyAt 0 two_children index) 25 ≤ 0
          ∧ ∀ i, index < i < size_ (internal_header two_children) →
              0 < int_comparator (Internal_KeyAt 0 two_children i) 25)).
Proof.
  apply (Internal_Lookup_routes_by_separator int_comparator 0 two_children 25).
  change (size_ (internal_header two_children)) with 2.
  intros i j [Hij Hj] H. by assert (i = j) as -> by lia.
Defined.

Lemma Leaf_Lookup_finds_exactly_the_present_keys_witness :
  Leaf_Lookup int_comparator 0 (0, 0) sorted_leaf 20 = Some (Some (2, 0))
  ∧ Leaf_Lookup int_comparator 0 (0, 0) sorted_leaf 25 = Some None.
Proof.
  assert (0 ≤ size_ (leaf_header sorted_leaf)) as Hsize by (by vm_compute).
  split.
  - destruct (Leaf_Lookup_finds_exactly_the_present_keys int_comparator 0 (0, 0)
                sorted_leaf 20 int_comparator_trans sorted_leaf_sorted Hsize)
      as [Hfound _].
    apply (Hfound 1); by vm_compute.
  - destruct (Leaf_Lookup_finds_exactly_the_present_keys int_comparator 0 (0, 0)
                sorted_leaf 25 int_comparator_trans sorted_leaf_sorted Hsize)
      as [_ Hnone].
    apply Hnone. change (size_ (leaf_header sorted_leaf)) with 3. intros i Hi.
    assert (i = 0 ∨ i = 1 ∨ i = 2) as [->|[->| ->]] by lia; by vm_compute.
Defined.

Lemma Leaf_Insert_makes_room_at_KeyIndex_witness :
  ∃ p', Leaf_Insert int_comparator 0 (0, 0) (0, (INVALID_PAGE_ID, 0)) sorted_leaf 25 (9, 9)
        = Some (p', 4)
    ∧ slot (0, (0, 0)) (leaf_array p') 0 = (10, (1, 0))
    ∧ slot (0, (0, 0)) (leaf_array p') 1 = (0, (INVALID_PAGE_ID, 0))
    ∧ slot (0, (0, 0)) (leaf_array p') 2 = (20, (2, 0))
    ∧ slot (0, (0, 0)) (leaf_array p') 3 = (30, (3, 0)).
Proof.
  assert (Leaf_KeyIndex int_comparator 0 (0, 0) sorted_leaf 25 = Some 1) as Hindex
    by (by vm_compute).
  assert (0 ≤ 1 ≤ size_ (leaf_header sorted_leaf)) as Hrange by (by vm_compute).
  destruct (Leaf_Insert_makes_room_at_KeyIndex int_comparator 0 (0, 0)
              (0, (INVALID_PAGE_ID, 0)) sorted_leaf 25 (9, 9) 1 Hindex Hrange)
    as [_ Hnew].
  destruct Hnew as (p' & Hins & _ & _ & Hslots); [by vm_compute|].
  exists p'. split; [exact Hins|].
  change (leaf_zero 0 (0, 0)) with (0, (0, 0)) in Hslots.
  rewrite !Hslots. split_and!; by vm_compute.
Defined.

Lemma InsertAfterNode_places_entry_after_child_witness :
  ValueIndex 0 two_children 1 = 0
  ∧ slot (0, 0) (internal_array (InsertAfterNode 0 two_children 1 15 7)) 0 = (0, 1)
  ∧ slot (0, 0) (internal_array (InsertAfterNode 0 two_children 1 15 7)) 1 = (15, 7)
  ∧ slot (0, 0) (internal_array (InsertAfterNode 0 two_children 1 15 7)) 2 = (20, 2).
Proof.
  destruct (InsertAfterNode_places_entry_after_child 0 two_children 1 15 7 0)
    as (Hindex & _ & Hslots); [by vm_compute|by vm_compute|intros j Hj; lia|].
  split; [exact Hindex|].
  change (internal_zero 0) with (0, 0) in Hslots.
  rewrite !Hslots. split_and!; by vm_compute.
Defined.






End BPlusTreePages.

(* ===================================================================== *)
(** ** Extendible hash table: the number of buckets *)
(* ===================================================================== *)

Module ExtendibleHashTableBuckets.
Import ExtendibleHashTable ExtendibleHashTableProofs ExtendibleHashTableInvariant.
Section proofs.
Context {K V : Type} `{EqDecision K}.
Variable hash : K → Z.
Implicit Types (t : Table (K:=K) (V:=V)) (b : Bucket (K:=K) (V:=V)).

Lemma referenced_elem t h :
  Z.of_nat (length (dir_ t)) = 2 ^ global_depth_ t →
  h ∈ referenced t ↔ ∃ j, 0 ≤ j < 2 ^ global_depth_ t ∧ at_index (dir_ t) j = Some h.
Proof.
  intros Hlen. unfold referenced. rewrite elem_of_list_to_set, list_elem_of_lookup. split.
  - intros [i Hi]. exists (Z.of_nat i). pose proof (lookup_lt_Some _ _ _ Hi).
    split; [lia|]. rewrite at_index_lookup by lia. by rewrite Nat2Z.id.
  - intros (j & Hj & Hat). exists (Z.to_nat j). by rewrite <- at_index_lookup by lia.
Qed.

Lemma testbit_above x d : 0 ≤ d → 0 ≤ x < 2 ^ d → Z.testbit (x + 2 ^ d) d = true.
Proof.
  intros Hd Hx. assert (0 < 2 ^ d) by (by apply Z.pow_pos_nonneg).
  pose proof (mod_pow2_succ (x + 2 ^ d) d Hd) as Hs.
  rewrite (Z.mod_small (x + 2 ^ d)) in Hs
    by (rewrite Z.pow_add_r, Z.pow_1_r by lia; lia).
  replace ((x + 2 ^ d) mod 2 ^ d) with x in Hs.
  - destruct (Z.testbit (x + 2 ^ d) d); [done|lia].
  - apply (Z.mod_unique_pos _ _ 1); lia.
Qed.

(** A split replaces the split bucket by its two halves in the set of
    the buckets the directory refers to. *)
Lemma split_referenced t key h b t1 :
  inv hash t →
  bucket_at t (hash key mod 2 ^ global_depth_ t) = Some (h, b) →
  split hash t key b = Some t1 →
  (referenced t1
   = (referenced t ∖ {[h]}) ∪ {[length (buckets_ t); S (length (buckets_ t))]})
  ∧ (h ∈ referenced t)
  ∧ (length (buckets_ t) ∉ referenced t) ∧ (S (length (buckets_ t)) ∉ referenced t).
Proof.
  intros Hinv Hbucket Hsplit. pose proof (inv_wf _ _ Hinv) as Hwf.
  destruct (inv_slots _ _ Hinv _ _ _ Hbucket) as (_ & _ & _ & _ & Halias).
  destruct (bucket_at_range _ _ _ _ Hwf Hbucket) as (Hi & Hd & Hh).
  pose proof (wf_depth _ Hwf) as Hgd. pose proof (wf_dir_len _ Hwf) as Hlen.
  destruct (split_shape hash t key h b Hinv Hbucket)
    as (dir' & gd1 & Hgd1eq & Hsp & Hdl & Hslots).
  rewrite Hsplit in Hsp. injection Hsp as ->.
  apply bucket_at_Some in Hbucket as [Hat Hb].
  assert (0 < 2 ^ depth_ b) as Hm by (apply Z.pow_pos_nonneg; lia).
  assert (0 < 2 ^ global_depth_ t) as Hg by (apply Z.pow_pos_nonneg; lia).
  assert (depth_ b + 1 ≤ gd1 ∧ global_depth_ t ≤ gd1) as [Hld1 Hgg1]
    by (rewrite Hgd1eq; case_decide; lia).
  clear Hgd1eq.
  assert (2 ^ (depth_ b + 1) ≤ 2 ^ gd1 ∧ 2 ^ global_depth_ t ≤ 2 ^ gd1) as [Hp1 Hp2]
    by (split; apply Z.pow_le_mono_r; lia).
  assert (2 ^ (depth_ b + 1) = 2 * 2 ^ depth_ b) as Hp3
    by (rewrite Z.pow_add_r, Z.pow_1_r by lia; lia).
  rewrite (mod_pow2_le (hash key) (depth_ b) (global_depth_ t)) in Halias by done.
  pose proof (Z.mod_pos_bound (hash key) (2 ^ depth_ b) Hm) as Hstart.
  assert (∀ x, x ∈ referenced t → (x < length (buckets_ t))%nat) as Hold.
  { intros x (j & Hj & Hx)%referenced_elem; [|done]. by eapply wf_handle_lt. }
  split_and!.
  - apply set_eq. intros x.
    rewrite elem_of_union, elem_of_difference, elem_of_singleton, elem_of_union,
      !elem_of_singleton.
    rewrite (referenced_elem _ x) by done. simpl. split.
    + intros (j & Hj & Hx). rewrite (Hslots j Hj) in Hx. case_decide as Hc.
      * injection Hx as <-. right. destruct (Z.testbit j (depth_ b)); auto.
      * left. pose proof (Z.mod_pos_bound j (2 ^ global_depth_ t) Hg).
        split; [apply referenced_elem; eauto|].
        intros ->. apply Hc. apply Halias in Hx; [|done].
        by rewrite mod_pow2_le in Hx by done.
    + intros [[(i & Hir & Hx)%referenced_elem Hne]|[->| ->]]; [|done|..].
      * exists i. split; [lia|]. rewrite Hslots by lia. rewrite decide_False.
        -- by rewrite Z.mod_small by lia.
        -- intros Hc. apply Hne. apply Halias in Hc; [|done]. congruence.
      * exists (hash key mod 2 ^ depth_ b). split; [lia|]. rewrite Hslots by lia.
        rewrite decide_True by (by rewrite Z.mod_mod by lia).
        by rewrite Z.mod_pow2_bits_high by lia.
      * exists (hash key mod 2 ^ depth_ b + 2 ^ depth_ b). split; [lia|].
        rewrite Hslots by lia. rewrite decide_True.
        -- by rewrite testbit_above by lia.
        -- rewrite <- (Z.mul_1_l (2 ^ depth_ b)) at 2.
           rewrite Z_mod_plus_full. by rewrite Z.mod_mod by lia.
  - apply referenced_elem; eauto.
  - intros Hin%Hold. lia.
  - intros Hin%Hold. lia.
Qed.

Lemma split_count t key h b t1 :
  inv hash t →
  bucket_at t (hash key mod 2 ^ global_depth_ t) = Some (h, b) →
  split hash t key b = Some t1 →
  size (referenced t1) = S (size (referenced t)) ∧ num_buckets_ t1 = num_buckets_ t + 1.
Proof.
  intros Hinv Hbucket Hsplit.
  destruct (split_referenced t key h b t1 Hinv Hbucket Hsplit) as (-> & Hh & HL & HSL).
  split.
  - rewrite size_union by set_solver.
    rewrite size_difference by set_solver.
    rewrite size_union by (apply disjoint_singleton_l; rewrite elem_of_singleton; lia).
    rewrite !size_singleton.
    assert (size (referenced t) ≠ 0%nat); [|lia].
    intros Hz%size_empty_inv. set_solver.
  - destruct (split_shape hash t key h b Hinv Hbucket) as (dir' & gd1 & _ & Hsp & _).
    rewrite Hsplit in Hsp. by injection Hsp as ->.
Qed.

Lemma Insert_count t key value t' :
  inv hash t → Z.of_nat (size (referenced t)) = num_buckets_ t →
  Insert hash t key value = Some t' →
  Z.of_nat (size (referenced t')) = num_buckets_ t'.
Proof.
  intros Hinv Hcount. pose proof (inv_wf _ _ Hinv) as Hwf.
  pose proof (wf_depth _ Hwf) as Hgd.
  unfold Insert. rewrite IndexOf_wf by done. simpl.
  destruct (wf_bucket_at t (hash key mod 2 ^ global_depth_ t) Hwf) as (h & b & Hb).
  { apply Z.mod_pos_bound, Z.pow_pos_nonneg; lia. }
  rewrite Hb. simpl. destruct (Bucket_Find b key); [by intros [= <-]|].
  destruct (IsFull b); [|by intros [= <-]].
  destruct (split hash t key b) as [t1|] eqn:Hsplit; simpl; [|done].
  destruct (split_count t key h b t1 Hinv Hb Hsplit) as [Hsize Hnum].
  destruct (IndexOf hash t1 key) as [i1|]; simpl; [|done].
  destruct (bucket_at t1 i1) as [[h' b']|]; simpl; [|done].
  intros [= <-]. unfold referenced in *. simpl. lia.
Qed.

Lemma call_count t c t' :
  inv hash t → Z.of_nat (size (referenced t)) = num_buckets_ t →
  call hash t c = Some t' →
  Z.of_nat (size (referenced t')) = num_buckets_ t'.
Proof.
  intros Hinv Hcount. destruct c as [key value|key]; simpl.
  - by apply Insert_count.
  - unfold Remove. destruct (IndexOf hash t key) as [i|]; simpl; [|done].
    destruct (bucket_at t i) as [[h b]|]; simpl; [|done].
    destruct (Bucket_Remove b key) as [b' r]. simpl. by intros [= <-].
Qed.

Lemma run_count cs : ∀ t t',
  inv hash t → Z.of_nat (size (referenced t)) = num_buckets_ t →
  run hash t cs = Some t' →
  Z.of_nat (size (referenced t')) = num_buckets_ t'.
Proof.
  induction cs as [|c cs IH]; simpl; intros t t' Hinv Hcount.
  - by intros [= <-].
  - destruct (call hash t c) as [t1|] eqn:Hc; simpl; [|done].
    apply IH; [by eapply call_inv|by eapply call_count].
Qed.

(** X27. In every table reached from the constructor by calls of [Insert]
    and [Remove], [num_buckets_] is the number of distinct buckets the
    directory refers to: a split takes the split bucket out of the
    directory and puts its two halves in, and both halves are referred to. *)
Theorem num_buckets_counts_the_referenced_buckets (n : nat) (cs : list Call) t :
  run hash (new_table n) cs = Some t →
  num_buckets_ t = Z.of_nat (size (referenced t)).
Proof.
  intros Hrun. symmetry.
  apply (run_count cs (new_table n) t); [apply new_table_inv| |done].
  change (referenced (new_table n)) with (list_to_set [0%nat] : gset nat).
  vm_compute. reflexivity.
Qed.

End proofs.

Import TableExamples.

Lemma num_buckets_counts_the_referenced_buckets_witness :
  run hash_int (new_table 2) table_calls = Some mixed_table
  ∧ num_buckets_ mixed_table = 3
  ∧ num_buckets_ mixed_table = Z.of_nat (size (referenced mixed_table)).
Proof.
  assert (run hash_int (new_table 2) table_calls = Some mixed_table) as Hrun
    by (vm_compute; reflexivity).
  split; [exact Hrun|]. split; [vm_compute; reflexivity|].
  exact (num_buckets_counts_the_referenced_buckets hash_int 2 table_calls mixed_table Hrun).
Defined.

End ExtendibleHashTableBuckets.
